(** * Hocuspocus server kernel: a shallow embedding of
      packages/server/src/Hocuspocus.ts

    The file follows the class [Hocuspocus]: the hook pipeline ([hooks]),
    the debouncer ([debounce]) and the per-socket handshake together with
    the document registry ([handleConnection], [createDocument],
    [createConnection], [handleDocumentUpdate]).

    JavaScript promises are embedded in two ways.  Inside [hooks] a promise
    chain is a state-passing computation that settles to a value or to a
    rejection.  For the kernel, every [await] and every [.then]/[.catch]
    that waits for a hook chain becomes a named continuation stored in the
    state; the environment settles continuations in any order, which covers
    every interleaving the event loop can produce. *)

From Stdlib Require Import ZArith Lia.
From stdpp Require Import gmap strings list fin_maps.

Local Open Scope Z_scope.

(** ** Values shared by all components *)

(** The names accepted by [hooks] (type [HookName]). *)
Inductive HookName : Set :=
  | onConfigure | onListen | onUpgrade | onConnect | connected
  | onAuthenticate | onLoadDocument | afterLoadDocument
  | beforeHandleMessage | beforeBroadcastStateless | onStateless
  | onChange | onStoreDocument | afterStoreDocument | onAwarenessUpdate
  | onRequest | onDisconnect | onDestroy.

Global Instance HookName_eq_dec : EqDecision HookName.
Proof. solve_decision. Defined.

(** What a hook rejects with: an object with optional [code], [reason] and
    [message].  A rejection without any value ([undefined]) is [None] at the
    places that receive it. *)
Record Error : Set := mkError {
  code : option Z;
  reason : option string;
  message : option string
}.

Global Instance Error_eq_dec : EqDecision Error.
Proof. solve_decision. Defined.

(** [error?.message] used as a condition: true for a non-empty string. *)
Definition has_message (error : option Error) : bool :=
  match error with
  | Some e => match message e with
              | Some m => negb (String.eqb m EmptyString)
              | None => false
              end
  | None => false
  end.

(** A settled promise. *)
Inductive Settled (A : Type) : Type :=
  | Fulfilled (a : A)
  | Rejected (error : option Error).
Arguments Fulfilled {A} a.
Arguments Rejected {A} error.

(** An extension: any subset of the hook handlers, and an optional
    priority.  [ext_label] stands for the identity of the object and is only
    used to tell handlers apart in logs. *)
Record Extension (H : Type) : Type := mkExtension {
  ext_label : string;
  priority : option Z;
  handler : HookName -> option H
}.
Arguments mkExtension {H} _ _ _.
Arguments ext_label {H} _.
Arguments priority {H} _.
Arguments handler {H} _ _.

(** [typeof extension[name] === 'function'] *)
Definition defines {H} (name : HookName) (extension : Extension H) : bool :=
  match handler extension name with Some _ => true | None => false end.

(** The getter [requiresAuthentication]. *)
Definition Hocuspocus_requiresAuthentication {H} (extensions : list (Extension H)) : bool :=
  match List.find (defines onAuthenticate) extensions with
  | Some _ => true
  | None => false
  end.

(** ** The hook pipeline *)

Module Hooks.
Section Hooks.
(** [W] is everything handlers can read and change, [P] the payload and
    [V] what a handler resolves with. *)
Context {W P V : Type}.

Definition Handler : Type := P -> W -> Settled V * W.
Definition Callback : Type := option V -> W -> Settled unit * W.

Inductive LogEntry : Type :=
  | Invoked (extension : string) (name : HookName)
  | CalledBack (extension : string) (name : HookName)
  | ConsoleError (name : HookName) (text : string).

Record St : Type := mkSt { world : W; log : list LogEntry }.

Definition record (entry : LogEntry) (s : St) : St :=
  mkSt (world s) (log s ++ [entry]).

(** A promise whose callbacks run on [St]. *)
Definition Promise (A : Type) : Type := St -> Settled A * St.

Definition resolve {A} (a : A) : Promise A := fun s => (Fulfilled a, s).

Definition then_ {A B} (p : Promise A) (f : A -> Promise B) : Promise B :=
  fun s =>
    match p s with
    | (Fulfilled a, s') => f a s'
    | (Rejected error, s') => (Rejected error, s')
    end.

Definition catch_ {A} (p : Promise A) (f : option Error -> Promise A) : Promise A :=
  fun s =>
    match p s with
    | (Fulfilled a, s') => (Fulfilled a, s')
    | (Rejected error, s') => f error s'
    end.

(** [(extension[name] as any)?.(payload)] *)
Definition invoke (name : HookName) (payload : P)
    (extension : Extension Handler) : Promise (option V) :=
  fun s =>
    match handler extension name with
    | Some h =>
        let s1 := record (Invoked (ext_label extension) name) s in
        match h payload (world s1) with
        | (Fulfilled v, w) => (Fulfilled (Some v), mkSt w (log s1))
        | (Rejected error, w) => (Rejected error, mkSt w (log s1))
        end
    | None => (Fulfilled None, s)
    end.

(** The [.catch] of every link: log the message, throw again. *)
Definition log_and_rethrow (name : HookName) (error : option Error)
    : Promise (option V) :=
  fun s =>
    let s1 :=
      if has_message error
      then record (ConsoleError name
                     (default EmptyString (error ≫= message))) s
      else s in
    (Rejected error, s1).

(** [chain.then((...args) => callback(...args))]: the callback receives
    what the handler resolved with. *)
Definition call_back (name : HookName) (callback : Callback)
    (extension : Extension Handler) (arg : option V) : Promise (option V) :=
  fun s =>
    let s1 := record (CalledBack (ext_label extension) name) s in
    match callback arg (world s1) with
    | (Fulfilled _, w) => (Fulfilled None, mkSt w (log s1))
    | (Rejected error, w) => (Rejected error, mkSt w (log s1))
    end.

(** One round of the [forEach]. *)
Definition link (name : HookName) (payload : P) (callback : option Callback)
    (chain : Promise (option V)) (extension : Extension Handler)
    : Promise (option V) :=
  let chain :=
    catch_ (then_ chain (fun _ => invoke name payload extension))
           (log_and_rethrow name) in
  match callback with
  | Some cb => then_ chain (call_back name cb extension)
  | None => chain
  end.

Definition hooks (extensions : list (Extension Handler)) (name : HookName)
    (payload : P) (callback : option Callback) : Promise (option V) :=
  fold_left (link name payload callback)
    (List.filter (defines name) extensions)
    (resolve None).

(** *** What the log of a chain is compared with *)

(** The entries of handlers and callbacks, without the console. *)
Definition is_call (entry : LogEntry) : bool :=
  match entry with
  | ConsoleError _ _ => false
  | _ => true
  end.

Definition calls (l : list LogEntry) : list LogEntry := List.filter is_call l.

(** What one extension contributes when nothing fails: its handler, then
    the callback if there is one. *)
Definition round (name : HookName) (callback : option Callback)
    (extension : Extension Handler) : list LogEntry :=
  Invoked (ext_label extension) name
  :: match callback with
     | Some _ => [CalledBack (ext_label extension) name]
     | None => []
     end.

(** All of it for the extensions that define the hook, in their stored
    order. *)
Definition schedule (name : HookName) (callback : option Callback)
    (extensions : list (Extension Handler)) : list LogEntry :=
  flat_map (round name callback) (List.filter (defines name) extensions).

Definition is_fulfilled {A} (r : Settled A) : bool :=
  match r with Fulfilled _ => true | Rejected _ => false end.

End Hooks.
End Hooks.

(** ** The debouncer *)

Module Debounce.
Section Debounce.
(** [F] is the type of the debounced functions. *)
Context {F : Type}.

(** An entry of [this.timers]. *)
Record Timer : Type := mkTimer {
  timeout : nat;      (* the handle returned by [setTimeout] *)
  start : Z
}.

(** A timeout armed in the runtime: when it is due, and the closure [run]
    (which captured [id] and [func]). *)
Record Timeout : Type := mkTimeout {
  due : Z;
  run_id : string;
  run_func : F
}.

Record Timers : Type := mkTimers {
  timers : gmap string Timer;      (* this.timers *)
  armed : gmap nat Timeout;        (* timeouts the runtime still holds *)
  next_handle : nat
}.

Definition empty : Timers := mkTimers ∅ ∅ 0%nat.

Definition clearTimeout (h : nat) (T : Timers) : Timers :=
  mkTimers (timers T) (delete h (armed T)) (next_handle T).

Definition setTimeout (now delay : Z) (id : string) (func : F) (T : Timers)
    : nat * Timers :=
  (next_handle T,
   mkTimers (timers T)
     (<[next_handle T := mkTimeout (now + delay) id func]> (armed T))
     (S (next_handle T))).

(** [run]: [this.timers.delete(id); func()].  The function that has to be
    called is handed back to the caller, which calls it at once. *)
Definition run (id : string) (func : F) (T : Timers) : Timers * option F :=
  (mkTimers (delete id (timers T)) (armed T) (next_handle T), Some func).

(** [debounce(id, func, immediately)]; [now] and [later] are what the two
    calls of [Date.now()] return. *)
Definition debounce (debounce_ms maxDebounce now later : Z)
    (id : string) (func : F) (immediately : bool) (T : Timers)
    : Timers * option F :=
  let old := timers T !! id in
  (* old?.start || Date.now() *)
  let start :=
    match old with
    | Some o => if Z.eqb (start o) 0 then now else start o
    | None => now
    end in
  let T1 :=
    match old with
    | Some o => clearTimeout (timeout o) T
    | None => T
    end in
  if immediately then run id func T1
  else if Z.leb maxDebounce (later - start) then run id func T1
  else
    let '(h, T2) := setTimeout later debounce_ms id func T1 in
    (mkTimers (<[id := mkTimer h start]> (timers T2)) (armed T2) (next_handle T2),
     None).

(** The runtime fires the timeout [h]: it calls [run]. *)
Definition fire (h : nat) (T : Timers) : Timers * option F :=
  match armed T !! h with
  | Some t => run (run_id t) (run_func t) (clearTimeout h T)
  | None => (T, None)
  end.

(** *** Well-formed timer tables *)

(** What [debounce] and [fire] maintain: the start of an entry is a
    timestamp (not 0, which [old?.start || Date.now()] would take for a
    missing one); the timeout of the entry is armed, runs for the same
    id, and is due before [start + maxDebounce + debounce]; handles are
    below the next one. *)
Definition timers_wf (debounce_ms maxDebounce : Z) (T : Timers) : Prop :=
  (forall id e,
      timers T !! id = Some e ->
      start e <> 0
      /\ exists t,
          armed T !! timeout e = Some t
          /\ run_id t = id
          /\ due t < start e + maxDebounce + debounce_ms)
  /\ (forall h t, armed T !! h = Some t -> (h < next_handle T)%nat).

(** The timeouts left once the one of [id] is cleared. *)
Definition cleared (id : string) (T : Timers) : gmap nat Timeout :=
  match timers T !! id with
  | Some o => delete (timeout o) (armed T)
  | None => armed T
  end.

(** The start [debounce] works with: the one of the pending entry, else
    now. *)
Definition start_of (id : string) (now : Z) (T : Timers) : Z :=
  match timers T !! id with
  | Some o => start o
  | None => now
  end.

(** The tables the server can have: [debounce] and the runtime are the
    only ones to change them. *)
Inductive Call : Type :=
  | Debounced (now later : Z) (id : string) (func : F) (immediately : bool)
  | Fired (h : nat).

Definition apply_call (debounce_ms maxDebounce : Z) (T : Timers) (c : Call)
    : Timers :=
  match c with
  | Debounced now later id func immediately =>
      (debounce debounce_ms maxDebounce now later id func immediately T).1
  | Fired h => (fire h T).1
  end.

Definition after (debounce_ms maxDebounce : Z) (calls : list Call) : Timers :=
  fold_left (apply_call debounce_ms maxDebounce) calls empty.

(** [Date.now()] did not return 0. *)
Definition clock_ok (c : Call) : Prop :=
  match c with
  | Debounced now _ _ _ _ => now <> 0
  | Fired _ => True
  end.

End Debounce.
Arguments Timeout : clear implicits.
Arguments Timers : clear implicits.
Arguments Call : clear implicits.
End Debounce.

(** ** The server kernel *)

Module Kernel.

(** *** Messages *)

(** [MessageType] of ./types. *)
Inductive MessageType : Set :=
  | Sync | Awareness | Auth | QueryAwareness | SyncReply
  | Stateless | BroadcastStateless | CLOSE | SyncStatus
  | Unknown (n : N).

Global Instance MessageType_eq_dec : EqDecision MessageType.
Proof. solve_decision. Defined.

(** Modelled from the spec: the codec (lib0/decoding and ./IncomingMessage)
    is not part of the sources; section 4.5 describes a pure decoder that
    yields the document name, then the type, then the rest.  An incoming
    byte array is represented by how far that decoder gets. *)
Inductive Data : Set :=
  | Garbage (bytes : list N)
      (* reading the document name throws *)
  | NameOnly (documentName : string)
      (* reading the type throws *)
  | Message (documentName : string) (type : MessageType)
      (token : option string) (rest : list N).
      (* [token]: what reading a varuint and then a varstring from the body
         gives; [None] when that throws *)

Global Instance Data_eq_dec : EqDecision Data.
Proof. solve_decision. Defined.

Definition readDocumentName (data : Data) : option string :=
  match data with
  | Garbage _ => None
  | NameOnly d => Some d
  | Message d _ _ _ => Some d
  end.

Definition readType (data : Data) : option MessageType :=
  match data with
  | Message _ ty _ _ => Some ty
  | _ => None
  end.

Definition readToken (data : Data) : option string :=
  match data with
  | Message _ _ tok _ => tok
  | _ => None
  end.

(** What the kernel itself writes to a socket (./OutgoingMessage). *)
Inductive Outgoing : Set :=
  | Authenticated (documentName : string)
  | PermissionDenied (documentName : string) (reason : string).

Global Instance Outgoing_eq_dec : EqDecision Outgoing.
Proof. solve_decision. Defined.

(** A close event of @hocuspocus/common: a code and a reason. *)
Record CloseEvent : Set := mkCloseEvent {
  ce_code : Z;
  ce_reason : string
}.

(** [.catch((error = Forbidden) => ...)] reads [error.code] and
    [error.reason] of a close event. *)
Definition as_error (e : CloseEvent) : Error :=
  mkError (Some (ce_code e)) (Some (ce_reason e)) None.

(** *** Observable effects *)

Inductive Event : Set :=
  | EvHook (name : HookName) (socketId : option nat) (documentName : string)
      (* [this.hooks(name, payload, ...)] is called *)
  | EvSend (socketId : nat) (msg : Outgoing)
  | EvClose (socketId : nat) (code : option Z) (reason : option string)
      (* [incoming.close(code, reason)] returned *)
  | EvCloseThrew (socketId : nat) (code : option Z)
      (* [incoming.close(code, reason)] threw *)
  | EvDeliver (socketId : nat) (documentName : string) (data : Data)
      (* a Connection takes a message of its document *)
  | EvConsoleError
  | EvUnhandled (error : option Error)
      (* a promise rejected and nothing catches it *)
  | EvDestroy (doc : nat).

Global Instance Event_eq_dec : EqDecision Event.
Proof. solve_decision. Defined.

(** *** Objects *)

Record ConnectionConfiguration : Set := mkConnectionConfiguration {
  readOnly : bool;
  requiresAuthentication : bool;
  isAuthenticated : bool
}.

Inductive WsReadyState : Set := Connecting | Open | Closing | Closed.

Global Instance WsReadyState_eq_dec : EqDecision WsReadyState.
Proof. solve_decision. Defined.

(** The variables [handleConnection] closes over, one set per socket. *)
Record Socket : Type := mkSocket {
  connection : ConnectionConfiguration;
  documentConnections : gmap string bool;
  incomingMessageQueue : gmap string (list Data);
  connectionEstablishing : gmap string bool;
  closeIdleConnection : bool;       (* is the idle timeout still armed *)
  readyState : WsReadyState
}.

(** Modelled from the spec: ./Document is not part of the sources.  Section 3
    gives a Document a name, the set of attached Connections, the flag
    [isLoading] (true from creation) and its update subscribers. *)
Record Document : Set := mkDocument {
  name : string;
  isLoading : bool;
  connections : list nat;
  destroyed : bool;
  onUpdate : bool                   (* has [document.onUpdate(...)] been set *)
}.

(** Modelled from the spec: ./Connection is not part of the sources.  A
    Connection belongs to one socket and one Document and keeps the list of
    its close callbacks; [onClose] counts the callbacks registered so far
    (first the one of [createConnection], then the one of
    [setUpNewConnection]). *)
Record Connection : Set := mkConnection {
  socketId : nat;
  document : nat;
  documentName : string;
  onClose : nat
}.

(** The two closures given to [debounce]. *)
Inductive StoreKind : Set :=
  | AfterUpdate          (* in [handleDocumentUpdate] *)
  | LastDisconnect.      (* in the close callback of [createConnection] *)

Record StoreTask : Set := mkStoreTask {
  task_kind : StoreKind;
  task_document : nat;
  task_socketId : option nat
}.

(** Which handshake path called [setUpNewConnection], that is, whose
    [.catch] receives a failure of it. *)
Inductive Origin : Set := ViaConnect | ViaAuthenticate.

(** The suspended computations. *)
Inductive Kont : Set :=
  | KOnConnect (socketId : nat) (documentName : string)
  | KOnAuthenticate (socketId : nat) (documentName : string)
  | KPermissionDenied (socketId : nat) (error : Error)
  | KOnLoadDocument (socketId : nat) (documentName : string) (doc : nat)
      (origin : Origin)
  | KAfterLoadDocument (socketId : nat) (documentName : string) (doc : nat)
      (origin : Origin)
  | KCreateDocument (socketId : nat) (documentName : string) (doc : nat)
      (origin : Origin)
      (* [await this.createDocument(...)] in [setUpNewConnection] *)
  | KOnDisconnect (socketId : nat) (doc : nat)
  | KOnStoreDocument (task : StoreTask)
  | KAfterStoreDocument (task : StoreTask)
  | KForget.
      (* a chain nobody waits for *)

Record State : Type := mkState {
  documents : list (string * nat);     (* this.documents, in insertion order *)
  heap : list Document;                (* every Document constructed so far *)
  conns : list Connection;             (* every Connection constructed so far *)
  sockets : gmap nat Socket;
  tm : Debounce.Timers StoreTask;      (* this.timers *)
  promises : gmap nat Kont;
  next_promise : nat;
  clock : Z;                           (* Date.now() *)
  trace : list Event
}.

Definition initial : State :=
  mkState [] [] [] ∅ Debounce.empty ∅ 0%nat 1 [].

(** *** [Map<string, Document>] *)

Fixpoint Map_get {A} (k : string) (m : list (string * A)) : option A :=
  match m with
  | [] => None
  | (k', v) :: m' => if String.eqb k k' then Some v else Map_get k m'
  end.

Fixpoint Map_set {A} (k : string) (v : A) (m : list (string * A))
    : list (string * A) :=
  match m with
  | [] => [(k, v)]
  | (k', v') :: m' =>
      if String.eqb k k' then (k, v) :: m' else (k', v') :: Map_set k v m'
  end.

Fixpoint Map_delete {A} (k : string) (m : list (string * A))
    : list (string * A) :=
  match m with
  | [] => []
  | (k', v') :: m' =>
      if String.eqb k k' then m' else (k', v') :: Map_delete k m'
  end.

(** *** Field updates *)

Definition set_documents (v : list (string * nat)) (st : State) : State :=
  mkState v (heap st) (conns st) (sockets st) (tm st) (promises st)
    (next_promise st) (clock st) (trace st).
Definition set_heap (v : list Document) (st : State) : State :=
  mkState (documents st) v (conns st) (sockets st) (tm st) (promises st)
    (next_promise st) (clock st) (trace st).
Definition set_conns (v : list Connection) (st : State) : State :=
  mkState (documents st) (heap st) v (sockets st) (tm st) (promises st)
    (next_promise st) (clock st) (trace st).
Definition set_sockets (v : gmap nat Socket) (st : State) : State :=
  mkState (documents st) (heap st) (conns st) v (tm st) (promises st)
    (next_promise st) (clock st) (trace st).
Definition set_tm (v : Debounce.Timers StoreTask) (st : State) : State :=
  mkState (documents st) (heap st) (conns st) (sockets st) v (promises st)
    (next_promise st) (clock st) (trace st).
Definition set_promises (v : gmap nat Kont) (n : nat) (st : State) : State :=
  mkState (documents st) (heap st) (conns st) (sockets st) (tm st) v
    n (clock st) (trace st).
Definition set_clock (v : Z) (st : State) : State :=
  mkState (documents st) (heap st) (conns st) (sockets st) (tm st)
    (promises st) (next_promise st) v (trace st).
Definition set_trace (v : list Event) (st : State) : State :=
  mkState (documents st) (heap st) (conns st) (sockets st) (tm st)
    (promises st) (next_promise st) (clock st) v.

Definition with_connection (v : ConnectionConfiguration) (s : Socket) : Socket :=
  mkSocket v (documentConnections s) (incomingMessageQueue s)
    (connectionEstablishing s) (closeIdleConnection s) (readyState s).
Definition with_documentConnections (v : gmap string bool) (s : Socket) : Socket :=
  mkSocket (connection s) v (incomingMessageQueue s)
    (connectionEstablishing s) (closeIdleConnection s) (readyState s).
Definition with_incomingMessageQueue (v : gmap string (list Data)) (s : Socket)
    : Socket :=
  mkSocket (connection s) (documentConnections s) v
    (connectionEstablishing s) (closeIdleConnection s) (readyState s).
Definition with_connectionEstablishing (v : gmap string bool) (s : Socket)
    : Socket :=
  mkSocket (connection s) (documentConnections s) (incomingMessageQueue s)
    v (closeIdleConnection s) (readyState s).
Definition with_closeIdleConnection (v : bool) (s : Socket) : Socket :=
  mkSocket (connection s) (documentConnections s) (incomingMessageQueue s)
    (connectionEstablishing s) v (readyState s).
Definition with_readyState (v : WsReadyState) (s : Socket) : Socket :=
  mkSocket (connection s) (documentConnections s) (incomingMessageQueue s)
    (connectionEstablishing s) (closeIdleConnection s) v.

Definition upd_socket (t : nat) (f : Socket -> Socket) (st : State) : State :=
  set_sockets (alter f t (sockets st)) st.

Definition upd_document (doc : nat) (f : Document -> Document) (st : State)
    : State :=
  match heap st !! doc with
  | Some D => set_heap (<[doc := f D]> (heap st)) st
  | None => st
  end.

Definition emit (e : Event) (st : State) : State :=
  set_trace (trace st ++ [e]) st.

(** Suspend until the environment settles the new promise. *)
Definition await (k : Kont) (st : State) : State :=
  set_promises (<[next_promise st := k]> (promises st)) (S (next_promise st)) st.

(** [this.hooks(name, payload, ...)] seen from the kernel: the chain starts
    now and settles later; [k] is what has been attached to it. *)
Definition hooks (hook : HookName) (t : option nat) (d : string) (k : Kont)
    (st : State) : State :=
  await k (emit (EvHook hook t d) st).

Section Kernel.
(** The configuration, and what the sources take from other packages: the
    close events of @hocuspocus/common and the codes the socket accepts
    in [close] (it throws on the others). *)
Context {H : Type}.
Variable extensions : list (Extension H).
Variables debounce_ms maxDebounce : Z.
Variable valid_code : Z -> bool.
Variables ResetConnection Unauthorized Forbidden : CloseEvent.

(** [incoming.close(code, reason)]; [None] when it throws. *)
Definition ws_close (t : nat) (code : option Z) (reason : option string)
    (st : State) : option State :=
  if match code with Some c => valid_code c | None => true end
  then
    Some (emit (EvClose t code reason)
            (upd_socket t
               (fun s => match readyState s with
                         | Closed => s
                         | _ => with_readyState Closing s
                         end) st))
  else None.

(** A [close] whose exception nothing catches. *)
Definition ws_close_event (t : nat) (e : CloseEvent) (st : State) : State :=
  match ws_close t (Some (ce_code e)) (Some (ce_reason e)) st with
  | Some st' => st'
  | None => emit (EvCloseThrew t (Some (ce_code e))) st
  end.

Definition ws_send (t : nat) (msg : Outgoing) (st : State) : State :=
  emit (EvSend t msg) st.

Definition getConnectionsCount (doc : nat) (st : State) : nat :=
  match heap st !! doc with
  | Some D => length (connections D)
  | None => 0%nat
  end.

Definition debounce_id (d : string) : string := "onStoreDocument-" +:+ d.

(** *** The store pipeline *)

Definition task_name (task : StoreTask) (st : State) : string :=
  match heap st !! task_document task with
  | Some D => name D
  | None => EmptyString
  end.

(** The closure given to [debounce]: it starts the onStoreDocument chain;
    what is attached to that chain is [onStoreDocument_settled]. *)
Definition store (task : StoreTask) (st : State) : State :=
  hooks onStoreDocument (task_socketId task) (task_name task st)
    (KOnStoreDocument task) st.

Definition call (f : option StoreTask) (st : State) : State :=
  match f with
  | Some task => store task st
  | None => st
  end.

Definition debounce (id : string) (func : StoreTask) (immediately : bool)
    (st : State) : State :=
  let '(T, f) :=
    Debounce.debounce debounce_ms maxDebounce (clock st) (clock st) id func
      immediately (tm st) in
  call f (set_tm T st).

(** [this.documents.delete(document.name); document.destroy()] *)
Definition remove_document (doc : nat) (st : State) : State :=
  match heap st !! doc with
  | Some D =>
      emit (EvDestroy doc)
        (upd_document doc
           (fun D => mkDocument (name D) (isLoading D) (connections D) true
                       (onUpdate D))
           (set_documents (Map_delete (name D) (documents st)) st))
  | None => st
  end.

(** [.then(() => this.hooks('afterStoreDocument', ...))] and, after the
    last disconnect, the removal attached to it. *)
Definition afterStore (task : StoreTask) (st : State) : State :=
  hooks afterStoreDocument (task_socketId task) (task_name task st)
    (match task_kind task with
     | LastDisconnect => KAfterStoreDocument task
     | AfterUpdate => KForget
     end) st.

(** [.catch(error => { if (error?.message) throw error }).then(...)] on the
    onStoreDocument chain. *)
Definition onStoreDocument_settled (task : StoreTask) (r : Settled unit)
    (st : State) : State :=
  match r with
  | Fulfilled _ => afterStore task st
  | Rejected error =>
      if has_message error
      then emit (EvUnhandled error) st
      else afterStore task st
  end.

Definition afterStoreDocument_settled (task : StoreTask) (r : Settled unit)
    (st : State) : State :=
  match r with
  | Fulfilled _ =>
      if (0 <? getConnectionsCount (task_document task) st)%nat
      then st
      else remove_document (task_document task) st
  | Rejected error => emit (EvUnhandled error) st
  end.

(** [handleDocumentUpdate(document, connection, update, request)];
    [origin] is the Connection, if any. *)
Definition handleDocumentUpdate (doc : nat) (origin : option nat)
    (st : State) : State :=
  match heap st !! doc with
  | Some D =>
      let socket := origin ≫= (fun c => socketId <$> conns st !! c) in
      let st1 := hooks onChange socket (name D) KForget st in
      match origin with
      | None => st1
      | Some _ =>
          debounce (debounce_id (name D))
            (mkStoreTask AfterUpdate doc socket) false st1
      end
  | None => st
  end.

(** *** Connections *)

(** The close callback registered by [createConnection]: it starts the
    onDisconnect chain. *)
Definition onClose_createConnection (conn : Connection) (st : State) : State :=
  hooks onDisconnect (Some (socketId conn)) (documentName conn)
    (KOnDisconnect (socketId conn) (document conn)) st.

(** What is attached to the onDisconnect chain. *)
Definition onDisconnect_then (t : nat) (doc : nat) (st : State) : State :=
  match heap st !! doc with
  | Some D =>
      if (0 <? length (connections D))%nat then st
      else if negb (isLoading D)
      then debounce (debounce_id (name D))
             (mkStoreTask LastDisconnect doc (Some t)) true st
      else remove_document doc st
  | None => st
  end.

(** The close callback registered by [setUpNewConnection]. *)
Definition onClose_setUpNewConnection (conn : Connection)
    (event : option CloseEvent) (st : State) : State :=
  let t := socketId conn in
  let d := documentName conn in
  let st1 :=
    upd_socket t
      (fun s =>
         with_connectionEstablishing (delete d (connectionEstablishing s))
           (with_incomingMessageQueue (delete d (incomingMessageQueue s))
              (with_documentConnections (delete d (documentConnections s)) s)))
      st in
  match sockets st1 !! t with
  | Some s =>
      if bool_decide (documentConnections s = ∅)
      then
        match ws_close t (ce_code <$> event) (ce_reason <$> event) st1 with
        | Some st2 => st2
        | None => emit (EvCloseThrew t (ce_code <$> event)) st1
        end
      else st1
  | None => st1
  end.

(** Modelled from the spec: [Connection.close(event)] (./Connection is not
    part of the sources).  Sections 4.4 and 4.6.4: closing is idempotent,
    takes the Connection out of its Document's set and then runs the close
    callbacks in the order of their registration.  The socket itself is
    closed by the callback of [setUpNewConnection], and only when no
    document is attached to it any more (section 9). *)
Definition Connection_close (c : nat) (event : option CloseEvent)
    (st : State) : State :=
  match conns st !! c with
  | Some conn =>
      match heap st !! document conn with
      | Some D =>
          if bool_decide (c ∈ connections D)
          then
            let st1 :=
              upd_document (document conn)
                (fun D => mkDocument (name D) (isLoading D)
                            (List.filter (fun c' => negb (Nat.eqb c' c))
                               (connections D))
                            (destroyed D) (onUpdate D)) st in
            let st2 := onClose_createConnection conn st1 in
            if (2 <=? onClose conn)%nat
            then onClose_setUpNewConnection conn event st2
            else st2
          else st
      | None => st
      end
  | None => st
  end.

(** [closeConnections(documentName)] *)
Definition closeConnections (documentName : option string) (st : State)
    : State :=
  fold_left
    (fun st' '(_, doc) =>
       match heap st' !! doc with
       | Some D =>
           if match documentName with
              | Some d => negb (String.eqb d EmptyString) && negb (String.eqb (name D) d)
              | None => false
              end
           then st'
           else
             fold_left
               (fun st'' c => Connection_close c (Some ResetConnection) st'')
               (connections D) st'
       | None => st'
       end)
    (documents st) st.

(** [createConnection(...)]: returns the state and the new Connection. *)
Definition createConnection (t : nat) (doc : nat) (st : State) : State * nat :=
  let c := length (conns st) in
  let d := match heap st !! doc with Some D => name D | None => EmptyString end in
  let st1 :=
    upd_document doc
      (fun D => mkDocument (name D) (isLoading D) (connections D ++ [c])
                  (destroyed D) (onUpdate D))
      (set_conns (conns st ++ [mkConnection t doc d 1]) st) in
  let st2 :=
    match readyState <$> sockets st1 !! t with
    | Some Closing | Some Closed => Connection_close c None st1
    | _ => st1
    end in
  (st2, c).

(** *** The handshake of [handleConnection] *)

(** The [.catch((error = Forbidden) => ...)] attached to the onConnect
    chain. *)
Definition onConnect_catch (t : nat) (error : option Error) (st : State)
    : State :=
  let error := default (as_error Forbidden) error in
  match ws_close t (Some (default (ce_code Forbidden) (code error)))
          (Some (default (ce_reason Forbidden) (reason error))) st with
  | Some st' => st'
  | None =>
      ws_close_event t Unauthorized
        (emit EvConsoleError
           (emit (EvCloseThrew t (Some (default (ce_code Forbidden) (code error)))) st))
  end.

(** The [.catch((error = Forbidden) => ...)] attached to the
    onAuthenticate chain: it sends the denial; the close is in the
    callback of [send]. *)
Definition onAuthenticate_catch (t : nat) (d : string) (error : option Error)
    (st : State) : State :=
  let error := default (as_error Forbidden) error in
  await (KPermissionDenied t error)
    (ws_send t
       (PermissionDenied d (default "permission-denied"%string (reason error)))
       st).

(** The callback given to [incoming.send] by [onAuthenticate_catch]. *)
Definition permissionDenied_sent (t : nat) (error : Error) (st : State)
    : State :=
  match sockets st !! t with
  | Some s =>
      if bool_decide (documentConnections s = ∅)
      then
        match ws_close t (Some (default (ce_code Forbidden) (code error)))
                (Some (default (ce_reason Forbidden) (reason error))) st with
        | Some st' => st'
        | None =>
            ws_close_event t Forbidden
              (emit EvConsoleError
                 (emit (EvCloseThrew t (Some (default (ce_code Forbidden) (code error)))) st))
        end
      else st
  | None => st
  end.

(** A rejection of [setUpNewConnection] reaches the [.catch] of the chain
    that called it. *)
Definition rejected (origin : Origin) (t : nat) (d : string)
    (error : option Error) (st : State) : State :=
  match origin with
  | ViaConnect => onConnect_catch t error st
  | ViaAuthenticate => onAuthenticate_catch t d error st
  end.

(** [createDocument(documentName, ...)] up to its first [await]: either the
    registered Document is returned, or a new one is registered and the
    onLoadDocument chain is started. *)
Definition createDocument (t : nat) (d : string) (origin : Origin)
    (st : State) : State * option nat :=
  match Map_get d (documents st) with
  | Some doc => (st, Some doc)
  | None =>
      let doc := length (heap st) in
      let st1 :=
        set_documents (Map_set d doc (documents st))
          (set_heap (heap st ++ [mkDocument d true [] false false]) st) in
      (hooks onLoadDocument (Some t) d (KOnLoadDocument t d doc origin) st1,
       None)
  end.

(** [createDocument] after [await this.hooks('onLoadDocument', ...)]. *)
Definition onLoadDocument_settled (t : nat) (d : string) (doc : nat)
    (origin : Origin) (r : Settled unit) (st : State) : State :=
  match r with
  | Fulfilled _ =>
      hooks afterLoadDocument (Some t) d (KAfterLoadDocument t d doc origin)
        (upd_document doc
           (fun D => mkDocument (name D) false (connections D) (destroyed D)
                       (onUpdate D)) st)
  | Rejected e =>
      let st1 := closeConnections (Some d) st in
      rejected origin t d e
        (set_documents (Map_delete d (documents st1)) st1)
  end.

(** [createDocument] after [await this.hooks('afterLoadDocument', ...)]:
    the handlers are set and the Document is returned. *)
Definition afterLoadDocument_settled (t : nat) (d : string) (doc : nat)
    (origin : Origin) (r : Settled unit) (st : State) : State :=
  match r with
  | Fulfilled _ =>
      await (KCreateDocument t d doc origin)
        (upd_document doc
           (fun D => mkDocument (name D) (isLoading D) (connections D)
                       (destroyed D) true) st)
  | Rejected e => rejected origin t d e st
  end.

(** [setUpNewConnection(documentName)] up to its [await]. *)
Definition setUpNewConnection (t : nat) (d : string) (origin : Origin)
    (st : State) : State :=
  let st1 := upd_socket t (with_closeIdleConnection false) st in
  match createDocument t d origin st1 with
  | (st2, Some doc) => await (KCreateDocument t d doc origin) st2
  | (st2, None) => st2
  end.

(** This listener handles authentication messages and queues everything
    else. *)
Definition handleQueueingMessage (t : nat) (data : Data) (st : State)
    : State :=
  match sockets st !! t with
  | Some s =>
      match readDocumentName data, readType data with
      | Some d, Some type =>
          if bool_decide (type = Auth)
             && negb (default false (connectionEstablishing s !! d))
          then
            let st1 :=
              upd_socket t
                (fun s => with_connectionEstablishing
                            (<[d := true]> (connectionEstablishing s)) s) st in
            match readToken data with
            | Some token =>
                hooks onAuthenticate (Some t) d (KOnAuthenticate t d) st1
            | None =>
                ws_close_event t Unauthorized (emit EvConsoleError st1)
            end
          else
            match incomingMessageQueue s !! d with
            | Some queue =>
                upd_socket t
                  (fun s => with_incomingMessageQueue
                              (<[d := queue ++ [data]]> (incomingMessageQueue s)) s)
                  st
            | None => ws_close_event t Unauthorized (emit EvConsoleError st)
            end
      | _, _ => ws_close_event t Unauthorized (emit EvConsoleError st)
      end
  | None => st
  end.

Definition messageHandler (t : nat) (data : Data) (st : State) : State :=
  match sockets st !! t with
  | Some s =>
      match readDocumentName data with
      | Some d =>
          if bool_decide (documentConnections s !! d = Some true) then st
          else
            let st1 :=
              match incomingMessageQueue s !! d with
              | None =>
                  hooks onConnect (Some t) d (KOnConnect t d)
                    (upd_socket t
                       (fun s => with_incomingMessageQueue
                                   (<[d := []]> (incomingMessageQueue s)) s)
                       st)
              | Some _ => st
              end in
            handleQueueingMessage t data st1
      | None => ws_close_event t Unauthorized (emit EvConsoleError st)
      end
  | None => st
  end.

(** Modelled from the spec: the message listener of a Connection
    (./Connection is not part of the sources).  Section 3: a Connection
    never takes messages routed to another document name; it takes the
    others as long as it is attached. *)
Definition Connection_handleMessage (t : nat) (data : Data) (st : State)
    (c : nat) (conn : Connection) : list Event :=
  if Nat.eqb (socketId conn) t
     && bool_decide (readDocumentName data = Some (documentName conn))
     && bool_decide (c ∈ default [] (connections <$> heap st !! document conn))
  then [EvDeliver t (documentName conn) data]
  else [].

(** A message event on the socket [t]: the listener of [handleConnection]
    runs first, then the listeners of the Connections. *)
Definition emit_message (t : nat) (data : Data) (st : State) : State :=
  let st1 := messageHandler t data st in
  set_trace
    (trace st1
       ++ concat (imap (Connection_handleMessage t data st1) (conns st1)))
    st1.

(** [setUpNewConnection] after [await this.createDocument(...)]. *)
Definition attach (t : nat) (d : string) (doc : nat) (origin : Origin)
    (st : State) : State :=
  let '(st1, c) := createConnection t doc st in
  let st2 :=
    match conns st1 !! c with
    | Some conn =>
        set_conns
          (<[c := mkConnection (socketId conn) (document conn)
                    (documentName conn) (S (onClose conn))]> (conns st1))
          st1
    | None => st1
    end in
  let st3 :=
    upd_socket t
      (fun s => with_documentConnections
                  (<[d := true]> (documentConnections s)) s) st2 in
  match sockets st3 !! t ≫= (fun s => incomingMessageQueue s !! d) with
  | Some queue =>
      hooks connected (Some t) d KForget
        (fold_left (fun st' input => emit_message t input st') queue st3)
  | None =>
      rejected origin t d
        (Some (mkError None None (Some "incomingMessageQueue[documentName] is undefined"%string)))
        st3
  end.

(** What is attached to the onConnect chain. *)
Definition onConnect_settled (t : nat) (d : string) (r : Settled unit)
    (st : State) : State :=
  match r with
  | Fulfilled _ =>
      match sockets st !! t with
      | Some s =>
          if requiresAuthentication (connection s)
             || default false (connectionEstablishing s !! d)
          then st
          else
            setUpNewConnection t d ViaConnect
              (upd_socket t
                 (fun s => with_connectionEstablishing
                             (<[d := true]> (connectionEstablishing s)) s) st)
      | None => st
      end
  | Rejected e => onConnect_catch t e st
  end.

(** What is attached to the onAuthenticate chain. *)
Definition onAuthenticate_settled (t : nat) (d : string) (r : Settled unit)
    (st : State) : State :=
  match r with
  | Fulfilled _ =>
      setUpNewConnection t d ViaAuthenticate
        (ws_send t (Authenticated d)
           (upd_socket t
              (fun s => with_connection
                          (mkConnectionConfiguration (readOnly (connection s))
                             (requiresAuthentication (connection s)) true) s)
              st))
  | Rejected e => onAuthenticate_catch t d e st
  end.

Definition handleConnection (t : nat) (st : State) : State :=
  match sockets st !! t with
  | Some _ => st
  | None =>
      set_sockets
        (<[t := mkSocket
                  (mkConnectionConfiguration false
                     (Hocuspocus_requiresAuthentication extensions) false)
                  ∅ ∅ ∅ true Open]> (sockets st)) st
  end.

(** *** The event loop *)

Inductive Input : Set :=
  | Connect (t : nat)
      (* a socket is accepted: [handleConnection] *)
  | Receive (t : nat) (data : Data)
      (* a message event *)
  | Settle (p : nat) (r : Settled unit)
      (* a pending chain settles *)
  | Mutate (t : nat) (configuration : ConnectionConfiguration)
      (* a hook writes to the [connection] object of its payload *)
  | Elapse (now : Z)
      (* time passes *)
  | Fire (h : nat)
      (* a timeout of [debounce] is due *)
  | Idle (t : nat)
      (* the timeout [closeIdleConnection] is due *)
  | SocketClosed (t : nat) (event : option CloseEvent)
      (* the close event of a socket *)
  | Update (doc : nat) (origin : option nat)
      (* a Document emits an update *)
  | CloseConnections (documentName : option string).
      (* somebody calls [closeConnections] *)

Definition settle (k : Kont) (r : Settled unit) (st : State) : State :=
  match k with
  | KOnConnect t d => onConnect_settled t d r st
  | KOnAuthenticate t d => onAuthenticate_settled t d r st
  | KPermissionDenied t error => permissionDenied_sent t error st
  | KOnLoadDocument t d doc origin => onLoadDocument_settled t d doc origin r st
  | KAfterLoadDocument t d doc origin =>
      afterLoadDocument_settled t d doc origin r st
  | KCreateDocument t d doc origin => attach t d doc origin st
  | KOnDisconnect t doc =>
      match r with
      | Fulfilled _ => onDisconnect_then t doc st
      | Rejected e => emit (EvUnhandled e) st
      end
  | KOnStoreDocument task => onStoreDocument_settled task r st
  | KAfterStoreDocument task => afterStoreDocument_settled task r st
  | KForget =>
      match r with
      | Fulfilled _ => st
      | Rejected e => emit (EvUnhandled e) st
      end
  end.

(** A promise that is already resolved cannot reject. *)
Definition can_settle (k : Kont) (r : Settled unit) : bool :=
  match k, r with
  | KCreateDocument _ _ _ _, Rejected _ => false
  | _, _ => true
  end.

Definition step (st : State) (i : Input) : State :=
  match i with
  | Connect t => handleConnection t st
  | Receive t data => emit_message t data st
  | Settle p r =>
      match promises st !! p with
      | Some k =>
          if can_settle k r
          then settle k r
                 (set_promises (delete p (promises st)) (next_promise st) st)
          else st
      | None => st
      end
  | Mutate t configuration => upd_socket t (with_connection configuration) st
  | Elapse now => set_clock (Z.max now (clock st)) st
  | Fire h =>
      let '(T, f) := Debounce.fire h (tm st) in
      call f (set_tm T st)
  | Idle t =>
      match sockets st !! t with
      | Some s =>
          if closeIdleConnection s
          then ws_close_event t Unauthorized
                 (upd_socket t (with_closeIdleConnection false) st)
          else st
      | None => st
      end
  | SocketClosed t event =>
      fold_left
        (fun st' c =>
           match conns st' !! c with
           | Some conn =>
               if Nat.eqb (socketId conn) t
               then Connection_close c event st'
               else st'
           | None => st'
           end)
        (seq 0 (length (conns st)))
        (upd_socket t (with_readyState Closed) st)
  | Update doc origin =>
      match heap st !! doc with
      | Some D => if onUpdate D then handleDocumentUpdate doc origin st else st
      | None => st
      end
  | CloseConnections documentName => closeConnections documentName st
  end.

Definition run (inputs : list Input) (st : State) : State :=
  fold_left step inputs st.

End Kernel.

(** *** Properties of states and traces *)

(** The registry holds at most one Document per name, and a registered
    Document is the one that carries the name. *)
Definition registry_ok (st : State) : Prop :=
  NoDup (documents st).*1
  /\ forall d doc,
       (d, doc) ∈ documents st -> name <$> heap st !! doc = Some d.

(** A property of the registry alone. *)
Definition on_documents (Q : list (string * nat) -> Prop) (st : State) : Prop :=
  Q (documents st).

(** The onAuthenticate chain of the socket [t] for the document name [d]
    has been fulfilled: this is when, and only when, the kernel sends
    [Authenticated]. *)
Definition authenticated (t : nat) (d : string) (tr : list Event) : Prop :=
  EvSend t (Authenticated d) ∈ tr.

(** Every message that a Connection of the socket [t] took was preceded by
    the authentication of [t] for that document name. *)
Definition delivered_after_authenticated (t : nat) (tr : list Event) : Prop :=
  forall pre post d data,
    tr = pre ++ EvDeliver t d data :: post -> authenticated t d pre.

(** The continuations that lead to a Connection: the socket, the document
    name and the Document they carry. *)
Definition setup_of (k : Kont) : option (nat * string * nat) :=
  match k with
  | KOnLoadDocument t d doc _
  | KAfterLoadDocument t d doc _
  | KCreateDocument t d doc _ => Some (t, d, doc)
  | _ => None
  end.

Definition is_deliver (e : Event) : bool :=
  match e with EvDeliver _ _ _ => true | _ => false end.

(** What holds of a socket [t0] on which authentication stays required:
    whatever leads to a Connection of [t0], and every Connection of [t0],
    comes after the authentication for its document name. *)
Definition authentication_ok (t0 : nat) (st : State) : Prop :=
  (forall s, sockets st !! t0 = Some s ->
             requiresAuthentication (connection s) = true)
  /\ (forall p k t d doc,
        promises st !! p = Some k ->
        setup_of k = Some (t, d, doc) ->
        name <$> heap st !! doc = Some d
        /\ (t = t0 -> authenticated t0 d (trace st)))
  /\ (forall c conn,
        conns st !! c = Some conn ->
        socketId conn = t0 ->
        authenticated t0 (documentName conn) (trace st))
  /\ delivered_after_authenticated t0 (trace st).

Definition is_authenticated_send (e : Event) : bool :=
  match e with EvSend _ (Authenticated _) => true | _ => false end.

(** The trace of [st] continues [tr0] without a new [Authenticated]. *)
Definition extends (tr0 : list Event) (st : State) : Prop :=
  exists evs,
    trace st = tr0 ++ evs
    /\ Forall (fun e => is_authenticated_send e = false) evs.

(** The input settles the onAuthenticate chain of a socket for a document
    name as fulfilled. *)
Definition fulfils_authentication (st : State) (i : Input)
    : option (nat * string) :=
  match i with
  | Settle p (Fulfilled _) =>
      match promises st !! p with
      | Some (KOnAuthenticate t d) => Some (t, d)
      | _ => None
      end
  | _ => None
  end.

(** No hook switches off [requiresAuthentication] of the socket [t] during
    the run. *)
Definition keeps_authentication (t : nat) (inputs : list Input) : Prop :=
  forall configuration,
    Mutate t configuration ∈ inputs ->
    requiresAuthentication configuration = true.

(** How often [this.hooks(hook, ...)] was called for the socket [t] and the
    document name [d]. *)
Definition count_hook (hook : HookName) (t : nat) (d : string)
    (tr : list Event) : nat :=
  length (List.filter (fun e => bool_decide (e = EvHook hook (Some t) d)) tr).

(** [connectionEstablishing[d]] of the socket [t], read as a condition. *)
Definition establishing (t : nat) (d : string) (st : State) : bool :=
  default false (sockets st !! t ≫= fun s => connectionEstablishing s !! d).

(** How many onAuthenticate chains the socket [t] may still start for [d]
    without exceeding one per closed Connection plus the one of the
    establishment in progress. *)
Definition slack (t : nat) (d : string) (st : State) : Z :=
  Z.of_nat (count_hook onDisconnect t d (trace st))
  + (if establishing t d st then 1 else 0)
  - Z.of_nat (count_hook onAuthenticate t d (trace st)).

Definition grows (st0 st : State) : Prop :=
  forall t d, slack t d st0 <= slack t d st.

Definition is_authenticate (e : Event) : bool :=
  match e with EvHook onAuthenticate _ _ => true | _ => false end.

End Kernel.


(** * More of the server: configuration, start-up, pending timers,
      failures of the handshake and the life of a Document *)

(** ** Request parameters *)

Module Parameters.
Import Strings.Ascii.

(** [String.prototype.split] with a separator of one character: the first
    piece and the pieces after it. *)
Fixpoint split_pieces (separator : ascii) (s : string) : string * list string :=
  match s with
  | EmptyString => (EmptyString, [])
  | String c s' =>
      let '(piece, pieces) := split_pieces separator s' in
      if Ascii.eqb c separator then (EmptyString, piece :: pieces)
      else (String c piece, pieces)
  end.

Definition split (separator : ascii) (s : string) : list string :=
  let '(piece, pieces) := split_pieces separator s in piece :: pieces.

(** What [getParameters] reads of an [IncomingMessage]. *)
Record IncomingMessage : Set := mkIncomingMessage {
  url : option string
}.

(** [getParameters(request)]: the string that is handed to the constructor
    of [URLSearchParams], which belongs to the runtime. *)
Definition getParameters (request : option IncomingMessage) : string :=
  let query := default [] (split "?" <$> (request ≫= url)) in
  match query !! 1%nat with
  | Some q => if String.eqb q EmptyString then EmptyString else q
  | None => EmptyString
  end.

(** The character [c] occurs in [s]. *)
Fixpoint occurs (c : ascii) (s : string) : bool :=
  match s with
  | EmptyString => false
  | String c' s' => Ascii.eqb c' c || occurs c s'
  end.

End Parameters.

(** ** The configuration *)

Module Configure.
Section Configure.
Context {H : Type}.

(** [Configuration] of ./types, as far as the class reads it
    ([yDocOptions] is only handed on to ./Document).  [hook] holds the
    hooks that are given in the configuration itself. *)
Record Configuration : Type := mkConfiguration {
  name : option string;
  port : Z;
  address : string;
  timeout : Z;
  debounce : Z;
  maxDebounce : Z;
  quiet : bool;
  extensions : list (Extension H);
  hook : HookName -> option H
}.

(** [Partial<Configuration>]: [None] for a key that is not given. *)
Record Partial : Type := mkPartial {
  p_name : option (option string);
  p_port : option Z;
  p_address : option string;
  p_timeout : option Z;
  p_debounce : option Z;
  p_maxDebounce : option Z;
  p_quiet : option bool;
  p_extensions : option (list (Extension H));
  p_hook : HookName -> option H
}.

(** The initial value of the field [configuration]; [noop] is
    [() => new Promise(r => r(null))]. *)
Definition initial (noop : H) : Configuration :=
  mkConfiguration None 80 "0.0.0.0" 30000 2000 10000 false []
    (fun n =>
       match n with
       | onAuthenticate | afterLoadDocument => None
       | _ => Some noop
       end).

(** [{ ...this.configuration, ...configuration }] *)
Definition merge (c : Configuration) (p : Partial) : Configuration :=
  mkConfiguration
    (default (name c) (p_name p))
    (default (port c) (p_port p))
    (default (address c) (p_address p))
    (default (timeout c) (p_timeout p))
    (default (debounce c) (p_debounce p))
    (default (maxDebounce c) (p_maxDebounce p))
    (default (quiet c) (p_quiet p))
    (default (extensions c) (p_extensions p))
    (fun n => match p_hook p n with
              | Some h => Some h
              | None => hook c n
              end).

(** The comparison given to [sort]. *)
Definition compare (a b : Extension H) : Z :=
  let one := default 100 (priority a) in
  let two := default 100 (priority b) in
  if one >? two then -1
  else if one <? two then 1
  else 0.

(** [Array.prototype.sort(compare)].  The sort is stable, which fixes its
    result for a comparison like the one above; the result is computed
    here by insertion. *)
Fixpoint insert {A} (compare : A -> A -> Z) (x : A) (l : list A) : list A :=
  match l with
  | [] => [x]
  | y :: l' =>
      if compare x y <=? 0 then x :: y :: l' else y :: insert compare x l'
  end.

Definition sort {A} (compare : A -> A -> Z) (l : list A) : list A :=
  foldr (insert compare) [] l.

(** The hooks that [configure] copies into the extension it appends. *)
Definition copied (n : HookName) : bool :=
  match n with
  | afterLoadDocument => false
  | _ => true
  end.

(** The extension that [configure] pushes: the hooks of the configuration
    itself. *)
Definition own (c : Configuration) : Extension H :=
  mkExtension "configuration" None
    (fun n => if copied n then hook c n else None).

(** [configure(configuration)]: the configuration it leaves.  The
    onConfigure chain that it starts runs over [extensions] of the
    result. *)
Definition configure (p : Partial) (c : Configuration) : Configuration :=
  let c := merge c p in
  mkConfiguration (name c) (port c) (address c) (timeout c) (debounce c)
    (maxDebounce c) (quiet c)
    (sort compare (extensions c) ++ [own c])
    (hook c).

(** [new Hocuspocus(configuration)] *)
Definition constructor (noop : H) (configuration : option Partial)
    : Configuration :=
  match configuration with
  | Some p => configure p (initial noop)
  | None => initial noop
  end.

(** *** Starting the server *)

(** An argument of [listen], by its [typeof]. *)
Inductive Argument : Type :=
  | Number (n : Z)
  | Function (f : H)
  | Other.

Definition push (e : Extension H) (c : Configuration) : Configuration :=
  mkConfiguration (name c) (port c) (address c) (timeout c) (debounce c)
    (maxDebounce c) (quiet c) (extensions c ++ [e]) (hook c).

(** [{ onListen: callback }] *)
Definition onListen_only (f : H) : Extension H :=
  mkExtension "listen" None
    (fun n => match n with onListen => Some f | _ => None end).

(** [listen(portOrCallback, callback)] up to the creation of the
    servers. *)
Definition listen_arguments (portOrCallback callback : Argument)
    (c : Configuration) : Configuration :=
  let c1 :=
    match portOrCallback with
    | Number n =>
        mkConfiguration (name c) n (address c) (timeout c) (debounce c)
          (maxDebounce c) (quiet c) (extensions c) (hook c)
    | _ => c
    end in
  let c2 :=
    match portOrCallback with
    | Function f => push (onListen_only f) c1
    | _ => c1
    end in
  match callback with
  | Function f => push (onListen_only f) c2
  | _ => c2
  end.

(** What the properties of [configure] are stated with: the priority an
    extension is sorted by. *)
Definition priority_of (e : Extension H) : Z := default 100 (priority e).

(** The extensions before any place have at least the priority of those
    after it. *)
Fixpoint descending (l : list (Extension H)) : Prop :=
  match l with
  | [] => True
  | x :: l' =>
      Forall (fun y => priority_of y <= priority_of x) l' /\ descending l'
  end.

End Configure.
Arguments Configuration : clear implicits.
Arguments Partial : clear implicits.
Arguments Argument : clear implicits.
End Configure.

(** ** The servers started by [listen] *)

Module Listen.
Import Hooks.
Section Listen.
Context {W P V : Type}.
Variable extensions : list (Extension (@Handler W P V)).

(** The [.catch] of both listeners: an empty rejection only stops the
    later hooks and the default; another one is thrown again. *)
Definition rethrow_if_present (error : option Error) : @Promise W unit :=
  fun s =>
    match error with
    | Some _ => (Rejected error, s)
    | None => (Fulfilled tt, s)
    end.

(** The request listener given to [createServer]; [respond] is
    [response.writeHead(200, ...); response.end('OK')]. *)
Definition request_listener (payload : P) (respond : W -> W)
    : @Promise W unit :=
  catch_
    (then_ (hooks extensions onRequest payload None)
       (fun _ s => (Fulfilled tt, mkSt (respond (world s)) (log s))))
    rethrow_if_present.

(** The listener of the upgrade event; [handleUpgrade] is
    [webSocketServer.handleUpgrade(request, socket, head, ...)]. *)
Definition upgrade_listener (payload : P) (handleUpgrade : W -> W)
    : @Promise W unit :=
  catch_
    (then_ (hooks extensions onUpgrade payload None)
       (fun _ s => (Fulfilled tt, mkSt (handleUpgrade (world s)) (log s))))
    rethrow_if_present.

(** What a rejected chain adds to the log when [n] more links follow:
    every link has the [.catch] that logs the message. *)
Definition console_errors (name : HookName) (error : option Error) (n : nat)
    (s : @St W) : @St W :=
  if has_message error
  then mkSt (world s)
         (log s ++ repeat (ConsoleError name
                             (default EmptyString (error ≫= message))) n)
  else s.

End Listen.
End Listen.

(** ** The start screen *)

Module StartScreen.
Import Configure.
Section StartScreen.
Context {H : Type}.
(** [kleur.cyan], [kleur.green], [meta.version], the name of the
    constructor of an extension ([None] when there is none; [filter]
    drops it like the empty name), and how a port number is printed. *)
Variables cyan green : string -> string.
Variable version : string.
Variable constructor_name : Extension H -> option string.
Variable port_to_string : Z -> string.

(** The getter [address]; [bound] is what [httpServer.address()] gives
    while the server listens. *)
Definition Hocuspocus_address (c : Configuration H) (bound : option (Z * string))
    : Z * string :=
  match bound with
  | Some a => a
  | None => (port c, address c)
  end.

Definition URL (c : Configuration H) (bound : option (Z * string)) : string :=
  address c +:+ ":" +:+ port_to_string (Hocuspocus_address c bound).1.

Definition webSocketURL (c : Configuration H) (bound : option (Z * string))
    : string :=
  "ws://" +:+ URL c bound.

Definition httpURL (c : Configuration H) (bound : option (Z * string))
    : string :=
  "http://" +:+ URL c bound.

(** [showStartScreen()]: the lines written with [console.log]. *)
Definition showStartScreen (c : Configuration H) (bound : option (Z * string))
    : list string :=
  let name :=
    match name c with
    | Some n => if String.eqb n EmptyString then EmptyString
                else " (" +:+ n +:+ ")"
    | None => EmptyString
    end in
  let head :=
    [EmptyString;
     "  " +:+ cyan ("Hocuspocus v" +:+ version +:+ name)
       +:+ green " running at:";
     EmptyString;
     "  > HTTP: " +:+ cyan (httpURL c bound);
     "  > WebSocket: " +:+ webSocketURL c bound] in
  let extensions :=
    List.filter (fun name => negb (String.eqb name "Object"))
      (List.filter (fun name => negb (String.eqb name EmptyString))
         (map (fun extension => default EmptyString (constructor_name extension))
            (extensions c))) in
  if (length extensions =? 0)%nat then head
  else
    head
    ++ [EmptyString; "  Extensions:"]
    ++ map (fun name => "  - " +:+ name) extensions
    ++ [EmptyString; "  " +:+ green "Ready."; EmptyString].

End StartScreen.
End StartScreen.

(** ** What is pending in the debouncer *)

Module Pending.
Import Debounce.
Section Pending.
Context {F : Type}.

(** Every timeout that the runtime holds is the one that [this.timers]
    records for its id, and its handle has been given out. *)
Definition recorded (T : Timers F) : Prop :=
  forall h t,
    armed T !! h = Some t ->
    (h < next_handle T)%nat
    /\ exists e, timers T !! run_id t = Some e /\ timeout e = h.

(** Nothing is pending for [id]: neither an entry nor a timeout. *)
Definition idle (id : string) (T : Timers F) : Prop :=
  timers T !! id = None
  /\ forall h t, armed T !! h = Some t -> run_id t <> id.

(** A series of calls for one id, none of them immediate, each with the
    two readings of the clock and the function. *)
Definition burst (id : string) (l : list (Z * Z * F)) : list (Call F) :=
  map (fun '(now, later, func) => Debounced now later id func false) l.

End Pending.
End Pending.

(** ** Rejections during the handshake *)

Module Handshake.
Import Kernel.

(** The chains whose rejection reaches the [.catch] of the onAuthenticate
    chain: that chain itself, and what [setUpNewConnection] awaits when it
    was called from there. *)
Definition denies (k : Kont) : option (nat * string) :=
  match k with
  | KOnAuthenticate t d
  | KOnLoadDocument t d _ ViaAuthenticate
  | KAfterLoadDocument t d _ ViaAuthenticate => Some (t, d)
  | _ => None
  end.

(** The chains whose rejection reaches the [.catch] of the onConnect
    chain. *)
Definition refuses (k : Kont) : option nat :=
  match k with
  | KOnConnect t _
  | KOnLoadDocument t _ _ ViaConnect
  | KAfterLoadDocument t _ _ ViaConnect => Some t
  | _ => None
  end.

(** A message that the listeners of [handleConnection] cannot decode, on a
    socket in the state [s]: the document name cannot be read; or the name
    is not attached and the type cannot be read; or the message is the Auth
    message a not yet establishing name waits for, and its token cannot be
    read. *)
Definition undecodable (s : Socket) (data : Data) : Prop :=
  match data with
  | Garbage _ => True
  | NameOnly d => documentConnections s !! d <> Some true
  | Message d type token _ =>
      documentConnections s !! d <> Some true
      /\ type = Auth
      /\ default false (connectionEstablishing s !! d) = false
      /\ token = None
  end.

End Handshake.

(** ** The life of a Document *)

Module Lifecycle.
Import Kernel.

(** Every registered Document has not been destroyed. *)
Definition registered_alive (st : State) : Prop :=
  forall d doc,
    (d, doc) ∈ documents st -> destroyed <$> heap st !! doc = Some false.

(** The registry is in order and holds live Documents only. *)
Definition alive (st : State) : Prop :=
  registry_ok st /\ registered_alive st.

(** What has to hold of the Document a continuation works on when the
    continuation is suspended: the one that follows onLoadDocument needs
    the Document, the one that follows afterLoadDocument a loaded one. *)
Definition needs (k : Kont) (st : State) : Prop :=
  match k with
  | KOnLoadDocument _ _ doc _ => is_Some (heap st !! doc)
  | KAfterLoadDocument _ _ doc _ =>
      exists D, heap st !! doc = Some D /\ isLoading D = false
  | _ => True
  end.

(** The update handler of a Document is set only once the Document has
    loaded, and every suspended continuation has what it needs. *)
Definition loaded_before_wired (st : State) : Prop :=
  (forall doc D,
      heap st !! doc = Some D -> onUpdate D = true -> isLoading D = false)
  /\ (forall p k, promises st !! p = Some k -> needs k st).

Definition is_destroy (doc : nat) (e : Event) : bool :=
  match e with EvDestroy doc' => Nat.eqb doc' doc | _ => false end.

(** The trace of [st] continues [tr0] without [destroy()] of [doc]. *)
Definition spares (doc : nat) (tr0 : list Event) (st : State) : Prop :=
  exists evs,
    trace st = tr0 ++ evs /\ Forall (fun e => is_destroy doc e = false) evs.

(** [doc] is destroyed and has no Connection. *)
Definition gone (doc : nat) (st : State) : Prop :=
  exists D,
    heap st !! doc = Some D /\ connections D = [] /\ destroyed D = true.

(** What a step can do about [doc]: leave it alone, or destroy it when it
    has no Connection. *)
Definition spared_or_gone (doc : nat) (tr0 : list Event) (st : State) : Prop :=
  spares doc tr0 st \/ gone doc st.

(** The idle timeout of the socket [t] has been cleared. *)
Definition idle_cleared (t : nat) (st : State) : Prop :=
  closeIdleConnection <$> sockets st !! t = Some false.

End Lifecycle.

(** * The monitor dashboard: packages/monitor/src/Dashboard.ts *)

Module Dashboard.
Import Strings.Ascii.

(** [String.prototype.replace] with a string as pattern: the first
    occurrence is replaced. *)
Fixpoint drop (n : nat) (s : string) : string :=
  match n, s with
  | S n', String _ s' => drop n' s'
  | _, _ => s
  end.

Fixpoint replace (pattern replacement s : string) : string :=
  if String.prefix pattern s
  then replacement +:+ drop (String.length pattern) s
  else match s with
       | EmptyString => EmptyString
       | String c s' => String c (replace pattern replacement s')
       end.

(** [request.url?.split('/')[1] === path] *)
Definition on_path (path : string) (url : option string) : bool :=
  match url with
  | Some u => bool_decide (Parameters.split "/" u !! 1%nat = Some path)
  | None => false
  end.

(** [handleRequest(request, response)]: what it returns, the URL it leaves
    in the request, and whether the request was handed to the static file
    server. *)
Definition handleRequest (path : string) (url : option string)
    : bool * option string * bool :=
  if on_path path url
  then (true, replace path EmptyString <$> url, true)
  else (false, url, false).

(** The request listener of [createServer]: the status it answers with
    itself. *)
Definition request_listener (path : string) (url : option string) : option Z :=
  if (handleRequest path url).1.1 then None else Some 404.

(** The sockets of the dashboard.  [connections] holds the keys of the Map
    in the order of their insertion; [actions] records what is done to the
    sockets. *)
Inductive Action : Set :=
  | Sent (connection : nat) (message : string)
  | Closed (connection : nat).

Record State : Set := mkState {
  connections : list nat;
  actions : list Action
}.

(** [this.connections.set(connection, {})] *)
Definition Map_set (connection : nat) (m : list nat) : list nat :=
  if bool_decide (connection ∈ m) then m else m ++ [connection].

(** [handleConnection(connection, request)] without a storage. *)
Definition handleConnection (connection : nat) (st : State) : State :=
  mkState (Map_set connection (connections st)) (actions st).

(** [close(connection)] *)
Definition close (connection : nat) (st : State) : State :=
  mkState
    (List.filter (fun c => negb (Nat.eqb c connection)) (connections st))
    (actions st ++ [Closed connection]).

Section Send.
(** What the sockets are like when [send] runs: their [readyState], and
    whether their [send] throws. *)
Variable readyState : nat -> Z.
Variable throws : nat -> bool.

(** One round of the [forEach] in [send]. *)
Definition send_to (message : string) (st : State) (connection : nat) : State :=
  if (readyState connection =? 2) || (readyState connection =? 3) then st
  else if throws connection then close connection st
  else mkState (connections st) (actions st ++ [Sent connection message]).

(** [send(message)] *)
Definition send (message : string) (st : State) : State :=
  fold_left (send_to message) (connections st) st.

(** What [send] does about one socket. *)
Definition outcome (message : string) (connection : nat) : list Action :=
  if (readyState connection =? 2) || (readyState connection =? 3) then []
  else if throws connection then [Closed connection]
  else [Sent connection message].

Definition kept (connection : nat) : bool :=
  (readyState connection =? 2) || (readyState connection =? 3)
  || negb (throws connection).
End Send.

End Dashboard.


(** ** Concrete configurations used by the examples *)

(** A chain of four extensions of which the third rejects. *)
Module HooksExample.
Import Hooks.

Definition denied : Error := mkError (Some 4401) (Some "no"%string) None.

Definition writes (text : string) (r : Settled nat)
    : @Handler (list string) unit nat :=
  fun _ w => (r, w ++ [text]).

Definition only (label : string) (name : HookName)
    (h : @Handler (list string) unit nat)
    : Extension (@Handler (list string) unit nat) :=
  mkExtension label None (fun n => if decide (n = name) then Some h else None).

Definition first := only "first" onAuthenticate (writes "first" (Fulfilled 1%nat)).
Definition other := only "other" onConnect (writes "other" (Fulfilled 2%nat)).
Definition second := only "second" onAuthenticate (writes "second" (Rejected (Some denied))).
Definition third := only "third" onAuthenticate (writes "third" (Fulfilled 3%nat)).

Definition merge : @Callback (list string) nat :=
  fun _ w => (Fulfilled tt, w ++ ["merge"%string]).

End HooksExample.


(** A server with the close events as @hocuspocus/common publishes them and
    a socket that accepts the codes 1000 to 4999. *)
Module Scenario.
Import Kernel.

Definition ResetConnection : CloseEvent := mkCloseEvent 4205 "Reset Connection".
Definition Unauthorized : CloseEvent := mkCloseEvent 4401 "Unauthorized".
Definition Forbidden : CloseEvent := mkCloseEvent 4403 "Forbidden".

Definition valid_code (c : Z) : bool := (1000 <=? c) && (c <=? 4999).

(** No extension defines a hook. *)
Definition plain : list (Extension unit) := [].

(** One extension defines onAuthenticate. *)
Definition guarded : list (Extension unit) :=
  [mkExtension "guard" None
     (fun n => if decide (n = onAuthenticate) then Some tt else None)].

Definition run (extensions : list (Extension unit)) : list Input -> State -> State :=
  Kernel.run extensions 2000 10000 valid_code ResetConnection Unauthorized
    Forbidden.

Definition yes : Settled unit := Fulfilled tt.

Definition sync (d : string) : Data := Message d Sync None [0%N].
Definition auth (d : string) : Data := Message d Auth (Some "token"%string) [].

(** Socket 0 starts loading "d"; socket 1 attaches to the Document that is
    still loading, and closes. *)
Definition closes_while_loading : list Input :=
  [Connect 0; Receive 0 (sync "d"); Settle 0 yes;
   Connect 1; Receive 1 (sync "d"); Settle 2 yes; Settle 3 yes;
   SocketClosed 1 None].

(** Then the load finishes, and after it the onDisconnect chain. *)
Definition load_then_disconnect : list Input :=
  [Settle 1 yes; Settle 5 yes].

(** An onConnect hook switches off [requiresAuthentication] of the socket;
    the queued Sync message reaches the Connection. *)
Definition authentication_switched_off : list Input :=
  [Connect 0; Receive 0 (sync "d");
   Mutate 0 (mkConnectionConfiguration false false false);
   Settle 0 yes; Settle 1 yes; Settle 2 yes; Settle 3 yes].

(** Socket 0 authenticates for "a" and for "b"; the server closes the
    Connections of "b"; the client authenticates for "b" again. *)
Definition authenticates_again : list Input :=
  [Connect 0;
   Receive 0 (auth "a"); Settle 1 yes; Settle 2 yes; Settle 3 yes; Settle 4 yes;
   Receive 0 (auth "b"); Settle 7 yes; Settle 8 yes; Settle 9 yes; Settle 10 yes;
   CloseConnections (Some "b"%string);
   Receive 0 (auth "b")].

(** A hook rejects with a close code the socket does not accept. *)
Definition bad_code : Error := mkError (Some 5000) (Some "nope"%string) None.

Definition onConnect_rejects : list Input :=
  [Connect 0; Receive 0 (sync "d"); Settle 0 (Rejected (Some bad_code))].

Definition onAuthenticate_rejects : list Input :=
  [Connect 0; Receive 0 (auth "d"); Settle 1 (Rejected (Some bad_code));
   Settle 2 yes].

(** Socket 0 is attached to "d" and has sent an update. *)
Definition attached_and_updated : list Input :=
  [Connect 0; Receive 0 (sync "d"); Settle 0 yes; Settle 1 yes; Settle 2 yes;
   Settle 3 yes; Update 0 (Some 0%nat)].

(** Socket 0 sends a Sync message and authenticates; an onConnect hook
    makes the socket read-only; the Connection takes the queued message. *)
Definition authenticated_delivery : list Input :=
  [Connect 0; Receive 0 (sync "a"); Receive 0 (auth "a");
   Mutate 0 (mkConnectionConfiguration true true false);
   Settle 0 yes; Settle 1 yes; Settle 2 yes; Settle 3 yes; Settle 4 yes;
   Receive 0 (sync "a")].

(** Socket 0 is attached to "d". *)
Definition attached : list Input :=
  [Connect 0; Receive 0 (sync "d"); Settle 0 yes; Settle 1 yes; Settle 2 yes;
   Settle 3 yes].

(** Socket 0 has started to load "d" and socket 1 is accepted. *)
Definition loading : list Input :=
  [Connect 0; Receive 0 (sync "d"); Settle 0 yes; Connect 1].

(** One call of [debounce] at the time 1000. *)
Definition one_call : list (Debounce.Call unit) :=
  [Debounce.Debounced 1000 1000 "onStoreDocument-d" tt false].

Definition pending : Debounce.Timers unit := Debounce.after 2000 10000 one_call.

End Scenario.


(** * Properties *)

(** ** The hook pipeline *)

Module HooksFacts.
Import Hooks.
Section HooksFacts.
Context {W P V : Type}.
Abbreviation Handler := (@Handler W P V).
Abbreviation Callback := (@Callback W V).
Abbreviation St := (@St W).
Abbreviation Promise := (@Promise W).

Variable name : HookName.
Variable payload : P.
Variable callback : option Callback.

Abbreviation chain := (fold_left (link name payload callback)).

Lemma calls_app (l1 l2 : list LogEntry) : calls (l1 ++ l2) = calls l1 ++ calls l2.
Proof. unfold calls. apply List.filter_app. Qed.

Lemma filter_defines_idem (extensions : list (Extension Handler)) :
  List.filter (defines name) (List.filter (defines name) extensions)
  = List.filter (defines name) extensions.
Proof.
  induction extensions as [|e l IH]; simpl; [done|].
  destruct (defines name e) eqn:E; simpl; rewrite ?E, IH; done.
Qed.

(** Once a chain is rejected, the links added to it run nothing. *)
Lemma chain_rejected (hs : list (Extension Handler)) :
  forall (init : Promise (option V)) s e s1,
    init s = (Rejected e, s1) ->
    exists s2,
      chain hs init s = (Rejected e, s2)
      /\ world s2 = world s1 /\ calls (log s2) = calls (log s1).
Proof.
  induction hs as [|h hs IH]; intros init s e s1 Hinit; simpl.
  - eauto.
  - assert (Hlink : exists s2,
               link name payload callback init h s = (Rejected e, s2)
               /\ world s2 = world s1 /\ calls (log s2) = calls (log s1)).
    { unfold link, catch_, then_, log_and_rethrow.
      destruct callback; rewrite Hinit; destruct (has_message e);
        eexists; (split; [reflexivity|]); simpl;
        rewrite ?calls_app, ?app_nil_r; simpl; rewrite ?app_nil_r; done. }
    destruct Hlink as (s2 & Hl & Hw & Hc).
    destruct (IH _ _ _ _ Hl) as (s3 & H3 & Hw3 & Hc3).
    exists s3. rewrite H3. repeat split; congruence.
Qed.

(** One link on a fulfilled chain: the handler runs on the state the
    chain left, then the callback. *)
Lemma link_fulfilled (init : Promise (option V)) (ext : Extension Handler)
    s v0 s0 h :
  init s = (Fulfilled v0, s0) ->
  handler ext name = Some h ->
  exists r s1 k,
    link name payload callback init ext s = (r, s1)
    /\ calls (log s1) = calls (log s0) ++ take k (round name callback ext)
    /\ (k <= length (round name callback ext))%nat
    /\ (is_fulfilled r = true -> k = length (round name callback ext))
    /\ (forall e w1, h payload (world s0) = (Rejected e, w1) ->
          r = Rejected e /\ world s1 = w1
          /\ calls (log s1) = calls (log s0) ++ [Invoked (ext_label ext) name]).
Proof.
  intros Hinit Hh.
  unfold link, catch_, then_, invoke, log_and_rethrow, call_back, round.
  destruct callback as [cb|]; rewrite Hinit, Hh; simpl;
    destruct (h payload (world s0)) as [[v|e] w] eqn:Hrun; simpl.
  - destruct (cb (Some v) w) as [[u|e] w'] eqn:Hcb;
      eexists _, _, 2%nat; (split; [reflexivity|]); simpl;
      rewrite !calls_app; simpl; rewrite <- app_assoc;
      repeat split; first [done | lia | congruence].
  - destruct (has_message e) eqn:Hm;
      eexists _, _, 1%nat; (split; [reflexivity|]); simpl;
      rewrite !calls_app; simpl; rewrite ?app_nil_r;
      repeat split; first [done | lia | congruence].
  - eexists _, _, 1%nat; (split; [reflexivity|]); simpl;
      rewrite !calls_app; simpl;
      repeat split; first [done | lia | congruence].
  - destruct (has_message e) eqn:Hm;
      eexists _, _, 1%nat; (split; [reflexivity|]); simpl;
      rewrite !calls_app; simpl; rewrite ?app_nil_r;
      repeat split; first [done | lia | congruence].
Qed.

(** The chain over [hs], started from any chain [init]. *)
Lemma chain_calls (hs : list (Extension Handler)) :
  Forall (fun ext => defines name ext = true) hs ->
  forall (init : Promise (option V)) s r0 s0,
    init s = (r0, s0) ->
    exists r s' k,
      chain hs init s = (r, s')
      /\ calls (log s') = calls (log s0) ++ take k (flat_map (round name callback) hs)
      /\ (is_fulfilled r = true ->
            is_fulfilled r0 = true
            /\ k = length (flat_map (round name callback) hs)).
Proof.
  induction hs as [|ext hs IH]; intros Hdef init s r0 s0 Hinit.
  - exists r0, s0, 0%nat. simpl. rewrite Hinit, app_nil_r. done.
  - inversion Hdef as [|? ? Hext Hrest]; subst.
    change (flat_map (round name callback) (ext :: hs))
      with (round name callback ext ++ flat_map (round name callback) hs).
    change (chain (ext :: hs) init)
      with (chain hs (link name payload callback init ext)).
    destruct r0 as [v0|e].
    + unfold defines in Hext.
      destruct (handler ext name) as [h|] eqn:Hh; [|done].
      destruct (link_fulfilled init ext s v0 s0 h Hinit Hh)
        as (r1 & s1 & k1 & Hl & Hc1 & Hle1 & Hk1 & _).
      destruct (IH Hrest _ _ _ _ Hl) as (r & s' & k & Hch & Hc & Hk).
      destruct (is_fulfilled r1) eqn:Hr1.
      * exists r, s', (length (round name callback ext) + k)%nat.
        split; [done|]. rewrite Hc, Hc1, (Hk1 eq_refl).
        rewrite take_app_add, firstn_all, <- app_assoc.
        split; [done|]. intros Hr. destruct (Hk Hr) as [_ ->].
        rewrite length_app. done.
      * destruct r1 as [|e1]; [done|].
        destruct (chain_rejected hs _ _ _ _ Hl) as (s2 & Hch2 & _ & Hc2).
        exists (Rejected e1), s2, k1. split; [done|].
        rewrite Hc2, Hc1. split; [|done].
        f_equal. rewrite take_app_le; done.
    + destruct (chain_rejected (ext :: hs) _ _ _ _ Hinit) as (s2 & Hch2 & _ & Hc2).
      exists (Rejected e), s2, 0%nat. simpl in Hch2. rewrite Hch2, Hc2. simpl.
      rewrite app_nil_r. done.
Qed.

Lemma filter_defines_Forall (extensions : list (Extension Handler)) :
  Forall (fun ext => defines name ext = true)
    (List.filter (defines name) extensions).
Proof.
  apply List.Forall_forall. intros x Hx.
  apply List.filter_In in Hx. tauto.
Qed.

Lemma filter_all (hs : list (Extension Handler)) :
  Forall (fun ext => defines name ext = true) hs ->
  List.filter (defines name) hs = hs.
Proof.
  induction 1 as [|x l Hx Hl IH]; simpl; [done|]. by rewrite Hx, IH.
Qed.

(** C3.  The chain built by [hooks] runs the handlers of the extensions
    that define the hook one after the other in the stored order, each
    followed by the callback: the calls it makes are always a prefix of
    that schedule, and the whole of it when the chain is fulfilled.  When
    the handlers before some extension (and their callbacks) have
    completed and the handler of that extension rejects, [hooks] rejects
    with the same error, the state is the one that handler left, and
    nothing is called after it: neither its callback nor any later
    handler or callback. *)
Theorem hooks_sequential_until_rejection
    (extensions : list (Extension Handler)) (s : St) :
  (exists k,
      calls (log (hooks extensions name payload callback s).2)
      = calls (log s) ++ take k (schedule name callback extensions)
      /\ (is_fulfilled (hooks extensions name payload callback s).1 = true ->
          k = length (schedule name callback extensions)))
  /\ (forall pre ext post h v0 s0 e w1,
        List.filter (defines name) extensions = pre ++ ext :: post ->
        handler ext name = Some h ->
        hooks pre name payload callback s = (Fulfilled v0, s0) ->
        h payload (world s0) = (Rejected e, w1) ->
        exists s',
          hooks extensions name payload callback s = (Rejected e, s')
          /\ world s' = w1
          /\ calls (log s')
             = calls (log s) ++ schedule name callback pre
               ++ [Invoked (ext_label ext) name]).
Proof.
  split.
  - destruct (chain_calls _ (filter_defines_Forall extensions)
                (resolve None) s (Fulfilled None) s eq_refl)
      as (r & s' & k & Hch & Hc & Hk).
    exists k. unfold hooks, schedule. rewrite Hch. simpl.
    split; [done|]. intros Hr. by destruct (Hk Hr).
  - intros pre ext post h v0 s0 e w1 Hsplit Hh Hpre Hrej.
    assert (Hall : Forall (fun ext => defines name ext = true) pre).
    { pose proof (filter_defines_Forall extensions) as HF.
      rewrite Hsplit in HF. by apply Forall_app in HF as [? _]. }
    unfold hooks in *. rewrite Hsplit, fold_left_app.
    rewrite (filter_all pre Hall) in Hpre.
    change (chain (ext :: post) (chain pre (resolve None)))
      with (chain post (link name payload callback (chain pre (resolve None)) ext)).
    destruct (link_fulfilled _ ext s v0 s0 h Hpre Hh)
      as (r1 & s1 & k1 & Hl & _ & _ & _ & Hstop).
    destruct (Hstop e w1 Hrej) as (-> & Hw & Hc).
    destruct (chain_rejected post _ _ _ _ Hl) as (s2 & Hch & Hw2 & Hc2).
    exists s2. split; [done|]. split; [congruence|].
    rewrite Hc2, Hc.
    destruct (chain_calls _ Hall (resolve None) s (Fulfilled None) s eq_refl)
      as (r & s' & k & Hch' & Hc' & Hk').
    rewrite Hpre in Hch'. injection Hch' as <- <-.
    destruct (Hk' eq_refl) as [_ ->].
    rewrite Hc', firstn_all. unfold schedule.
    by rewrite (filter_all pre Hall), <- app_assoc.
Qed.

End HooksFacts.
End HooksFacts.

Module HooksExampleFacts.
Import Hooks HooksExample.

Lemma hooks_sequential_until_rejection_witness :
  exists s',
    hooks [first; other; second; third] onAuthenticate tt (Some merge)
      (mkSt [] [])
    = (Rejected (Some denied), s')
    /\ world s' = ["first"; "merge"; "second"]%string
    /\ calls (log s')
       = calls [] ++ schedule onAuthenticate (Some merge) [first]
         ++ [Invoked "second" onAuthenticate].
Proof.
  apply (proj2 (HooksFacts.hooks_sequential_until_rejection
                  onAuthenticate tt (Some merge)
                  [first; other; second; third] (mkSt [] []))
           [first] second [third]
           (writes "second" (Rejected (Some denied)))
           None (mkSt ["first"; "merge"]%string
                   [Invoked "first" onAuthenticate;
                    CalledBack "first" onAuthenticate])
           (Some denied) ["first"; "merge"; "second"]%string);
    reflexivity.
Defined.

End HooksExampleFacts.


(** ** The debouncer *)

Module DebounceFacts.
Import Debounce.
Section DebounceFacts.
Context {F : Type}.
Variables debounce_ms maxDebounce : Z.

Lemma empty_wf : timers_wf debounce_ms maxDebounce (@empty F).
Proof. split; intros *; cbn; by rewrite lookup_empty. Qed.

(** Two ids never share a timeout. *)
Lemma wf_handles_differ (T : Timers F) id id' e e' :
  timers_wf debounce_ms maxDebounce T ->
  timers T !! id = Some e ->
  timers T !! id' = Some e' ->
  id <> id' ->
  timeout e <> timeout e'.
Proof.
  intros [Hwf _] He He' Hne Heq.
  destruct (Hwf _ _ He) as (_ & t & Ht & Hid & _).
  destruct (Hwf _ _ He') as (_ & t' & Ht' & Hid' & _).
  rewrite Heq in Ht. congruence.
Qed.

Lemma cancel_and_run_wf (T : Timers F) id :
  timers_wf debounce_ms maxDebounce T ->
  timers_wf debounce_ms maxDebounce
    (mkTimers (delete id (timers T)) (cleared id T) (next_handle T)).
Proof.
  intros Hwf. pose proof Hwf as [H1 H2]. split; cbn.
  - intros id' e' He'.
    apply lookup_delete_Some in He' as [Hne He'].
    destruct (H1 _ _ He') as (Hs & t & Ht & Hid & Hd).
    split; [done|]. exists t. split; [|done].
    unfold cleared. destruct (timers T !! id) as [o|] eqn:Ho; [|done].
    rewrite lookup_delete_ne; [done|].
    by apply (wf_handles_differ T id id').
  - intros h t. unfold cleared.
    destruct (timers T !! id) as [o|]; [|by apply H2].
    intros Hh. apply lookup_delete_Some in Hh as [_ Hh]. by eapply H2.
Qed.

Lemma schedule_wf (T : Timers F) now later id func :
  timers_wf debounce_ms maxDebounce T ->
  now <> 0 ->
  later - start_of id now T < maxDebounce ->
  timers_wf debounce_ms maxDebounce
    (mkTimers
       (<[id := mkTimer (next_handle T) (start_of id now T)]> (timers T))
       (<[next_handle T := mkTimeout (later + debounce_ms) id func]> (cleared id T))
       (S (next_handle T))).
Proof.
  intros Hwf Hnow Hlt. pose proof Hwf as [H1 H2]. split; cbn.
  - intros id' e'. destruct (decide (id = id')) as [<-|Hne].
    + rewrite lookup_insert_eq. intros [= <-]. cbn. split.
      * unfold start_of. destruct (timers T !! id) as [o|] eqn:Ho; [|done].
        by destruct (H1 _ _ Ho).
      * eexists. rewrite lookup_insert_eq. split; [done|]. cbn. split; [done|]. lia.
    + rewrite lookup_insert_ne by done. intros He'.
      destruct (H1 _ _ He') as (Hs & t & Ht & Hid & Hd).
      split; [done|]. exists t. split; [|done].
      rewrite lookup_insert_ne.
      2:{ apply H2 in Ht. lia. }
      unfold cleared. destruct (timers T !! id) as [o|] eqn:Ho; [|done].
      rewrite lookup_delete_ne; [done|].
      by apply (wf_handles_differ T id id').
  - intros h t. destruct (decide (next_handle T = h)) as [<-|Hne].
    + lia.
    + rewrite lookup_insert_ne by done. unfold cleared.
      destruct (timers T !! id) as [o|].
      * intros Hh. apply lookup_delete_Some in Hh as [_ Hh].
        apply H2 in Hh. lia.
      * intros Hh. apply H2 in Hh. lia.
Qed.

(** [debounce] in terms of [cleared] and [start_of]. *)
Lemma debounce_unfold (T : Timers F) now later id func immediately :
  timers_wf debounce_ms maxDebounce T ->
  debounce debounce_ms maxDebounce now later id func immediately T
  = if immediately || (maxDebounce <=? later - start_of id now T)
    then (mkTimers (delete id (timers T)) (cleared id T) (next_handle T),
          Some func)
    else (mkTimers
            (<[id := mkTimer (next_handle T) (start_of id now T)]> (timers T))
            (<[next_handle T := mkTimeout (later + debounce_ms) id func]>
               (cleared id T))
            (S (next_handle T)),
          None).
Proof.
  intros [H1 _]. unfold debounce, cleared, start_of, run, setTimeout, clearTimeout.
  destruct (timers T !! id) as [o|] eqn:Ho; cbn.
  - destruct (H1 _ _ Ho) as [Hs _].
    apply Z.eqb_neq in Hs. rewrite Hs.
    destruct immediately; cbn; [done|].
    by destruct (maxDebounce <=? later - start o).
  - destruct immediately; cbn; [done|].
    by destruct (maxDebounce <=? later - now).
Qed.

Lemma debounce_wf (T : Timers F) now later id func immediately :
  timers_wf debounce_ms maxDebounce T ->
  now <> 0 ->
  timers_wf debounce_ms maxDebounce
    (debounce debounce_ms maxDebounce now later id func immediately T).1.
Proof.
  intros Hwf Hnow. rewrite debounce_unfold by done.
  destruct (immediately || (maxDebounce <=? later - start_of id now T)) eqn:E; cbn.
  - by apply cancel_and_run_wf.
  - apply schedule_wf; [done..|].
    apply orb_false_iff in E as [_ E]. by apply Z.leb_gt in E.
Qed.

(** When the runtime fires a timeout the table stays well formed. *)
Lemma fire_wf (T : Timers F) h :
  timers_wf debounce_ms maxDebounce T ->
  timers_wf debounce_ms maxDebounce (fire h T).1.
Proof.
  intros Hwf. pose proof Hwf as [H1 H2]. unfold fire.
  destruct (armed T !! h) as [t|] eqn:Ht; [|done].
  cbn. split; cbn.
  - intros id' e' He'. apply lookup_delete_Some in He' as [Hne He'].
    destruct (H1 _ _ He') as (Hs & t' & Ht' & Hid & Hd).
    split; [done|]. exists t'. split; [|done].
    rewrite lookup_delete_ne; [done|]. intros Heq. rewrite <- Heq in Ht'. congruence.
  - intros h' t' Hh'. apply lookup_delete_Some in Hh' as [_ Hh']. by eapply H2.
Qed.

Lemma after_wf (calls : list (Call F)) :
  Forall clock_ok calls ->
  timers_wf debounce_ms maxDebounce (after debounce_ms maxDebounce calls).
Proof.
  unfold after. generalize (@empty F) (empty_wf).
  induction calls as [|c calls IH]; intros T Hwf Hok; [done|].
  inversion Hok as [|? ? Hc Hcalls]; subst. cbn. apply IH; [|done].
  destruct c; cbn; [by apply debounce_wf|by apply fire_wf].
Qed.

(** C4.  Take any table that calls of [debounce] and fired timeouts have
    produced, under a clock that never read 0; [now] and [later] are the
    two readings of the clock during the call.  An immediate call clears
    the timeout of [id], deletes the entry and has [fn] called at once.
    Another call takes [start] from the pending entry (or now), does the
    same when [later - start >= maxDebounce], and otherwise clears the
    earlier timeout and arms a new one due after [debounce] milliseconds,
    keeping [start].  In every such table the timeout of each entry is
    armed and due before [start + maxDebounce + debounce], whatever calls
    came before. *)
Theorem debounce_spec (calls : list (Call F)) (now later : Z) (id : string)
    (fn : F) :
  Forall clock_ok calls ->
  now <> 0 ->
  let T := after debounce_ms maxDebounce calls in
  let start := start_of id now T in
  let ran :=
    (mkTimers (delete id (timers T)) (cleared id T) (next_handle T), Some fn) in
  debounce debounce_ms maxDebounce now later id fn true T = ran
  /\ (maxDebounce <= later - start ->
      debounce debounce_ms maxDebounce now later id fn false T = ran)
  /\ (later - start < maxDebounce ->
      debounce debounce_ms maxDebounce now later id fn false T
      = (mkTimers
           (<[id := mkTimer (next_handle T) start]> (timers T))
           (<[next_handle T := mkTimeout (later + debounce_ms) id fn]>
              (cleared id T))
           (S (next_handle T)),
         None)
      /\ cleared id T !! next_handle T = None
      /\ later + debounce_ms < start + maxDebounce + debounce_ms)
  /\ (forall id' e,
        timers T !! id' = Some e ->
        exists t,
          armed T !! timeout e = Some t
          /\ run_id t = id'
          /\ due t < Debounce.start e + maxDebounce + debounce_ms).
Proof.
  intros Hcalls Hnow T start ran. subst start ran.
  pose proof (after_wf calls Hcalls) as Hwf. fold T in Hwf.
  split; [|split; [|split]].
  - by rewrite debounce_unfold.
  - intros Hge. rewrite debounce_unfold by done. cbn.
    apply Z.leb_le in Hge. by rewrite Hge.
  - intros Hlt. rewrite debounce_unfold by done. cbn.
    pose proof Hlt as Hlt'. apply Z.leb_gt in Hlt'. rewrite Hlt'.
    split; [done|]. split; [|lia].
    destruct (cleared id T !! next_handle T) as [t|] eqn:Ht; [|done].
    exfalso. destruct Hwf as [_ H2]. unfold cleared in Ht.
    destruct (timers T !! id).
    + apply lookup_delete_Some in Ht as [_ Ht]. apply H2 in Ht. lia.
    + apply H2 in Ht. lia.
  - intros id' e He. destruct Hwf as [H1 _].
    by destruct (H1 _ _ He) as [_ Ht].
Qed.

End DebounceFacts.
End DebounceFacts.


(** ** The server kernel *)

Module KernelFacts.
Import Kernel.
Section KernelFacts.
Context {H : Type}.
Variable extensions : list (Extension H).
Variables debounce_ms maxDebounce : Z.
Variable valid_code : Z -> bool.
Variables ResetConnection Unauthorized Forbidden : CloseEvent.

Abbreviation ws_close := (Kernel.ws_close valid_code).
Abbreviation ws_close_event := (Kernel.ws_close_event valid_code).
Abbreviation debounce := (Kernel.debounce debounce_ms maxDebounce).
Abbreviation handleDocumentUpdate :=
  (Kernel.handleDocumentUpdate debounce_ms maxDebounce).
Abbreviation onDisconnect_then :=
  (Kernel.onDisconnect_then debounce_ms maxDebounce).
Abbreviation onClose_setUpNewConnection :=
  (Kernel.onClose_setUpNewConnection valid_code).
Abbreviation Connection_close := (Kernel.Connection_close valid_code).
Abbreviation closeConnections :=
  (Kernel.closeConnections valid_code ResetConnection).
Abbreviation createConnection := (Kernel.createConnection valid_code).
Abbreviation onConnect_catch :=
  (Kernel.onConnect_catch valid_code Unauthorized Forbidden).
Abbreviation onAuthenticate_catch := (Kernel.onAuthenticate_catch Forbidden).
Abbreviation permissionDenied_sent :=
  (Kernel.permissionDenied_sent valid_code Forbidden).
Abbreviation rejected := (Kernel.rejected valid_code Unauthorized Forbidden).
Abbreviation onLoadDocument_settled :=
  (Kernel.onLoadDocument_settled valid_code ResetConnection Unauthorized
     Forbidden).
Abbreviation afterLoadDocument_settled :=
  (Kernel.afterLoadDocument_settled valid_code Unauthorized Forbidden).
Abbreviation handleQueueingMessage :=
  (Kernel.handleQueueingMessage valid_code Unauthorized).
Abbreviation messageHandler := (Kernel.messageHandler valid_code Unauthorized).
Abbreviation emit_message := (Kernel.emit_message valid_code Unauthorized).
Abbreviation attach := (Kernel.attach valid_code Unauthorized Forbidden).
Abbreviation onConnect_settled :=
  (Kernel.onConnect_settled valid_code Unauthorized Forbidden).
Abbreviation onAuthenticate_settled :=
  (Kernel.onAuthenticate_settled Forbidden).
Abbreviation handleConnection := (Kernel.handleConnection extensions).
Abbreviation settle :=
  (Kernel.settle debounce_ms maxDebounce valid_code ResetConnection
     Unauthorized Forbidden).
Abbreviation step :=
  (Kernel.step extensions debounce_ms maxDebounce valid_code ResetConnection
     Unauthorized Forbidden).
Abbreviation run :=
  (Kernel.run extensions debounce_ms maxDebounce valid_code ResetConnection
     Unauthorized Forbidden).

(** *** Loops *)

Lemma fold_left_preserves {A B} (P : A -> Prop) (f : A -> B -> A) (l : list B) :
  (forall a b, P a -> P (f a b)) -> forall a, P a -> P (fold_left f l a).
Proof. intros Hf. induction l as [|b l IH]; simpl; auto. Qed.

Lemma run_preserves (P : State -> Prop) :
  (forall st i, P st -> P (step st i)) ->
  forall inputs st, P st -> P (run inputs st).
Proof. intros Hs inputs. unfold Kernel.run. by apply fold_left_preserves. Qed.

(** *** The registry *)

Lemma Map_get_elem {A} (k : string) (v : A) (m : list (string * A)) :
  Map_get k m = Some v -> (k, v) ∈ m.
Proof.
  induction m as [|[k' v'] m IH]; simpl; [done|].
  destruct (String.eqb k k') eqn:E.
  - apply String.eqb_eq in E as <-. intros [= <-]. apply list_elem_of_here.
  - intros Hm. apply list_elem_of_further. auto.
Qed.

Lemma Map_get_None {A} (k : string) (m : list (string * A)) :
  Map_get k m = None -> k ∉ m.*1.
Proof.
  induction m as [|[k' v'] m IH]; simpl.
  - intros _. apply not_elem_of_nil.
  - destruct (String.eqb k k') eqn:E; [done|].
    apply String.eqb_neq in E. intros Hm. apply not_elem_of_cons. auto.
Qed.

Lemma Map_set_fresh {A} (k : string) (v : A) (m : list (string * A)) :
  k ∉ m.*1 -> Map_set k v m = m ++ [(k, v)].
Proof.
  induction m as [|[k' v'] m IH]; simpl; [done|].
  intros Hk. apply not_elem_of_cons in Hk as [Hne Hk].
  apply String.eqb_neq in Hne. rewrite Hne. by rewrite IH.
Qed.

Lemma Map_get_set {A} (k : string) (v : A) (m : list (string * A)) :
  Map_get k (Map_set k v m) = Some v.
Proof.
  induction m as [|[k' v'] m IH]; simpl.
  - by rewrite String.eqb_refl.
  - destruct (String.eqb k k') eqn:E; simpl.
    + by rewrite String.eqb_refl.
    + by rewrite E.
Qed.

Lemma Map_delete_sublist {A} (k : string) (m : list (string * A)) :
  sublist (Map_delete k m) m.
Proof.
  induction m as [|[k' v'] m IH]; simpl; [done|].
  destruct (String.eqb k k').
  - by apply sublist_cons.
  - by apply sublist_skip.
Qed.

Lemma Map_delete_get {A} (k : string) (m : list (string * A)) :
  NoDup m.*1 -> Map_get k (Map_delete k m) = None.
Proof.
  induction m as [|[k' v'] m IH]; simpl; [done|].
  intros Hnd. apply NoDup_cons in Hnd as [Hk' Hnd].
  destruct (String.eqb k k') eqn:E.
  - apply String.eqb_eq in E as ->.
    destruct (Map_get k' m) as [v|] eqn:Hg; [|done].
    apply Map_get_elem in Hg. exfalso. apply Hk'.
    apply list_elem_of_fmap. by exists (k', v).
  - simpl. rewrite E. auto.
Qed.

(** [registry_ok] looks at the registry and at the names of the
    Documents only. *)
Lemma registry_ok_frame (st st' : State) :
  documents st' = documents st ->
  name <$> heap st' = name <$> heap st ->
  registry_ok st -> registry_ok st'.
Proof.
  intros Hd Hn [H1 H2]. split; rewrite Hd; [done|].
  intros d doc Hin. rewrite <- (H2 d doc Hin).
  rewrite <- !list_lookup_fmap. by rewrite Hn.
Qed.

Lemma registry_ok_delete (st : State) (d : string) :
  registry_ok st ->
  registry_ok (set_documents (Map_delete d (documents st)) st).
Proof.
  intros [H1 H2]. pose proof (Map_delete_sublist d (documents st)) as Hsub.
  split; cbn.
  - eapply sublist_NoDup; [done|]. by apply fmap_sublist.
  - intros d' doc Hin. apply H2. by apply (sublist_subseteq _ _ Hsub).
Qed.

Lemma upd_document_names doc f st :
  (forall D, name (f D) = name D) ->
  name <$> heap (upd_document doc f st) = name <$> heap st.
Proof.
  intros Hf. unfold upd_document.
  destruct (heap st !! doc) as [D|] eqn:HD; [|done]. cbn.
  rewrite list_fmap_insert, Hf.
  apply list_insert_id. by rewrite list_lookup_fmap, HD.
Qed.

Lemma registry_ok_upd_document doc f st :
  (forall D, name (f D) = name D) ->
  registry_ok st -> registry_ok (upd_document doc f st).
Proof.
  intros Hf. apply registry_ok_frame; [|by apply upd_document_names].
  unfold upd_document. by destruct (heap st !! doc).
Qed.

Lemma registry_ok_emit e st : registry_ok st -> registry_ok (emit e st).
Proof. by apply registry_ok_frame. Qed.
Lemma registry_ok_await k st : registry_ok st -> registry_ok (await k st).
Proof. by apply registry_ok_frame. Qed.
Lemma registry_ok_hooks h t d k st :
  registry_ok st -> registry_ok (hooks h t d k st).
Proof. by apply registry_ok_frame. Qed.
Lemma registry_ok_upd_socket t f st :
  registry_ok st -> registry_ok (upd_socket t f st).
Proof. by apply registry_ok_frame. Qed.
Lemma registry_ok_set_sockets v st :
  registry_ok st -> registry_ok (set_sockets v st).
Proof. by apply registry_ok_frame. Qed.
Lemma registry_ok_set_tm v st : registry_ok st -> registry_ok (set_tm v st).
Proof. by apply registry_ok_frame. Qed.
Lemma registry_ok_set_conns v st :
  registry_ok st -> registry_ok (set_conns v st).
Proof. by apply registry_ok_frame. Qed.
Lemma registry_ok_set_clock v st :
  registry_ok st -> registry_ok (set_clock v st).
Proof. by apply registry_ok_frame. Qed.
Lemma registry_ok_set_promises v n st :
  registry_ok st -> registry_ok (set_promises v n st).
Proof. by apply registry_ok_frame. Qed.
Lemma registry_ok_set_trace v st :
  registry_ok st -> registry_ok (set_trace v st).
Proof. by apply registry_ok_frame. Qed.
Lemma registry_ok_ws_send t m st :
  registry_ok st -> registry_ok (ws_send t m st).
Proof. by apply registry_ok_frame. Qed.

Create HintDb registry discriminated.
#[local] Hint Resolve registry_ok_upd_document registry_ok_emit
  registry_ok_await registry_ok_hooks registry_ok_upd_socket
  registry_ok_set_sockets registry_ok_set_tm registry_ok_set_conns
  registry_ok_set_clock registry_ok_set_promises registry_ok_set_trace
  registry_ok_ws_send registry_ok_delete : registry.

(** Unfold one function, split on what it inspects, and close the
    branches with the facts collected so far. *)
Ltac branches db :=
  intros; repeat case_match; simplify_eq; eauto 12 with db.

Lemma registry_ok_ws_close t c r st st' :
  ws_close t c r st = Some st' -> registry_ok st -> registry_ok st'.
Proof. unfold Kernel.ws_close. branches registry. Qed.
#[local] Hint Resolve registry_ok_ws_close : registry.

Lemma registry_ok_ws_close_event t e st :
  registry_ok st -> registry_ok (ws_close_event t e st).
Proof. unfold Kernel.ws_close_event. branches registry. Qed.
#[local] Hint Resolve registry_ok_ws_close_event : registry.

Lemma registry_ok_store task st : registry_ok st -> registry_ok (store task st).
Proof. unfold store. branches registry. Qed.
#[local] Hint Resolve registry_ok_store : registry.

Lemma registry_ok_call f st : registry_ok st -> registry_ok (call f st).
Proof. unfold call. branches registry. Qed.
#[local] Hint Resolve registry_ok_call : registry.

Lemma registry_ok_debounce id f i st :
  registry_ok st -> registry_ok (debounce id f i st).
Proof. unfold Kernel.debounce. branches registry. Qed.
#[local] Hint Resolve registry_ok_debounce : registry.

Lemma registry_ok_remove_document doc st :
  registry_ok st -> registry_ok (remove_document doc st).
Proof. unfold remove_document. branches registry. Qed.
#[local] Hint Resolve registry_ok_remove_document : registry.

Lemma registry_ok_afterStore task st :
  registry_ok st -> registry_ok (afterStore task st).
Proof. unfold afterStore. branches registry. Qed.
#[local] Hint Resolve registry_ok_afterStore : registry.

Lemma registry_ok_onStoreDocument_settled task r st :
  registry_ok st -> registry_ok (onStoreDocument_settled task r st).
Proof. unfold onStoreDocument_settled. branches registry. Qed.

Lemma registry_ok_afterStoreDocument_settled task r st :
  registry_ok st -> registry_ok (afterStoreDocument_settled task r st).
Proof. unfold afterStoreDocument_settled. branches registry. Qed.

Lemma registry_ok_handleDocumentUpdate doc origin st :
  registry_ok st -> registry_ok (handleDocumentUpdate doc origin st).
Proof. unfold Kernel.handleDocumentUpdate. branches registry. Qed.

Lemma registry_ok_onDisconnect_then t doc st :
  registry_ok st -> registry_ok (onDisconnect_then t doc st).
Proof. unfold Kernel.onDisconnect_then. branches registry. Qed.

Lemma registry_ok_onClose_setUpNewConnection conn event st :
  registry_ok st -> registry_ok (onClose_setUpNewConnection conn event st).
Proof. unfold Kernel.onClose_setUpNewConnection. branches registry. Qed.

Lemma registry_ok_Connection_close c event st :
  registry_ok st -> registry_ok (Connection_close c event st).
Proof.
  unfold Kernel.Connection_close, onClose_createConnection.
  pose proof registry_ok_onClose_setUpNewConnection.
  branches registry.
Qed.
#[local] Hint Resolve registry_ok_Connection_close : registry.

Lemma registry_ok_closeConnections d st :
  registry_ok st -> registry_ok (closeConnections d st).
Proof.
  unfold Kernel.closeConnections. intros Hok.
  apply fold_left_preserves; [|done].
  intros st' [dn doc] Hok'. repeat case_match; try done.
  all: apply fold_left_preserves; auto with registry.
Qed.
#[local] Hint Resolve registry_ok_closeConnections : registry.

Lemma registry_ok_createConnection t doc st st' c :
  createConnection t doc st = (st', c) -> registry_ok st -> registry_ok st'.
Proof. unfold Kernel.createConnection. branches registry. Qed.
#[local] Hint Resolve registry_ok_createConnection : registry.

Lemma registry_ok_onConnect_catch t e st :
  registry_ok st -> registry_ok (onConnect_catch t e st).
Proof. unfold Kernel.onConnect_catch. branches registry. Qed.

Lemma registry_ok_onAuthenticate_catch t d e st :
  registry_ok st -> registry_ok (onAuthenticate_catch t d e st).
Proof. unfold Kernel.onAuthenticate_catch. branches registry. Qed.

Lemma registry_ok_permissionDenied_sent t e st :
  registry_ok st -> registry_ok (permissionDenied_sent t e st).
Proof. unfold Kernel.permissionDenied_sent. branches registry. Qed.

Lemma registry_ok_rejected o t d e st :
  registry_ok st -> registry_ok (rejected o t d e st).
Proof.
  unfold Kernel.rejected. destruct o;
    auto using registry_ok_onConnect_catch, registry_ok_onAuthenticate_catch.
Qed.
#[local] Hint Resolve registry_ok_rejected : registry.

Lemma registry_ok_register d st :
  Map_get d (documents st) = None ->
  registry_ok st ->
  registry_ok
    (set_documents (Map_set d (length (heap st)) (documents st))
       (set_heap (heap st ++ [mkDocument d true [] false false]) st)).
Proof.
  intros Hnone [H1 H2]. apply Map_get_None in Hnone.
  rewrite (Map_set_fresh _ _ _ Hnone). split; cbn.
  - rewrite fmap_app. apply NoDup_app. split; [done|]. split.
    + intros x Hx Hx'. apply list_elem_of_singleton in Hx'. by subst.
    + apply NoDup_singleton.
  - intros d' doc Hin. apply elem_of_app in Hin as [Hin|Hin].
    + pose proof (H2 _ _ Hin) as Hl.
      destruct (heap st !! doc) as [D|] eqn:HD; [|done].
      by rewrite (lookup_app_l_Some _ _ _ _ HD).
    + apply list_elem_of_singleton in Hin as [= -> ->].
      by rewrite lookup_app_r, Nat.sub_diag.
Qed.

Lemma registry_ok_createDocument t d o st st' r :
  createDocument t d o st = (st', r) -> registry_ok st -> registry_ok st'.
Proof.
  unfold createDocument. intros Hc Hok.
  destruct (Map_get d (documents st)) eqn:Hg; simplify_eq; [done|].
  by apply registry_ok_hooks, registry_ok_register.
Qed.
#[local] Hint Resolve registry_ok_createDocument : registry.

Lemma registry_ok_setUpNewConnection t d o st :
  registry_ok st -> registry_ok (setUpNewConnection t d o st).
Proof. unfold setUpNewConnection. branches registry. Qed.
#[local] Hint Resolve registry_ok_setUpNewConnection : registry.

Lemma registry_ok_onLoadDocument_settled t d doc o r st :
  registry_ok st -> registry_ok (onLoadDocument_settled t d doc o r st).
Proof. unfold Kernel.onLoadDocument_settled. branches registry. Qed.

Lemma registry_ok_afterLoadDocument_settled t d doc o r st :
  registry_ok st -> registry_ok (afterLoadDocument_settled t d doc o r st).
Proof. unfold Kernel.afterLoadDocument_settled. branches registry. Qed.

Lemma registry_ok_handleQueueingMessage t data st :
  registry_ok st -> registry_ok (handleQueueingMessage t data st).
Proof. unfold Kernel.handleQueueingMessage. branches registry. Qed.
#[local] Hint Resolve registry_ok_handleQueueingMessage : registry.

Lemma registry_ok_messageHandler t data st :
  registry_ok st -> registry_ok (messageHandler t data st).
Proof. unfold Kernel.messageHandler. branches registry. Qed.
#[local] Hint Resolve registry_ok_messageHandler : registry.

Lemma registry_ok_emit_message t data st :
  registry_ok st -> registry_ok (emit_message t data st).
Proof. unfold Kernel.emit_message. branches registry. Qed.
#[local] Hint Resolve registry_ok_emit_message : registry.

Lemma registry_ok_attach t d doc o st :
  registry_ok st -> registry_ok (attach t d doc o st).
Proof.
  unfold Kernel.attach. intros Hok.
  destruct (createConnection t doc st) as [st1 c] eqn:Hc.
  assert (registry_ok st1) by eauto with registry.
  repeat case_match; simplify_eq;
    repeat first
      [ apply registry_ok_hooks | apply registry_ok_rejected
      | apply fold_left_preserves; [by auto with registry|]
      | apply registry_ok_upd_socket | apply registry_ok_set_conns ];
    done.
Qed.

Lemma registry_ok_onConnect_settled t d r st :
  registry_ok st -> registry_ok (onConnect_settled t d r st).
Proof.
  unfold Kernel.onConnect_settled. pose proof registry_ok_onConnect_catch.
  branches registry.
Qed.

Lemma registry_ok_onAuthenticate_settled t d r st :
  registry_ok st -> registry_ok (onAuthenticate_settled t d r st).
Proof.
  unfold Kernel.onAuthenticate_settled.
  pose proof registry_ok_onAuthenticate_catch.
  branches registry.
Qed.

Lemma registry_ok_settle k r st :
  registry_ok st -> registry_ok (settle k r st).
Proof.
  intros Hok. destruct k; cbv beta iota delta [Kernel.settle];
    auto using registry_ok_onConnect_settled,
      registry_ok_onAuthenticate_settled, registry_ok_permissionDenied_sent,
      registry_ok_onLoadDocument_settled,
      registry_ok_afterLoadDocument_settled, registry_ok_attach,
      registry_ok_onStoreDocument_settled,
      registry_ok_afterStoreDocument_settled.
  - destruct r; auto using registry_ok_onDisconnect_then, registry_ok_emit.
  - destruct r; auto using registry_ok_emit.
Qed.

Lemma registry_ok_step st i : registry_ok st -> registry_ok (step st i).
Proof.
  intros Hok. destruct i; cbv beta iota delta [Kernel.step].
  - unfold Kernel.handleConnection. branches registry.
  - by apply registry_ok_emit_message.
  - repeat case_match; try done.
    by apply registry_ok_settle, registry_ok_set_promises.
  - by apply registry_ok_upd_socket.
  - by apply registry_ok_set_clock.
  - case_match. by apply registry_ok_call, registry_ok_set_tm.
  - branches registry.
  - apply fold_left_preserves; [|by apply registry_ok_upd_socket].
    intros. branches registry.
  - repeat case_match; try done. by apply registry_ok_handleDocumentUpdate.
  - by apply registry_ok_closeConnections.
Qed.

Lemma registry_ok_initial : registry_ok initial.
Proof.
  split; cbn; [apply NoDup_nil_2|]. intros d doc Hin.
  by apply elem_of_nil in Hin.
Qed.

(** Closing Connections and closing a socket leave the registry as it
    is. *)
Section DocumentsFrame.
Variable Q : list (string * nat) -> Prop.
Abbreviation P := (on_documents Q).

Lemma documents_frame st st' : documents st' = documents st -> P st -> P st'.
Proof. unfold on_documents. by intros ->. Qed.

Lemma documents_upd_document doc f st : P st -> P (upd_document doc f st).
Proof.
  apply documents_frame. unfold upd_document. by destruct (heap st !! doc).
Qed.

Lemma documents_emit e st : P st -> P (emit e st).
Proof. by apply documents_frame. Qed.
Lemma documents_await k st : P st -> P (await k st).
Proof. by apply documents_frame. Qed.
Lemma documents_hooks h t d k st : P st -> P (hooks h t d k st).
Proof. by apply documents_frame. Qed.
Lemma documents_upd_socket t f st : P st -> P (upd_socket t f st).
Proof. by apply documents_frame. Qed.
Lemma documents_ws_send t m st : P st -> P (ws_send t m st).
Proof. by apply documents_frame. Qed.

Create HintDb docs discriminated.
Hint Resolve documents_upd_document documents_emit documents_await
  documents_hooks documents_upd_socket documents_ws_send : docs.

Lemma documents_ws_close t c r st st' :
  ws_close t c r st = Some st' -> P st -> P st'.
Proof. unfold Kernel.ws_close. branches docs. Qed.
Hint Resolve documents_ws_close : docs.

Lemma documents_ws_close_event t e st : P st -> P (ws_close_event t e st).
Proof. unfold Kernel.ws_close_event. branches docs. Qed.
Hint Resolve documents_ws_close_event : docs.

Lemma documents_Connection_close c event st :
  P st -> P (Connection_close c event st).
Proof.
  unfold Kernel.Connection_close, Kernel.onClose_setUpNewConnection,
    onClose_createConnection.
  branches docs.
Qed.
Hint Resolve documents_Connection_close : docs.

Lemma documents_closeConnections d st : P st -> P (closeConnections d st).
Proof.
  unfold Kernel.closeConnections. intros Hok.
  apply fold_left_preserves; [|done].
  intros st' [dn doc] Hok'. repeat case_match; try done.
  all: apply fold_left_preserves; auto with docs.
Qed.

Lemma documents_rejected o t d e st : P st -> P (rejected o t d e st).
Proof.
  unfold Kernel.rejected, Kernel.onConnect_catch,
    Kernel.onAuthenticate_catch.
  branches docs.
Qed.
End DocumentsFrame.

(** C1.  In every state the kernel can reach, the registry holds at most
    one Document per name (and each registered Document is the one that
    carries that name).  [createDocument] returns the registered Document
    when there is one and leaves the state alone; otherwise the new
    Document is in the registry at the first suspension of
    [createDocument]; and when onLoadDocument rejects no Document is
    registered under the name any more. *)
Theorem registry_at_most_one_document :
  (forall inputs, registry_ok (run inputs initial))
  /\ (forall st t d origin doc,
        Map_get d (documents st) = Some doc ->
        createDocument t d origin st = (st, Some doc))
  /\ (forall st t d origin,
        Map_get d (documents st) = None ->
        let created := createDocument t d origin st in
        created.2 = None
        /\ Map_get d (documents created.1) = Some (length (heap st))
        /\ heap created.1 !! length (heap st)
           = Some (mkDocument d true [] false false)
        /\ promises created.1 !! next_promise st
           = Some (KOnLoadDocument t d (length (heap st)) origin))
  /\ (forall st t d doc origin error,
        registry_ok st ->
        Map_get d
          (documents
             (onLoadDocument_settled t d doc origin (Rejected error) st))
        = None).
Proof.
  split; [|split; [|split]].
  - intros inputs. apply run_preserves; [|apply registry_ok_initial].
    intros. by apply registry_ok_step.
  - intros st t d origin doc Hg. unfold createDocument. by rewrite Hg.
  - intros st t d origin Hg. unfold createDocument. rewrite Hg. cbn.
    split; [done|]. split; [|split].
    + apply Map_get_set.
    + by rewrite lookup_app_r, Nat.sub_diag.
    + by rewrite lookup_insert_eq.
  - intros st t d doc origin error [Hnd _].
    unfold Kernel.onLoadDocument_settled.
    apply (documents_rejected (fun m => Map_get d m = None)).
    unfold on_documents. cbn.
    apply (documents_closeConnections
             (fun m => Map_get d (Map_delete d m) = None)).
    by apply Map_delete_get.
Qed.

End KernelFacts.
End KernelFacts.


Module AuthenticationFacts.
Import Kernel KernelFacts.
Section AuthenticationFacts.
Context {H : Type}.
Variable extensions : list (Extension H).
Variables debounce_ms maxDebounce : Z.
Variable valid_code : Z -> bool.
Variables ResetConnection Unauthorized Forbidden : CloseEvent.
Variable t0 : nat.

Abbreviation ws_close := (Kernel.ws_close valid_code).
Abbreviation ws_close_event := (Kernel.ws_close_event valid_code).
Abbreviation debounce := (Kernel.debounce debounce_ms maxDebounce).
Abbreviation handleDocumentUpdate :=
  (Kernel.handleDocumentUpdate debounce_ms maxDebounce).
Abbreviation onDisconnect_then :=
  (Kernel.onDisconnect_then debounce_ms maxDebounce).
Abbreviation onClose_setUpNewConnection :=
  (Kernel.onClose_setUpNewConnection valid_code).
Abbreviation Connection_close := (Kernel.Connection_close valid_code).
Abbreviation closeConnections :=
  (Kernel.closeConnections valid_code ResetConnection).
Abbreviation createConnection := (Kernel.createConnection valid_code).
Abbreviation onConnect_catch :=
  (Kernel.onConnect_catch valid_code Unauthorized Forbidden).
Abbreviation onAuthenticate_catch := (Kernel.onAuthenticate_catch Forbidden).
Abbreviation permissionDenied_sent :=
  (Kernel.permissionDenied_sent valid_code Forbidden).
Abbreviation rejected := (Kernel.rejected valid_code Unauthorized Forbidden).
Abbreviation onLoadDocument_settled :=
  (Kernel.onLoadDocument_settled valid_code ResetConnection Unauthorized
     Forbidden).
Abbreviation afterLoadDocument_settled :=
  (Kernel.afterLoadDocument_settled valid_code Unauthorized Forbidden).
Abbreviation handleQueueingMessage :=
  (Kernel.handleQueueingMessage valid_code Unauthorized).
Abbreviation messageHandler := (Kernel.messageHandler valid_code Unauthorized).
Abbreviation emit_message := (Kernel.emit_message valid_code Unauthorized).
Abbreviation attach := (Kernel.attach valid_code Unauthorized Forbidden).
Abbreviation onConnect_settled :=
  (Kernel.onConnect_settled valid_code Unauthorized Forbidden).
Abbreviation onAuthenticate_settled :=
  (Kernel.onAuthenticate_settled Forbidden).
Abbreviation handleConnection := (Kernel.handleConnection extensions).
Abbreviation settle :=
  (Kernel.settle debounce_ms maxDebounce valid_code ResetConnection
     Unauthorized Forbidden).
Abbreviation step :=
  (Kernel.step extensions debounce_ms maxDebounce valid_code ResetConnection
     Unauthorized Forbidden).
Abbreviation run :=
  (Kernel.run extensions debounce_ms maxDebounce valid_code ResetConnection
     Unauthorized Forbidden).


Abbreviation ok := (authentication_ok t0).

Lemma authenticated_app t d tr tr' :
  authenticated t d tr -> authenticated t d (tr ++ tr').
Proof. unfold authenticated. intros. apply elem_of_app. by left. Qed.

Lemma delivered_app tr tr' :
  delivered_after_authenticated t0 tr ->
  (forall d data, EvDeliver t0 d data ∈ tr' -> authenticated t0 d tr) ->
  delivered_after_authenticated t0 (tr ++ tr').
Proof.
  intros Hd Hnew pre post d data Heq.
  apply List.app_eq_app in Heq as [l [[-> Hl]|[-> ->]]].
  - destruct l as [|e l]; simpl in Hl.
    + rewrite app_nil_r in Hnew. apply (Hnew d data). rewrite <- Hl.
      apply list_elem_of_here.
    + injection Hl as <- ->. by eapply Hd.
  - apply authenticated_app, (Hnew d data).
    apply elem_of_app. right. apply list_elem_of_here.
Qed.

Ltac open_ok Hok :=
  destruct Hok as (Ha & Hb & Hc & Hd);
  split; [|split; [|split]]; cbn.

Lemma ok_set_trace evs st :
  ok st ->
  (forall d data, EvDeliver t0 d data ∈ evs -> authenticated t0 d (trace st)) ->
  ok (set_trace (trace st ++ evs) st).
Proof.
  intros Hok Hevs. open_ok Hok.
  - done.
  - intros p k t d doc Hp Hk. destruct (Hb _ _ _ _ _ Hp Hk) as [Hn Hauth].
    split; [done|]. intros ->. by apply authenticated_app, Hauth.
  - intros c conn Hconn Ht. apply authenticated_app. eauto.
  - by apply delivered_app.
Qed.

Lemma ok_emit e st : ok st -> is_deliver e = false -> ok (emit e st).
Proof.
  intros Hok He. apply ok_set_trace; [done|].
  intros d data Hin. apply list_elem_of_singleton in Hin. by subst.
Qed.

Lemma ok_ws_send t m st : ok st -> ok (ws_send t m st).
Proof. intros. by apply ok_emit. Qed.

Lemma ok_await k st : ok st -> setup_of k = None -> ok (await k st).
Proof.
  intros Hok Hk. open_ok Hok; try done.
  intros p k' t d doc Hp Hk'.
  apply lookup_insert_Some in Hp as [[_ <-]|[_ Hp]]; [congruence|eauto].
Qed.

Lemma ok_await_setup k t d doc st :
  ok st ->
  setup_of k = Some (t, d, doc) ->
  name <$> heap st !! doc = Some d ->
  (t = t0 -> authenticated t0 d (trace st)) ->
  ok (await k st).
Proof.
  intros Hok Hk Hn Hauth. open_ok Hok; try done.
  intros p k' t' d' doc' Hp Hk'.
  apply lookup_insert_Some in Hp as [[_ <-]|[_ Hp]]; [|eauto].
  by simplify_eq.
Qed.

Lemma ok_hooks h t d k st : ok st -> setup_of k = None -> ok (hooks h t d k st).
Proof. intros. unfold hooks. apply ok_await; [apply ok_emit|]; done. Qed.

Lemma ok_upd_socket t f st :
  ok st ->
  (forall s, requiresAuthentication (connection (f s))
             = requiresAuthentication (connection s)) ->
  ok (upd_socket t f st).
Proof.
  intros Hok Hf. open_ok Hok; try done.
  intros s. rewrite lookup_alter. case_decide as Ht.
  - subst. destruct (sockets st !! t0) as [s0|] eqn:Hs; [|done].
    cbn. intros [= <-]. rewrite Hf. auto.
  - auto.
Qed.

Lemma ok_upd_document doc f st :
  ok st -> (forall D, name (f D) = name D) -> ok (upd_document doc f st).
Proof.
  intros Hok Hf. unfold upd_document.
  destruct (heap st !! doc) as [D|] eqn:HD; [|done].
  open_ok Hok; try done.
  intros p k t d doc' Hp Hk. destruct (Hb _ _ _ _ _ Hp Hk) as [Hn Hauth].
  split; [|done].
  destruct (decide (doc = doc')) as [<-|Hne].
  - rewrite list_lookup_insert_eq by (by eapply lookup_lt_Some).
    cbn. rewrite Hf. by rewrite HD in Hn.
  - by rewrite list_lookup_insert_ne.
Qed.

Lemma ok_set_documents v st : ok st -> ok (set_documents v st).
Proof. intros Hok. by open_ok Hok. Qed.
Lemma ok_set_tm v st : ok st -> ok (set_tm v st).
Proof. intros Hok. by open_ok Hok. Qed.
Lemma ok_set_clock v st : ok st -> ok (set_clock v st).
Proof. intros Hok. by open_ok Hok. Qed.

Lemma ok_settled p st :
  ok st -> ok (set_promises (delete p (promises st)) (next_promise st) st).
Proof.
  intros Hok. open_ok Hok; try done.
  intros p' k t d doc Hp Hk. apply lookup_delete_Some in Hp as [_ Hp]. eauto.
Qed.

Lemma ok_new_connection conn st :
  ok st ->
  (socketId conn = t0 -> authenticated t0 (documentName conn) (trace st)) ->
  ok (set_conns (conns st ++ [conn]) st).
Proof.
  intros Hok Hconn. open_ok Hok; try done.
  intros c conn' Hl Ht. apply lookup_app_Some in Hl as [Hl|[_ Hl]]; [eauto|].
  apply list_lookup_singleton_Some in Hl as [_ <-]. auto.
Qed.

Lemma ok_same_connection c conn conn' st :
  ok st ->
  conns st !! c = Some conn ->
  socketId conn' = socketId conn ->
  documentName conn' = documentName conn ->
  ok (set_conns (<[c := conn']> (conns st)) st).
Proof.
  intros Hok Hconn Hs Hn. open_ok Hok; try done.
  intros c' conn'' Hl Ht. destruct (decide (c = c')) as [<-|Hne].
  - rewrite list_lookup_insert_eq in Hl by (by eapply lookup_lt_Some).
    injection Hl as <-. rewrite Hn. apply (Hc c conn); congruence.
  - rewrite list_lookup_insert_ne in Hl by done. eauto.
Qed.

Lemma ok_new_document D st : ok st -> ok (set_heap (heap st ++ [D]) st).
Proof.
  intros Hok. open_ok Hok; try done.
  intros p k t d doc Hp Hk. destruct (Hb _ _ _ _ _ Hp Hk) as [Hn Hauth].
  split; [|done].
  destruct (heap st !! doc) as [D'|] eqn:HD; [|done].
  by rewrite (lookup_app_l_Some _ _ _ _ HD).
Qed.

Lemma ok_new_socket t s st :
  ok st ->
  (t = t0 -> requiresAuthentication (connection s) = true) ->
  ok (set_sockets (<[t := s]> (sockets st)) st).
Proof.
  intros Hok Hs. open_ok Hok; try done.
  intros s'. rewrite lookup_insert. case_decide; [|auto].
  intros [= <-]. auto.
Qed.

Create HintDb auth discriminated.
#[local] Hint Resolve ok_emit ok_ws_send ok_await ok_hooks ok_upd_socket
  ok_upd_document ok_set_documents ok_set_tm ok_set_clock ok_settled
  ok_new_document : auth.

Ltac branches :=
  intros; repeat case_match; simplify_eq; eauto 12 with auth.

Lemma trace_upd_document doc f st : trace (upd_document doc f st) = trace st.
Proof. unfold upd_document. by destruct (heap st !! doc). Qed.

Lemma name_upd_document doc' f st doc :
  (forall D, name (f D) = name D) ->
  name <$> heap (upd_document doc' f st) !! doc = name <$> heap st !! doc.
Proof.
  intros Hf. rewrite <- !list_lookup_fmap.
  by rewrite upd_document_names.
Qed.

Lemma ok_ws_close t c r st st' :
  ws_close t c r st = Some st' -> ok st -> ok st'.
Proof.
  unfold Kernel.ws_close. intros Hc Hok. case_match; simplify_eq.
  apply ok_emit; [|done]. apply ok_upd_socket; [done|].
  intros s. by destruct (readyState s).
Qed.
#[local] Hint Resolve ok_ws_close : auth.

Lemma ok_ws_close_event t e st : ok st -> ok (ws_close_event t e st).
Proof. unfold Kernel.ws_close_event. branches. Qed.
#[local] Hint Resolve ok_ws_close_event : auth.

Lemma ok_store task st : ok st -> ok (store task st).
Proof. unfold store. branches. Qed.
#[local] Hint Resolve ok_store : auth.

Lemma ok_call f st : ok st -> ok (call f st).
Proof. unfold call. branches. Qed.
#[local] Hint Resolve ok_call : auth.

Lemma ok_debounce id f i st : ok st -> ok (debounce id f i st).
Proof. unfold Kernel.debounce. branches. Qed.
#[local] Hint Resolve ok_debounce : auth.

Lemma ok_remove_document doc st : ok st -> ok (remove_document doc st).
Proof. unfold remove_document. branches. Qed.
#[local] Hint Resolve ok_remove_document : auth.

Lemma ok_afterStore task st : ok st -> ok (afterStore task st).
Proof. unfold afterStore. branches. Qed.
#[local] Hint Resolve ok_afterStore : auth.

Lemma ok_onStoreDocument_settled task r st :
  ok st -> ok (onStoreDocument_settled task r st).
Proof. unfold onStoreDocument_settled. branches. Qed.

Lemma ok_afterStoreDocument_settled task r st :
  ok st -> ok (afterStoreDocument_settled task r st).
Proof. unfold afterStoreDocument_settled. branches. Qed.

Lemma ok_handleDocumentUpdate doc origin st :
  ok st -> ok (handleDocumentUpdate doc origin st).
Proof. unfold Kernel.handleDocumentUpdate. branches. Qed.

Lemma ok_onDisconnect_then t doc st : ok st -> ok (onDisconnect_then t doc st).
Proof. unfold Kernel.onDisconnect_then. branches. Qed.

Lemma ok_onClose_setUpNewConnection conn event st :
  ok st -> ok (onClose_setUpNewConnection conn event st).
Proof. unfold Kernel.onClose_setUpNewConnection. branches. Qed.

Lemma ok_Connection_close c event st :
  ok st -> ok (Connection_close c event st).
Proof.
  unfold Kernel.Connection_close, onClose_createConnection.
  pose proof ok_onClose_setUpNewConnection.
  branches.
Qed.
#[local] Hint Resolve ok_Connection_close : auth.

Lemma ok_closeConnections d st : ok st -> ok (closeConnections d st).
Proof.
  unfold Kernel.closeConnections. intros Hok.
  apply fold_left_preserves; [|done].
  intros st' [dn doc] Hok'. repeat case_match; try done.
  all: apply fold_left_preserves; auto with auth.
Qed.
#[local] Hint Resolve ok_closeConnections : auth.

Lemma ok_onConnect_catch t e st : ok st -> ok (onConnect_catch t e st).
Proof. unfold Kernel.onConnect_catch. branches. Qed.

Lemma ok_onAuthenticate_catch t d e st :
  ok st -> ok (onAuthenticate_catch t d e st).
Proof. unfold Kernel.onAuthenticate_catch. branches. Qed.

Lemma ok_permissionDenied_sent t e st :
  ok st -> ok (permissionDenied_sent t e st).
Proof. unfold Kernel.permissionDenied_sent. branches. Qed.

Lemma ok_rejected o t d e st : ok st -> ok (rejected o t d e st).
Proof.
  unfold Kernel.rejected.
  destruct o; auto using ok_onConnect_catch, ok_onAuthenticate_catch.
Qed.
#[local] Hint Resolve ok_rejected : auth.

Lemma ok_handleQueueingMessage t data st :
  ok st -> ok (handleQueueingMessage t data st).
Proof. unfold Kernel.handleQueueingMessage. branches. Qed.
#[local] Hint Resolve ok_handleQueueingMessage : auth.

Lemma ok_messageHandler t data st : ok st -> ok (messageHandler t data st).
Proof. unfold Kernel.messageHandler. branches. Qed.
#[local] Hint Resolve ok_messageHandler : auth.

Lemma ok_emit_message t data st : ok st -> ok (emit_message t data st).
Proof.
  intros Hok. unfold Kernel.emit_message.
  pose proof (ok_messageHandler t data st Hok) as Hok1.
  apply ok_set_trace; [done|].
  intros d x Hin. apply list_elem_of_In, in_concat in Hin as (l & Hl & Hin).
  apply list_elem_of_In, elem_of_lookup_imap in Hl as (c & conn & -> & Hconn).
  unfold Connection_handleMessage in Hin.
  destruct ((socketId conn =? t)%nat) eqn:Ht; [|by apply in_nil in Hin].
  repeat case_match; try (by apply in_nil in Hin).
  destruct Hin as [[= <- <- <-]|[]].
  apply Nat.eqb_eq in Ht. destruct Hok1 as (_ & _ & Hc & _). eauto.
Qed.
#[local] Hint Resolve ok_emit_message : auth.

Lemma ok_createConnection t doc st st' c :
  createConnection t doc st = (st', c) ->
  ok st ->
  (t = t0 ->
   authenticated t0
     (match heap st !! doc with Some D => name D | None => EmptyString end)
     (trace st)) ->
  ok st'.
Proof.
  unfold Kernel.createConnection. intros Hc Hok Hauth.
  assert (ok (set_conns
                (conns st ++
                 [mkConnection t doc
                    (match heap st !! doc with Some D => name D | None => EmptyString end)
                    1]) st)) by (by apply ok_new_connection).
  branches.
Qed.

Lemma ok_createDocument t d o st st' r :
  createDocument t d o st = (st', r) ->
  ok st ->
  registry_ok st ->
  (t = t0 -> authenticated t0 d (trace st)) ->
  ok st'
  /\ (forall doc, r = Some doc ->
        st' = st /\ name <$> heap st !! doc = Some d).
Proof.
  unfold createDocument. intros Hc Hok [_ Hreg] Hauth.
  destruct (Map_get d (documents st)) as [doc|] eqn:Hg; simplify_eq.
  - split; [done|]. intros ? [= <-]. split; [done|].
    by apply Hreg, Map_get_elem.
  - split; [|done]. unfold hooks.
    eapply ok_await_setup; [|done| |].
    + apply ok_emit; [|done]. auto with auth.
    + cbn. by rewrite lookup_app_r, Nat.sub_diag.
    + intros Ht. cbn. by apply authenticated_app, Hauth.
Qed.

Lemma ok_setUpNewConnection t d o st :
  ok st ->
  registry_ok st ->
  (t = t0 -> authenticated t0 d (trace st)) ->
  ok (setUpNewConnection t d o st).
Proof.
  intros Hok Hreg Hauth. unfold setUpNewConnection.
  destruct (createDocument _ _ _ _) as [st2 r] eqn:Hc.
  apply ok_createDocument in Hc as [Hok2 Hr].
  - destruct r as [doc|]; [|done].
    destruct (Hr doc eq_refl) as [-> Hn].
    eapply ok_await_setup; done.
  - auto with auth.
  - by apply registry_ok_upd_socket.
  - done.
Qed.

Lemma ok_onLoadDocument_settled t d doc o r st :
  ok st ->
  name <$> heap st !! doc = Some d ->
  (t = t0 -> authenticated t0 d (trace st)) ->
  ok (onLoadDocument_settled t d doc o r st).
Proof.
  intros Hok Hn Hauth. unfold Kernel.onLoadDocument_settled.
  destruct r; [|auto with auth].
  unfold hooks. eapply ok_await_setup; [|done| |].
  - auto with auth.
  - cbn. by rewrite name_upd_document.
  - intros Ht. cbn. rewrite trace_upd_document.
    by apply authenticated_app, Hauth.
Qed.

Lemma ok_afterLoadDocument_settled t d doc o r st :
  ok st ->
  name <$> heap st !! doc = Some d ->
  (t = t0 -> authenticated t0 d (trace st)) ->
  ok (afterLoadDocument_settled t d doc o r st).
Proof.
  intros Hok Hn Hauth. unfold Kernel.afterLoadDocument_settled.
  destruct r; [|auto with auth].
  eapply ok_await_setup; [|done| |].
  - auto with auth.
  - by rewrite name_upd_document.
  - intros Ht. rewrite trace_upd_document. auto.
Qed.

Lemma ok_replay t d o e st :
  ok st ->
  ok match sockets st !! t ≫= (fun s => incomingMessageQueue s !! d) with
     | Some queue =>
         hooks connected (Some t) d KForget
           (fold_left (fun st' input => emit_message t input st') queue st)
     | None => rejected o t d e st
     end.
Proof.
  intros Hok. case_match; [|auto with auth].
  apply ok_hooks; [|done]. apply fold_left_preserves; auto with auth.
Qed.

Lemma ok_attach t d doc o st :
  ok st ->
  name <$> heap st !! doc = Some d ->
  (t = t0 -> authenticated t0 d (trace st)) ->
  ok (attach t d doc o st).
Proof.
  intros Hok Hn Hauth. unfold Kernel.attach.
  destruct (createConnection t doc st) as [st1 c] eqn:Hc.
  assert (Hok1 : ok st1).
  { eapply ok_createConnection; [done..|].
    destruct (heap st !! doc); simplify_eq/=; auto. }
  apply ok_replay. apply ok_upd_socket; [|done].
  destruct (conns st1 !! c) as [conn|] eqn:Hconn; [|done].
  by eapply ok_same_connection.
Qed.

Lemma ok_onConnect_settled t d r st :
  ok st -> registry_ok st -> ok (onConnect_settled t d r st).
Proof.
  intros Hok Hreg. unfold Kernel.onConnect_settled.
  destruct r; [|by apply ok_onConnect_catch].
  destruct (sockets st !! t) as [s|] eqn:Hs; [|done].
  case_match; [done|].
  apply ok_setUpNewConnection.
  - auto with auth.
  - by apply registry_ok_upd_socket.
  - intros ->. destruct Hok as (Ha & _). rewrite (Ha _ Hs) in *. done.
Qed.

Lemma ok_onAuthenticate_settled t d r st :
  ok st -> registry_ok st -> ok (onAuthenticate_settled t d r st).
Proof.
  intros Hok Hreg. unfold Kernel.onAuthenticate_settled.
  destruct r; [|by apply ok_onAuthenticate_catch].
  apply ok_setUpNewConnection.
  - auto with auth.
  - by apply registry_ok_ws_send, registry_ok_upd_socket.
  - intros ->. cbn. apply elem_of_app. right. apply list_elem_of_here.
Qed.

Lemma ok_settle p k r st :
  ok st ->
  registry_ok st ->
  promises st !! p = Some k ->
  ok (settle k r
        (set_promises (delete p (promises st)) (next_promise st) st)).
Proof.
  intros Hok Hreg Hp.
  pose proof (ok_settled p st Hok) as Hok'.
  pose proof (registry_ok_set_promises (delete p (promises st))
                (next_promise st) st Hreg) as Hreg'.
  destruct Hok as (_ & Hb & _).
  destruct k; cbv beta iota delta [Kernel.settle].
  - by apply ok_onConnect_settled.
  - by apply ok_onAuthenticate_settled.
  - by apply ok_permissionDenied_sent.
  - destruct (Hb _ _ _ _ _ Hp eq_refl). by apply ok_onLoadDocument_settled.
  - destruct (Hb _ _ _ _ _ Hp eq_refl). by apply ok_afterLoadDocument_settled.
  - destruct (Hb _ _ _ _ _ Hp eq_refl). by apply ok_attach.
  - destruct r; [by apply ok_onDisconnect_then|by apply ok_emit].
  - by apply ok_onStoreDocument_settled.
  - by apply ok_afterStoreDocument_settled.
  - destruct r; [done|by apply ok_emit].
Qed.

Hypothesis server_requires :
  Hocuspocus_requiresAuthentication extensions = true.

Lemma ok_step st i :
  ok st ->
  registry_ok st ->
  (forall configuration,
      i = Mutate t0 configuration ->
      requiresAuthentication configuration = true) ->
  ok (step st i).
Proof.
  intros Hok Hreg Hi. destruct i; cbv beta iota delta [Kernel.step].
  - unfold Kernel.handleConnection. case_match; [done|].
    by apply ok_new_socket.
  - by apply ok_emit_message.
  - repeat case_match; try done. by apply ok_settle.
  - destruct (decide (t = t0)) as [->|Hne].
    + destruct Hok as (Ha & Hb & Hc & Hd). split; [|done]. cbn.
      intros s. rewrite lookup_alter. case_decide; [|done].
      destruct (sockets st !! t0); [|done]. cbn. intros [= <-]. cbn. auto.
    + destruct Hok as (Ha & Hb & Hc & Hd). split; [|done]. cbn.
      intros s. rewrite lookup_alter. case_decide; [congruence|auto].
  - by apply ok_set_clock.
  - case_match. by apply ok_call, ok_set_tm.
  - branches.
  - apply fold_left_preserves; [|by apply ok_upd_socket].
    intros. branches.
  - repeat case_match; try done. by apply ok_handleDocumentUpdate.
  - by apply ok_closeConnections.
Qed.

Lemma ok_initial : ok initial.
Proof.
  split; [|split; [|split]]; cbn; try done.
  intros pre post d data Heq. by destruct pre.
Qed.

Lemma ok_run inputs :
  keeps_authentication t0 inputs -> ok (run inputs initial).
Proof.
  intros Hkeep.
  cut (ok (run inputs initial) /\ registry_ok (run inputs initial));
    [tauto|].
  unfold Kernel.run.
  revert Hkeep. generalize initial ok_initial registry_ok_initial.
  induction inputs as [|i inputs IH]; intros st Hok Hreg Hkeep; [done|].
  cbn. apply IH.
  - apply ok_step; [done..|]. intros cfg ->. apply Hkeep, list_elem_of_here.
  - by apply registry_ok_step.
  - intros cfg Hin. by apply Hkeep, list_elem_of_further.
Qed.

End AuthenticationFacts.
End AuthenticationFacts.


Module TraceFacts.
Import Kernel KernelFacts.
Section TraceFacts.
Context {H : Type}.
Variable extensions : list (Extension H).
Variables debounce_ms maxDebounce : Z.
Variable valid_code : Z -> bool.
Variables ResetConnection Unauthorized Forbidden : CloseEvent.

Abbreviation ws_close := (Kernel.ws_close valid_code).
Abbreviation ws_close_event := (Kernel.ws_close_event valid_code).
Abbreviation debounce := (Kernel.debounce debounce_ms maxDebounce).
Abbreviation handleDocumentUpdate :=
  (Kernel.handleDocumentUpdate debounce_ms maxDebounce).
Abbreviation onDisconnect_then :=
  (Kernel.onDisconnect_then debounce_ms maxDebounce).
Abbreviation onClose_setUpNewConnection :=
  (Kernel.onClose_setUpNewConnection valid_code).
Abbreviation Connection_close := (Kernel.Connection_close valid_code).
Abbreviation closeConnections :=
  (Kernel.closeConnections valid_code ResetConnection).
Abbreviation createConnection := (Kernel.createConnection valid_code).
Abbreviation onConnect_catch :=
  (Kernel.onConnect_catch valid_code Unauthorized Forbidden).
Abbreviation onAuthenticate_catch := (Kernel.onAuthenticate_catch Forbidden).
Abbreviation permissionDenied_sent :=
  (Kernel.permissionDenied_sent valid_code Forbidden).
Abbreviation rejected := (Kernel.rejected valid_code Unauthorized Forbidden).
Abbreviation onLoadDocument_settled :=
  (Kernel.onLoadDocument_settled valid_code ResetConnection Unauthorized
     Forbidden).
Abbreviation afterLoadDocument_settled :=
  (Kernel.afterLoadDocument_settled valid_code Unauthorized Forbidden).
Abbreviation handleQueueingMessage :=
  (Kernel.handleQueueingMessage valid_code Unauthorized).
Abbreviation messageHandler := (Kernel.messageHandler valid_code Unauthorized).
Abbreviation emit_message := (Kernel.emit_message valid_code Unauthorized).
Abbreviation attach := (Kernel.attach valid_code Unauthorized Forbidden).
Abbreviation onConnect_settled :=
  (Kernel.onConnect_settled valid_code Unauthorized Forbidden).
Abbreviation onAuthenticate_settled :=
  (Kernel.onAuthenticate_settled Forbidden).
Abbreviation handleConnection := (Kernel.handleConnection extensions).
Abbreviation settle :=
  (Kernel.settle debounce_ms maxDebounce valid_code ResetConnection
     Unauthorized Forbidden).
Abbreviation step :=
  (Kernel.step extensions debounce_ms maxDebounce valid_code ResetConnection
     Unauthorized Forbidden).
Abbreviation run :=
  (Kernel.run extensions debounce_ms maxDebounce valid_code ResetConnection
     Unauthorized Forbidden).
Lemma extends_refl st : extends (trace st) st.
Proof. exists []. by rewrite app_nil_r. Qed.

Lemma extends_frame tr0 st st' :
  trace st' = trace st -> extends tr0 st -> extends tr0 st'.
Proof. intros Ht (evs & He & Hf). exists evs. by rewrite Ht. Qed.

Lemma extends_set_trace tr0 evs st :
  Forall (fun e => is_authenticated_send e = false) evs ->
  extends tr0 st -> extends tr0 (set_trace (trace st ++ evs) st).
Proof.
  intros Hevs (evs0 & He & Hf). exists (evs0 ++ evs). cbn.
  rewrite He, <- app_assoc. split; [done|]. by apply Forall_app.
Qed.

Lemma extends_emit tr0 e st :
  is_authenticated_send e = false -> extends tr0 st -> extends tr0 (emit e st).
Proof. intros He. apply extends_set_trace. by constructor. Qed.

Lemma extends_trans tr0 st st' :
  extends tr0 st -> extends (trace st) st' -> extends tr0 st'.
Proof.
  intros (evs & He & Hf) (evs' & He' & Hf'). exists (evs ++ evs').
  rewrite He', He, <- app_assoc. split; [done|]. by apply Forall_app.
Qed.

Lemma extends_await tr0 k st : extends tr0 st -> extends tr0 (await k st).
Proof. by apply extends_frame. Qed.
Lemma extends_hooks tr0 h t d k st :
  extends tr0 st -> extends tr0 (hooks h t d k st).
Proof. intros. by apply extends_await, extends_emit. Qed.
Lemma extends_upd_socket tr0 t f st :
  extends tr0 st -> extends tr0 (upd_socket t f st).
Proof. by apply extends_frame. Qed.
Lemma extends_set_sockets tr0 v st :
  extends tr0 st -> extends tr0 (set_sockets v st).
Proof. by apply extends_frame. Qed.
Lemma extends_set_documents tr0 v st :
  extends tr0 st -> extends tr0 (set_documents v st).
Proof. by apply extends_frame. Qed.
Lemma extends_set_heap tr0 v st :
  extends tr0 st -> extends tr0 (set_heap v st).
Proof. by apply extends_frame. Qed.
Lemma extends_set_conns tr0 v st :
  extends tr0 st -> extends tr0 (set_conns v st).
Proof. by apply extends_frame. Qed.
Lemma extends_set_tm tr0 v st : extends tr0 st -> extends tr0 (set_tm v st).
Proof. by apply extends_frame. Qed.
Lemma extends_set_clock tr0 v st :
  extends tr0 st -> extends tr0 (set_clock v st).
Proof. by apply extends_frame. Qed.
Lemma extends_set_promises tr0 v n st :
  extends tr0 st -> extends tr0 (set_promises v n st).
Proof. by apply extends_frame. Qed.
Lemma extends_upd_document tr0 doc f st :
  extends tr0 st -> extends tr0 (upd_document doc f st).
Proof.
  unfold upd_document. destruct (heap st !! doc); [|done].
  by apply extends_frame.
Qed.

Create HintDb ext discriminated.
#[local] Hint Resolve extends_emit extends_await extends_hooks
  extends_upd_socket extends_set_sockets extends_set_documents
  extends_set_heap extends_set_conns extends_set_tm extends_set_clock
  extends_set_promises extends_upd_document : ext.

Ltac branches :=
  intros; repeat case_match; simplify_eq; eauto 12 with ext.

Lemma extends_ws_close tr0 t c r st st' :
  ws_close t c r st = Some st' -> extends tr0 st -> extends tr0 st'.
Proof. unfold Kernel.ws_close. branches. Qed.
#[local] Hint Resolve extends_ws_close : ext.

Lemma extends_ws_close_event tr0 t e st :
  extends tr0 st -> extends tr0 (ws_close_event t e st).
Proof. unfold Kernel.ws_close_event. branches. Qed.
#[local] Hint Resolve extends_ws_close_event : ext.

Lemma extends_store tr0 task st : extends tr0 st -> extends tr0 (store task st).
Proof. unfold store. branches. Qed.
#[local] Hint Resolve extends_store : ext.

Lemma extends_call tr0 f st : extends tr0 st -> extends tr0 (call f st).
Proof. unfold call. branches. Qed.
#[local] Hint Resolve extends_call : ext.

Lemma extends_debounce tr0 id f i st :
  extends tr0 st -> extends tr0 (debounce id f i st).
Proof. unfold Kernel.debounce. branches. Qed.
#[local] Hint Resolve extends_debounce : ext.

Lemma extends_remove_document tr0 doc st :
  extends tr0 st -> extends tr0 (remove_document doc st).
Proof. unfold remove_document. branches. Qed.
#[local] Hint Resolve extends_remove_document : ext.

Lemma extends_afterStore tr0 task st :
  extends tr0 st -> extends tr0 (afterStore task st).
Proof. unfold afterStore. branches. Qed.
#[local] Hint Resolve extends_afterStore : ext.

Lemma extends_onStoreDocument_settled tr0 task r st :
  extends tr0 st -> extends tr0 (onStoreDocument_settled task r st).
Proof. unfold onStoreDocument_settled. branches. Qed.

Lemma extends_afterStoreDocument_settled tr0 task r st :
  extends tr0 st -> extends tr0 (afterStoreDocument_settled task r st).
Proof. unfold afterStoreDocument_settled. branches. Qed.

Lemma extends_handleDocumentUpdate tr0 doc origin st :
  extends tr0 st -> extends tr0 (handleDocumentUpdate doc origin st).
Proof. unfold Kernel.handleDocumentUpdate. branches. Qed.

Lemma extends_onDisconnect_then tr0 t doc st :
  extends tr0 st -> extends tr0 (onDisconnect_then t doc st).
Proof. unfold Kernel.onDisconnect_then. branches. Qed.

Lemma extends_Connection_close tr0 c event st :
  extends tr0 st -> extends tr0 (Connection_close c event st).
Proof.
  unfold Kernel.Connection_close, Kernel.onClose_setUpNewConnection,
    onClose_createConnection.
  branches.
Qed.
#[local] Hint Resolve extends_Connection_close : ext.

Lemma extends_closeConnections tr0 d st :
  extends tr0 st -> extends tr0 (closeConnections d st).
Proof.
  unfold Kernel.closeConnections. intros Hok.
  apply (fold_left_preserves (extends tr0)); [|done].
  intros st' [dn doc] Hok'. repeat case_match; try done.
  all: apply (fold_left_preserves (extends tr0)); auto with ext.
Qed.
#[local] Hint Resolve extends_closeConnections : ext.

Lemma extends_createConnection tr0 t doc st st' c :
  createConnection t doc st = (st', c) -> extends tr0 st -> extends tr0 st'.
Proof. unfold Kernel.createConnection. branches. Qed.
#[local] Hint Resolve extends_createConnection : ext.

Lemma extends_permissionDenied_sent tr0 t e st :
  extends tr0 st -> extends tr0 (permissionDenied_sent t e st).
Proof. unfold Kernel.permissionDenied_sent. branches. Qed.

Lemma extends_rejected tr0 o t d e st :
  extends tr0 st -> extends tr0 (rejected o t d e st).
Proof.
  unfold Kernel.rejected, Kernel.onConnect_catch, Kernel.onAuthenticate_catch,
    ws_send.
  branches.
Qed.
#[local] Hint Resolve extends_rejected : ext.

Lemma extends_createDocument tr0 t d o st st' r :
  createDocument t d o st = (st', r) -> extends tr0 st -> extends tr0 st'.
Proof. unfold createDocument. branches. Qed.
#[local] Hint Resolve extends_createDocument : ext.

Lemma extends_setUpNewConnection tr0 t d o st :
  extends tr0 st -> extends tr0 (setUpNewConnection t d o st).
Proof. unfold setUpNewConnection. branches. Qed.
#[local] Hint Resolve extends_setUpNewConnection : ext.

Lemma extends_onLoadDocument_settled tr0 t d doc o r st :
  extends tr0 st -> extends tr0 (onLoadDocument_settled t d doc o r st).
Proof. unfold Kernel.onLoadDocument_settled. branches. Qed.

Lemma extends_afterLoadDocument_settled tr0 t d doc o r st :
  extends tr0 st -> extends tr0 (afterLoadDocument_settled t d doc o r st).
Proof. unfold Kernel.afterLoadDocument_settled. branches. Qed.

Lemma extends_handleQueueingMessage tr0 t data st :
  extends tr0 st -> extends tr0 (handleQueueingMessage t data st).
Proof. unfold Kernel.handleQueueingMessage. branches. Qed.
#[local] Hint Resolve extends_handleQueueingMessage : ext.

Lemma extends_messageHandler tr0 t data st :
  extends tr0 st -> extends tr0 (messageHandler t data st).
Proof. unfold Kernel.messageHandler. branches. Qed.
#[local] Hint Resolve extends_messageHandler : ext.

Lemma delivered_not_authenticated t data st l :
  Forall (fun e => is_authenticated_send e = false)
    (concat (imap (Connection_handleMessage t data st) l)).
Proof.
  apply Forall_forall. intros e Hin.
  apply list_elem_of_In, in_concat in Hin as (l' & Hl & Hin).
  apply list_elem_of_In, elem_of_lookup_imap in Hl as (c & conn & -> & Hconn).
  unfold Connection_handleMessage in Hin.
  case_match; [|by apply in_nil in Hin].
  by destruct Hin as [<-|[]].
Qed.

Lemma extends_emit_message tr0 t data st :
  extends tr0 st -> extends tr0 (emit_message t data st).
Proof.
  intros He. unfold Kernel.emit_message.
  apply extends_set_trace; [apply delivered_not_authenticated|auto with ext].
Qed.
#[local] Hint Resolve extends_emit_message : ext.

Lemma extends_attach tr0 t d doc o st :
  extends tr0 st -> extends tr0 (attach t d doc o st).
Proof.
  intros He. unfold Kernel.attach.
  destruct (createConnection t doc st) as [st1 c] eqn:Hc.
  assert (He1 : extends tr0 st1) by eauto with ext.
  case_match.
  - apply extends_hooks.
    apply (fold_left_preserves (extends tr0)); [auto with ext|].
    branches.
  - branches.
Qed.

Lemma extends_onConnect_settled tr0 t d r st :
  extends tr0 st -> extends tr0 (onConnect_settled t d r st).
Proof.
  unfold Kernel.onConnect_settled, Kernel.onConnect_catch. branches.
Qed.

(** The only place where [Authenticated] is sent. *)
Lemma onAuthenticate_settled_trace t d r st :
  exists evs,
    trace (onAuthenticate_settled t d r st)
    = trace st
      ++ match r with
         | Fulfilled _ => [EvSend t (Authenticated d)]
         | Rejected _ => []
         end ++ evs
    /\ Forall (fun e => is_authenticated_send e = false) evs.
Proof.
  unfold Kernel.onAuthenticate_settled. destruct r as [u|e].
  - match goal with
    | |- context [setUpNewConnection t d ViaAuthenticate ?st1] =>
        destruct (extends_setUpNewConnection (trace st1) t d ViaAuthenticate
                    st1 (extends_refl st1)) as (evs & He & Hf)
    end.
    exists evs. rewrite He. cbn. by rewrite <- app_assoc.
  - destruct (extends_rejected (trace st) ViaAuthenticate t d e st
                (extends_refl st)) as (evs & He & Hf).
    by exists evs.
Qed.

Lemma extends_settle tr0 k r st :
  (forall t d u, k = KOnAuthenticate t d -> r <> Fulfilled u) ->
  extends tr0 st -> extends tr0 (settle k r st).
Proof.
  intros Hk He. destruct k; cbv beta iota delta [Kernel.settle].
  - by apply extends_onConnect_settled.
  - destruct r as [u|e]; [by destruct (Hk _ _ u eq_refl)|].
    by apply (extends_rejected tr0 ViaAuthenticate).
  - by apply extends_permissionDenied_sent.
  - by apply extends_onLoadDocument_settled.
  - by apply extends_afterLoadDocument_settled.
  - by apply extends_attach.
  - destruct r; [by apply extends_onDisconnect_then|by apply extends_emit].
  - by apply extends_onStoreDocument_settled.
  - by apply extends_afterStoreDocument_settled.
  - destruct r; [done|by apply extends_emit].
Qed.

(** A step that does not fulfil an onAuthenticate chain sends no
    [Authenticated]. *)
Lemma step_extends st i :
  fulfils_authentication st i = None -> extends (trace st) (step st i).
Proof.
  intros Hi. pose proof (extends_refl st) as He.
  destruct i; cbv beta iota delta [Kernel.step].
  - unfold Kernel.handleConnection. branches.
  - by apply extends_emit_message.
  - destruct (promises st !! p) as [k|] eqn:Hp; [|done].
    case_match; [|done].
    apply extends_settle; [|by apply extends_set_promises].
    intros t d u -> ->. cbn in Hi. by rewrite Hp in Hi.
  - by apply extends_upd_socket.
  - by apply extends_set_clock.
  - case_match. by apply extends_call, extends_set_tm.
  - branches.
  - apply (fold_left_preserves (extends (trace st)));
      [|by apply extends_upd_socket].
    intros. branches.
  - repeat case_match; try done. by apply extends_handleDocumentUpdate.
  - by apply extends_closeConnections.
Qed.

(** A step that fulfils one sends it first. *)
Lemma step_fulfils st i t d :
  fulfils_authentication st i = Some (t, d) ->
  exists evs,
    trace (step st i) = trace st ++ EvSend t (Authenticated d) :: evs
    /\ Forall (fun e => is_authenticated_send e = false) evs.
Proof.
  intros Hi. destruct i as [| |p [u|e]| | | | | | |]; try done.
  cbn in Hi. destruct (promises st !! p) as [[]|] eqn:Hp; try done.
  injection Hi as -> ->.
  cbv beta iota delta [Kernel.step]. rewrite Hp.
  cbv beta iota delta [can_settle Kernel.settle].
  match goal with
  | |- context [onAuthenticate_settled t d (Fulfilled u) ?st1] =>
      destruct (onAuthenticate_settled_trace t d (Fulfilled u) st1)
        as (evs & He & Hf)
  end.
  exists evs. by rewrite He.
Qed.

Lemma step_prefix st i : trace st `prefix_of` trace (step st i).
Proof.
  destruct (fulfils_authentication st i) as [[t d]|] eqn:Hi.
  - destruct (step_fulfils _ _ _ _ Hi) as (evs & -> & _). by eexists.
  - destruct (step_extends _ _ Hi) as (evs & -> & _). by eexists.
Qed.

Lemma run_prefix inputs st : trace st `prefix_of` trace (run inputs st).
Proof.
  revert st. induction inputs as [|i inputs IH]; intros st; [done|].
  cbn. etrans; [apply step_prefix|apply IH].
Qed.

Lemma run_app inputs1 inputs2 st :
  run (inputs1 ++ inputs2) st = run inputs2 (run inputs1 st).
Proof. unfold Kernel.run. apply fold_left_app. Qed.

(** Whenever [Authenticated] is in the trace, an earlier input fulfilled
    the onAuthenticate chain, at a moment when it was not yet there. *)
Lemma authenticated_was_fulfilled inputs t d :
  authenticated t d (trace (run inputs initial)) ->
  exists inputs1 p r inputs2,
    inputs = inputs1 ++ Settle p (Fulfilled r) :: inputs2
    /\ promises (run inputs1 initial) !! p = Some (KOnAuthenticate t d)
    /\ ~ authenticated t d (trace (run inputs1 initial)).
Proof.
  induction inputs as [|i inputs IH] using rev_ind.
  - intros Ha. by apply elem_of_nil in Ha.
  - rewrite run_app. cbn. intros Ha. unfold authenticated in *.
    destruct (decide (EvSend t (Authenticated d)
                        ∈ trace (run inputs initial))) as [Hb|Hb].
    + destruct (IH Hb) as (i1 & p & r & i2 & -> & Hp & Hn).
      exists i1, p, r, (i2 ++ [i]). by rewrite <- app_assoc.
    + assert (Hi : fulfils_authentication (run inputs initial) i = Some (t, d)).
      { destruct (fulfils_authentication (run inputs initial) i)
          as [[t' d']|] eqn:Hi.
        - destruct (step_fulfils _ _ _ _ Hi) as (evs & He & Hf).
          rewrite He in Ha. apply elem_of_app in Ha as [Ha|Ha]; [done|].
          apply elem_of_cons in Ha as [Ha|Ha]; [by simplify_eq|].
          rewrite Forall_forall in Hf. by specialize (Hf _ Ha).
        - destruct (step_extends _ _ Hi) as (evs & He & Hf).
          rewrite He in Ha. apply elem_of_app in Ha as [Ha|Ha]; [done|].
          rewrite Forall_forall in Hf. by specialize (Hf _ Ha). }
      destruct i as [| |p [u|e]| | | | | | |]; try done.
      cbn in Hi. destruct (promises (run inputs initial) !! p) as [[]|] eqn:Hp;
        try done.
      injection Hi as -> ->.
      by exists inputs, p, u, [].
Qed.

End TraceFacts.
End TraceFacts.


Module EstablishingFacts.
Import Kernel KernelFacts.
Section EstablishingFacts.
Context {H : Type}.
Variable extensions : list (Extension H).
Variables debounce_ms maxDebounce : Z.
Variable valid_code : Z -> bool.
Variables ResetConnection Unauthorized Forbidden : CloseEvent.

Abbreviation ws_close := (Kernel.ws_close valid_code).
Abbreviation ws_close_event := (Kernel.ws_close_event valid_code).
Abbreviation debounce := (Kernel.debounce debounce_ms maxDebounce).
Abbreviation handleDocumentUpdate :=
  (Kernel.handleDocumentUpdate debounce_ms maxDebounce).
Abbreviation onDisconnect_then :=
  (Kernel.onDisconnect_then debounce_ms maxDebounce).
Abbreviation onClose_setUpNewConnection :=
  (Kernel.onClose_setUpNewConnection valid_code).
Abbreviation Connection_close := (Kernel.Connection_close valid_code).
Abbreviation closeConnections :=
  (Kernel.closeConnections valid_code ResetConnection).
Abbreviation createConnection := (Kernel.createConnection valid_code).
Abbreviation onConnect_catch :=
  (Kernel.onConnect_catch valid_code Unauthorized Forbidden).
Abbreviation onAuthenticate_catch := (Kernel.onAuthenticate_catch Forbidden).
Abbreviation permissionDenied_sent :=
  (Kernel.permissionDenied_sent valid_code Forbidden).
Abbreviation rejected := (Kernel.rejected valid_code Unauthorized Forbidden).
Abbreviation onLoadDocument_settled :=
  (Kernel.onLoadDocument_settled valid_code ResetConnection Unauthorized
     Forbidden).
Abbreviation afterLoadDocument_settled :=
  (Kernel.afterLoadDocument_settled valid_code Unauthorized Forbidden).
Abbreviation handleQueueingMessage :=
  (Kernel.handleQueueingMessage valid_code Unauthorized).
Abbreviation messageHandler := (Kernel.messageHandler valid_code Unauthorized).
Abbreviation emit_message := (Kernel.emit_message valid_code Unauthorized).
Abbreviation attach := (Kernel.attach valid_code Unauthorized Forbidden).
Abbreviation onConnect_settled :=
  (Kernel.onConnect_settled valid_code Unauthorized Forbidden).
Abbreviation onAuthenticate_settled :=
  (Kernel.onAuthenticate_settled Forbidden).
Abbreviation handleConnection := (Kernel.handleConnection extensions).
Abbreviation settle :=
  (Kernel.settle debounce_ms maxDebounce valid_code ResetConnection
     Unauthorized Forbidden).
Abbreviation step :=
  (Kernel.step extensions debounce_ms maxDebounce valid_code ResetConnection
     Unauthorized Forbidden).
Abbreviation run :=
  (Kernel.run extensions debounce_ms maxDebounce valid_code ResetConnection
     Unauthorized Forbidden).
Lemma grows_refl st : grows st st.
Proof. intros t d. lia. Qed.

Lemma grows_trans st0 st1 st2 : grows st0 st1 -> grows st1 st2 -> grows st0 st2.
Proof. intros H1 H2 t d. specialize (H1 t d). specialize (H2 t d). lia. Qed.

Lemma count_hook_app h t d tr tr' :
  count_hook h t d (tr ++ tr')
  = (count_hook h t d tr + count_hook h t d tr')%nat.
Proof. unfold count_hook. by rewrite List.filter_app, length_app. Qed.

Lemma count_hook_other h t d e :
  e <> EvHook h (Some t) d -> count_hook h t d [e] = 0%nat.
Proof. intros He. unfold count_hook. cbn. by rewrite bool_decide_false. Qed.

Lemma grows_frame st st' st0 :
  trace st' = trace st ->
  (forall t d, establishing t d st' = establishing t d st) ->
  grows st0 st -> grows st0 st'.
Proof.
  intros Ht He Hg t d. specialize (Hg t d). unfold slack in *.
  by rewrite Ht, He.
Qed.

Lemma slack_emit t d e st :
  slack t d (emit e st)
  = slack t d st
    + Z.of_nat (count_hook onDisconnect t d [e])
    - Z.of_nat (count_hook onAuthenticate t d [e]).
Proof.
  unfold slack.
  change (trace (emit e st)) with (trace st ++ [e]).
  change (establishing t d (emit e st)) with (establishing t d st).
  rewrite !count_hook_app. lia.
Qed.

Lemma grows_emit e st st0 :
  is_authenticate e = false -> grows st0 st -> grows st0 (emit e st).
Proof.
  intros He Hg t d. specialize (Hg t d). rewrite slack_emit.
  rewrite (count_hook_other onAuthenticate) by (intros ->; done).
  lia.
Qed.

Lemma grows_ws_send t m st st0 : grows st0 st -> grows st0 (ws_send t m st).
Proof. by apply grows_emit. Qed.
Lemma grows_await k st st0 : grows st0 st -> grows st0 (await k st).
Proof. by apply grows_frame. Qed.
Lemma grows_hooks h t d k st st0 :
  is_authenticate (EvHook h t d) = false ->
  grows st0 st -> grows st0 (hooks h t d k st).
Proof. intros. by apply grows_await, grows_emit. Qed.
Lemma grows_set_documents v st st0 :
  grows st0 st -> grows st0 (set_documents v st).
Proof. by apply grows_frame. Qed.
Lemma grows_set_heap v st st0 : grows st0 st -> grows st0 (set_heap v st).
Proof. by apply grows_frame. Qed.
Lemma grows_set_conns v st st0 : grows st0 st -> grows st0 (set_conns v st).
Proof. by apply grows_frame. Qed.
Lemma grows_set_tm v st st0 : grows st0 st -> grows st0 (set_tm v st).
Proof. by apply grows_frame. Qed.
Lemma grows_set_clock v st st0 : grows st0 st -> grows st0 (set_clock v st).
Proof. by apply grows_frame. Qed.
Lemma grows_set_promises v n st st0 :
  grows st0 st -> grows st0 (set_promises v n st).
Proof. by apply grows_frame. Qed.

Lemma grows_upd_document doc f st st0 :
  grows st0 st -> grows st0 (upd_document doc f st).
Proof.
  unfold upd_document. destruct (heap st !! doc); [|done].
  by apply grows_frame.
Qed.

Lemma establishing_upd_socket t' f st t d :
  establishing t d (upd_socket t' f st)
  = if decide (t' = t)
    then default false
           (sockets st !! t ≫= fun s => connectionEstablishing (f s) !! d)
    else establishing t d st.
Proof.
  unfold establishing, upd_socket. cbn. rewrite lookup_alter.
  case_decide; [|done]. subst. by destruct (sockets st !! t).
Qed.

(** A change of the socket that leaves [connectionEstablishing] alone. *)
Lemma grows_upd_socket t f st st0 :
  (forall s, connectionEstablishing (f s) = connectionEstablishing s) ->
  grows st0 st -> grows st0 (upd_socket t f st).
Proof.
  intros Hf. apply grows_frame; [done|]. intros t' d.
  rewrite establishing_upd_socket. case_decide; [|done]. subst.
  unfold establishing. destruct (sockets st !! t') as [s|]; [|done].
  cbn. by rewrite Hf.
Qed.

(** [connectionEstablishing[d] = true] *)
Lemma grows_establish t d0 st st0 :
  grows st0 st ->
  grows st0
    (upd_socket t
       (fun s => with_connectionEstablishing
                   (<[d0 := true]> (connectionEstablishing s)) s) st).
Proof.
  intros Hg t' d. specialize (Hg t' d). unfold slack in *.
  change (trace (upd_socket _ _ st)) with (trace st).
  rewrite establishing_upd_socket. case_decide; [|done]. subst.
  unfold establishing in *. destruct (sockets st !! t') as [s|]; [|done].
  cbn in *. destruct (decide (d0 = d)) as [->|Hne].
  - rewrite lookup_insert_eq. cbn.
    destruct (default false (connectionEstablishing s !! d)); lia.
  - by rewrite lookup_insert_ne.
Qed.

Create HintDb est discriminated.
#[local] Hint Resolve grows_emit grows_ws_send grows_await grows_hooks
  grows_set_documents grows_set_heap grows_set_conns grows_set_tm
  grows_set_clock grows_set_promises grows_upd_document grows_upd_socket
  grows_establish : est.

Ltac branches :=
  intros; repeat case_match; simplify_eq; eauto 12 with est.

Lemma grows_ws_close t c r st st' st0 :
  ws_close t c r st = Some st' -> grows st0 st -> grows st0 st'.
Proof.
  unfold Kernel.ws_close. intros Hc Hg. case_match; simplify_eq.
  apply grows_emit; [done|]. apply grows_upd_socket; [|done].
  intros s. by destruct (readyState s).
Qed.
#[local] Hint Resolve grows_ws_close : est.

Lemma grows_ws_close_event t e st st0 :
  grows st0 st -> grows st0 (ws_close_event t e st).
Proof. unfold Kernel.ws_close_event. branches. Qed.
#[local] Hint Resolve grows_ws_close_event : est.

Lemma grows_store task st st0 : grows st0 st -> grows st0 (store task st).
Proof. unfold store. branches. Qed.
#[local] Hint Resolve grows_store : est.

Lemma grows_call f st st0 : grows st0 st -> grows st0 (call f st).
Proof. unfold call. branches. Qed.
#[local] Hint Resolve grows_call : est.

Lemma grows_debounce id f i st st0 :
  grows st0 st -> grows st0 (debounce id f i st).
Proof. unfold Kernel.debounce. branches. Qed.
#[local] Hint Resolve grows_debounce : est.

Lemma grows_remove_document doc st st0 :
  grows st0 st -> grows st0 (remove_document doc st).
Proof. unfold remove_document. branches. Qed.
#[local] Hint Resolve grows_remove_document : est.

Lemma grows_afterStore task st st0 :
  grows st0 st -> grows st0 (afterStore task st).
Proof. unfold afterStore. branches. Qed.
#[local] Hint Resolve grows_afterStore : est.

Lemma grows_onStoreDocument_settled task r st st0 :
  grows st0 st -> grows st0 (onStoreDocument_settled task r st).
Proof. unfold onStoreDocument_settled. branches. Qed.

Lemma grows_afterStoreDocument_settled task r st st0 :
  grows st0 st -> grows st0 (afterStoreDocument_settled task r st).
Proof. unfold afterStoreDocument_settled. branches. Qed.

Lemma grows_handleDocumentUpdate doc origin st st0 :
  grows st0 st -> grows st0 (handleDocumentUpdate doc origin st).
Proof. unfold Kernel.handleDocumentUpdate. branches. Qed.

Lemma grows_onDisconnect_then t doc st st0 :
  grows st0 st -> grows st0 (onDisconnect_then t doc st).
Proof. unfold Kernel.onDisconnect_then. branches. Qed.

Lemma count_hook_same h t d :
  count_hook h t d [EvHook h (Some t) d] = 1%nat.
Proof. unfold count_hook. cbn. by rewrite bool_decide_true. Qed.

Lemma count_hook_one h t d e : (count_hook h t d [e] <= 1)%nat.
Proof. unfold count_hook. cbn. case_bool_decide; cbn; lia. Qed.

(** The two close callbacks of a Connection, one after the other: the
    onDisconnect chain is started before the flag is deleted. *)
Lemma grows_onClose conn event st st0 :
  grows st0 st ->
  grows st0
    (onClose_setUpNewConnection conn event (onClose_createConnection conn st)).
Proof.
  intros Hg. unfold Kernel.onClose_setUpNewConnection.
  set (st2 := onClose_createConnection conn st).
  match goal with
  | |- context [upd_socket ?t ?f st2] => set (st3 := upd_socket t f st2)
  end.
  assert (Hg3 : grows st0 st3).
  { intros t d. specialize (Hg t d).
    assert (Hle : slack t d st <= slack t d st3); [|lia].
    unfold slack. subst st3.
    change (trace (upd_socket _ _ st2)) with (trace st ++ [EvHook onDisconnect (Some (socketId conn)) (documentName conn)]).
    rewrite establishing_upd_socket, !count_hook_app.
    rewrite (count_hook_other onAuthenticate) by done.
    change (establishing t d st2) with (establishing t d st).
    change (sockets st2) with (sockets st).
    destruct (decide (socketId conn = t)) as [<-|Ht]; [|lia].
    unfold establishing.
    destruct (decide (documentName conn = d)) as [<-|Hne].
    - rewrite count_hook_same.
      destruct (sockets st !! socketId conn) as [s|]; [|cbn; lia].
      cbn [mbind option_bind default connectionEstablishing
             with_connectionEstablishing].
      rewrite lookup_delete_eq.
      destruct (default false (connectionEstablishing s !! documentName conn));
        cbn [default id]; lia.
    - destruct (sockets st !! socketId conn) as [s|]; [|cbn; lia].
      cbn [mbind option_bind default connectionEstablishing
             with_connectionEstablishing].
      rewrite lookup_delete_ne by done. lia. }
  clearbody st3. branches.
Qed.

Lemma grows_Connection_close c event st st0 :
  grows st0 st -> grows st0 (Connection_close c event st).
Proof.
  unfold Kernel.Connection_close. intros Hg.
  repeat case_match; try done.
  - by apply grows_onClose, grows_upd_document.
  - unfold onClose_createConnection.
    apply grows_hooks; [done|]. by apply grows_upd_document.
Qed.
#[local] Hint Resolve grows_Connection_close : est.

Lemma grows_closeConnections d st st0 :
  grows st0 st -> grows st0 (closeConnections d st).
Proof.
  unfold Kernel.closeConnections. intros Hok.
  apply (fold_left_preserves (grows st0)); [|done].
  intros st' [dn doc] Hok'. repeat case_match; try done.
  all: apply (fold_left_preserves (grows st0)); auto with est.
Qed.
#[local] Hint Resolve grows_closeConnections : est.

Lemma grows_createConnection t doc st st' c st0 :
  createConnection t doc st = (st', c) -> grows st0 st -> grows st0 st'.
Proof. unfold Kernel.createConnection. branches. Qed.
#[local] Hint Resolve grows_createConnection : est.

Lemma grows_onConnect_catch t e st st0 :
  grows st0 st -> grows st0 (onConnect_catch t e st).
Proof. unfold Kernel.onConnect_catch. branches. Qed.

Lemma grows_onAuthenticate_catch t d e st st0 :
  grows st0 st -> grows st0 (onAuthenticate_catch t d e st).
Proof. unfold Kernel.onAuthenticate_catch. branches. Qed.

Lemma grows_permissionDenied_sent t e st st0 :
  grows st0 st -> grows st0 (permissionDenied_sent t e st).
Proof. unfold Kernel.permissionDenied_sent. branches. Qed.

Lemma grows_rejected o t d e st st0 :
  grows st0 st -> grows st0 (rejected o t d e st).
Proof.
  unfold Kernel.rejected.
  destruct o; auto using grows_onConnect_catch, grows_onAuthenticate_catch.
Qed.
#[local] Hint Resolve grows_rejected : est.

Lemma grows_createDocument t d o st st' r st0 :
  createDocument t d o st = (st', r) -> grows st0 st -> grows st0 st'.
Proof. unfold createDocument. branches. Qed.
#[local] Hint Resolve grows_createDocument : est.

Lemma grows_setUpNewConnection t d o st st0 :
  grows st0 st -> grows st0 (setUpNewConnection t d o st).
Proof. unfold setUpNewConnection. branches. Qed.
#[local] Hint Resolve grows_setUpNewConnection : est.

Lemma grows_onLoadDocument_settled t d doc o r st st0 :
  grows st0 st -> grows st0 (onLoadDocument_settled t d doc o r st).
Proof. unfold Kernel.onLoadDocument_settled. branches. Qed.

Lemma grows_afterLoadDocument_settled t d doc o r st st0 :
  grows st0 st -> grows st0 (afterLoadDocument_settled t d doc o r st).
Proof. unfold Kernel.afterLoadDocument_settled. branches. Qed.

(** Starting the onAuthenticate chain: the flag is set first. *)
Lemma grows_authenticate t d s st st0 :
  sockets st !! t = Some s ->
  default false (connectionEstablishing s !! d) = false ->
  grows st0 st ->
  grows st0
    (upd_socket t
       (fun s => with_connectionEstablishing
                   (<[d := true]> (connectionEstablishing s)) s)
       st)
  /\ grows st0
       (hooks onAuthenticate (Some t) d (KOnAuthenticate t d)
          (upd_socket t
             (fun s => with_connectionEstablishing
                         (<[d := true]> (connectionEstablishing s)) s)
             st)).
Proof.
  intros Hs He Hg. split; [by apply grows_establish|].
  apply grows_await. intros t' d'. specialize (Hg t' d').
  rewrite slack_emit.
  assert (Hle :
    slack t' d' st + Z.of_nat (count_hook onAuthenticate t' d' [EvHook onAuthenticate (Some t) d])
    <= slack t' d'
         (upd_socket t
            (fun s => with_connectionEstablishing
                        (<[d := true]> (connectionEstablishing s)) s) st));
    [|lia].
  unfold slack.
  change (trace (upd_socket _ _ st)) with (trace st).
  rewrite establishing_upd_socket.
  destruct (decide (t = t' /\ d = d')) as [[<- <-]|Hne].
  - rewrite decide_True, count_hook_same by done.
    unfold establishing. rewrite Hs.
    cbn [mbind option_bind default connectionEstablishing
           with_connectionEstablishing].
    rewrite He, lookup_insert_eq. cbn [default id]. lia.
  - rewrite count_hook_other by (intros [= <- <-]; tauto).
    case_decide as Ht; [|lia]. subst t'.
    unfold establishing. rewrite Hs.
    cbn [mbind option_bind default connectionEstablishing
           with_connectionEstablishing].
    rewrite lookup_insert_ne by (intros <-; tauto). lia.
Qed.

Lemma grows_handleQueueingMessage t data st st0 :
  grows st0 st -> grows st0 (handleQueueingMessage t data st).
Proof.
  unfold Kernel.handleQueueingMessage. intros Hg.
  destruct (sockets st !! t) as [s|] eqn:Hs; [|done].
  destruct (readDocumentName data) as [d|]; [|auto with est].
  destruct (readType data) as [ty|]; [|auto with est].
  destruct (bool_decide (ty = Auth)
            && negb (default false (connectionEstablishing s !! d))) eqn:E.
  - apply andb_true_iff in E as [_ E]. apply negb_true_iff in E.
    destruct (grows_authenticate t d s st st0 Hs E Hg) as [H1 H2].
    case_match; [done|auto with est].
  - branches.
Qed.
#[local] Hint Resolve grows_handleQueueingMessage : est.

Lemma grows_messageHandler t data st st0 :
  grows st0 st -> grows st0 (messageHandler t data st).
Proof. unfold Kernel.messageHandler. branches. Qed.
#[local] Hint Resolve grows_messageHandler : est.

Lemma is_authenticate_delivered t data st l :
  Forall (fun e => is_authenticate e = false)
    (concat (imap (Connection_handleMessage t data st) l)).
Proof.
  apply Forall_forall. intros e Hin.
  apply list_elem_of_In, in_concat in Hin as (l' & Hl & Hin).
  apply list_elem_of_In, elem_of_lookup_imap in Hl as (c & conn & -> & Hconn).
  unfold Connection_handleMessage in Hin.
  case_match; [|by apply in_nil in Hin].
  by destruct Hin as [<-|[]].
Qed.

Lemma grows_set_trace evs st st0 :
  Forall (fun e => is_authenticate e = false) evs ->
  grows st0 st -> grows st0 (set_trace (trace st ++ evs) st).
Proof.
  intros Hevs. revert st.
  induction Hevs as [|e evs He Hevs IH]; intros st Hg.
  - rewrite app_nil_r. by destruct st.
  - specialize (IH (emit e st) (grows_emit _ _ _ He Hg)).
    unfold emit in IH. cbn in IH. rewrite <- app_assoc in IH. exact IH.
Qed.

Lemma grows_emit_message t data st st0 :
  grows st0 st -> grows st0 (emit_message t data st).
Proof.
  intros Hg. unfold Kernel.emit_message.
  apply grows_set_trace; [apply is_authenticate_delivered|auto with est].
Qed.
#[local] Hint Resolve grows_emit_message : est.

Lemma grows_attach t d doc o st st0 :
  grows st0 st -> grows st0 (attach t d doc o st).
Proof.
  intros Hg. unfold Kernel.attach.
  destruct (createConnection t doc st) as [st1 c] eqn:Hc.
  assert (Hg1 : grows st0 st1) by eauto with est.
  case_match.
  - apply grows_hooks; [done|].
    apply (fold_left_preserves (grows st0)); [auto with est|].
    branches.
  - branches.
Qed.

Lemma grows_settle k r st st0 : grows st0 st -> grows st0 (settle k r st).
Proof.
  intros Hg. destruct k; cbv beta iota delta [Kernel.settle].
  - unfold Kernel.onConnect_settled. pose proof grows_onConnect_catch.
    branches.
  - unfold Kernel.onAuthenticate_settled.
    pose proof grows_onAuthenticate_catch. branches.
  - by apply grows_permissionDenied_sent.
  - by apply grows_onLoadDocument_settled.
  - by apply grows_afterLoadDocument_settled.
  - by apply grows_attach.
  - destruct r; [by apply grows_onDisconnect_then|by apply grows_emit].
  - by apply grows_onStoreDocument_settled.
  - by apply grows_afterStoreDocument_settled.
  - destruct r; [done|by apply grows_emit].
Qed.

Lemma grows_step st i st0 : grows st0 st -> grows st0 (step st i).
Proof.
  intros Hg. destruct i; cbv beta iota delta [Kernel.step].
  - unfold Kernel.handleConnection.
    destruct (sockets st !! t) as [s|] eqn:Hs; [done|].
    revert Hg. apply grows_frame; [done|]. intros t' d.
    unfold establishing. cbn. rewrite lookup_insert.
    case_decide; [|done]. subst. by rewrite Hs.
  - by apply grows_emit_message.
  - repeat case_match; try done. by apply grows_settle, grows_set_promises.
  - by apply grows_upd_socket.
  - by apply grows_set_clock.
  - case_match. by apply grows_call, grows_set_tm.
  - branches.
  - apply (fold_left_preserves (grows st0)); [|by apply grows_upd_socket].
    intros. branches.
  - repeat case_match; try done. by apply grows_handleDocumentUpdate.
  - by apply grows_closeConnections.
Qed.

Lemma grows_run inputs st : grows st (run inputs st).
Proof.
  unfold Kernel.run. apply (fold_left_preserves (grows st)).
  - intros. by apply grows_step.
  - apply grows_refl.
Qed.

End EstablishingFacts.
End EstablishingFacts.


Module KernelTheorems.
Import Kernel KernelFacts.
Section KernelTheorems.
Context {H : Type}.
Variable extensions : list (Extension H).
Variables debounce_ms maxDebounce : Z.
Variable valid_code : Z -> bool.
Variables ResetConnection Unauthorized Forbidden : CloseEvent.

Abbreviation ws_close := (Kernel.ws_close valid_code).
Abbreviation ws_close_event := (Kernel.ws_close_event valid_code).
Abbreviation debounce := (Kernel.debounce debounce_ms maxDebounce).
Abbreviation handleDocumentUpdate :=
  (Kernel.handleDocumentUpdate debounce_ms maxDebounce).
Abbreviation onDisconnect_then :=
  (Kernel.onDisconnect_then debounce_ms maxDebounce).
Abbreviation onClose_setUpNewConnection :=
  (Kernel.onClose_setUpNewConnection valid_code).
Abbreviation Connection_close := (Kernel.Connection_close valid_code).
Abbreviation closeConnections :=
  (Kernel.closeConnections valid_code ResetConnection).
Abbreviation createConnection := (Kernel.createConnection valid_code).
Abbreviation onConnect_catch :=
  (Kernel.onConnect_catch valid_code Unauthorized Forbidden).
Abbreviation onAuthenticate_catch := (Kernel.onAuthenticate_catch Forbidden).
Abbreviation permissionDenied_sent :=
  (Kernel.permissionDenied_sent valid_code Forbidden).
Abbreviation rejected := (Kernel.rejected valid_code Unauthorized Forbidden).
Abbreviation onLoadDocument_settled :=
  (Kernel.onLoadDocument_settled valid_code ResetConnection Unauthorized
     Forbidden).
Abbreviation afterLoadDocument_settled :=
  (Kernel.afterLoadDocument_settled valid_code Unauthorized Forbidden).
Abbreviation handleQueueingMessage :=
  (Kernel.handleQueueingMessage valid_code Unauthorized).
Abbreviation messageHandler := (Kernel.messageHandler valid_code Unauthorized).
Abbreviation emit_message := (Kernel.emit_message valid_code Unauthorized).
Abbreviation attach := (Kernel.attach valid_code Unauthorized Forbidden).
Abbreviation onConnect_settled :=
  (Kernel.onConnect_settled valid_code Unauthorized Forbidden).
Abbreviation onAuthenticate_settled :=
  (Kernel.onAuthenticate_settled Forbidden).
Abbreviation handleConnection := (Kernel.handleConnection extensions).
Abbreviation settle :=
  (Kernel.settle debounce_ms maxDebounce valid_code ResetConnection
     Unauthorized Forbidden).
Abbreviation step :=
  (Kernel.step extensions debounce_ms maxDebounce valid_code ResetConnection
     Unauthorized Forbidden).
Abbreviation run :=
  (Kernel.run extensions debounce_ms maxDebounce valid_code ResetConnection
     Unauthorized Forbidden).
(** C2, as amended.  On a socket whose [requiresAuthentication] stays
    true (it starts true when an extension defines onAuthenticate, and
    this theorem assumes that no hook switches it off), every message a
    Connection of that socket takes for a document name comes after the
    onAuthenticate chain of the socket for that name was fulfilled: an
    earlier input settled that chain as fulfilled, at a moment when the
    trace had not reached the delivery.  The pieces: the continuation of
    the onConnect chain leaves the state alone when authentication is
    required, and a message that arrives before the Connection exists is
    appended to the queue of its document name. *)
Theorem authentication_before_delivery (inputs : list Input) (t : nat) :
  Hocuspocus_requiresAuthentication extensions = true ->
  keeps_authentication t inputs ->
  (forall pre post d data,
      trace (run inputs initial) = pre ++ EvDeliver t d data :: post ->
      exists inputs1 p r inputs2,
        inputs = inputs1 ++ Settle p (Fulfilled r) :: inputs2
        /\ promises (run inputs1 initial) !! p = Some (KOnAuthenticate t d)
        /\ (length (trace (run inputs1 initial)) < length pre)%nat)
  /\ (forall st s d r,
        sockets st !! t = Some s ->
        requiresAuthentication (connection s) = true ->
        onConnect_settled t d (Fulfilled r) st = st)
  /\ (forall st s d type token rest queue,
        sockets st !! t = Some s ->
        documentConnections s !! d <> Some true ->
        incomingMessageQueue s !! d = Some queue ->
        type <> Auth ->
        messageHandler t (Message d type token rest) st
        = upd_socket t
            (fun s => with_incomingMessageQueue
                        (<[d := queue ++ [Message d type token rest]]>
                           (incomingMessageQueue s)) s)
            st).
Proof.
  intros Hreq Hkeep. split; [|split].
  - intros pre post d data Htrace.
    pose proof (AuthenticationFacts.ok_run extensions debounce_ms maxDebounce
                  valid_code ResetConnection Unauthorized Forbidden t Hreq
                  inputs Hkeep) as (_ & _ & _ & Hd).
    pose proof (Hd _ _ _ _ Htrace) as Hpre.
    assert (Hfull : authenticated t d (trace (run inputs initial))).
    { rewrite Htrace. by apply AuthenticationFacts.authenticated_app. }
    destruct (TraceFacts.authenticated_was_fulfilled extensions debounce_ms
                maxDebounce valid_code ResetConnection Unauthorized Forbidden
                inputs t d Hfull)
      as (inputs1 & p & r & inputs2 & Hsplit & Hp & Hnot).
    exists inputs1, p, r, inputs2. split; [done|]. split; [done|].
    destruct (decide (length (trace (run inputs1 initial)) < length pre)%nat)
      as [|Hge]; [done|].
    exfalso. apply Hnot.
    pose proof (TraceFacts.run_prefix extensions debounce_ms maxDebounce
                  valid_code ResetConnection Unauthorized Forbidden
                  (Settle p (Fulfilled r) :: inputs2)
                  (run inputs1 initial)) as [k Hk].
    rewrite <- TraceFacts.run_app, <- Hsplit, Htrace in Hk.
    apply (f_equal (take (length pre))) in Hk.
    rewrite take_app_length, take_app_le in Hk by lia.
    unfold authenticated in *. rewrite Hk in Hpre.
    by eapply subseteq_take.
  - intros st s d r Hs Hr. unfold Kernel.onConnect_settled.
    by rewrite Hs, Hr.
  - intros st s d type token rest queue Hs Hd Hq Hty.
    unfold Kernel.messageHandler, Kernel.handleQueueingMessage.
    rewrite Hs. cbn. rewrite bool_decide_false by done.
    rewrite Hq, Hs. cbn. rewrite bool_decide_false by done. cbn.
    by rewrite Hq.
Qed.

(** C9, as amended.  For a socket and a document name, the onAuthenticate
    chain is started at most once more often than Connections of that
    socket for that name have closed (each close starts one onDisconnect
    chain and deletes [connectionEstablishing] of the name).  While
    [connectionEstablishing] is set, an Auth message is appended to the
    queue and starts nothing. *)
Theorem authenticate_once_per_establishment (inputs : list Input)
    (t : nat) (d : string) :
  (count_hook onAuthenticate t d (trace (run inputs initial))
   <= count_hook onDisconnect t d (trace (run inputs initial)) + 1)%nat
  /\ (forall st s token rest queue,
        sockets st !! t = Some s ->
        documentConnections s !! d <> Some true ->
        connectionEstablishing s !! d = Some true ->
        incomingMessageQueue s !! d = Some queue ->
        messageHandler t (Message d Auth token rest) st
        = upd_socket t
            (fun s => with_incomingMessageQueue
                        (<[d := queue ++ [Message d Auth token rest]]>
                           (incomingMessageQueue s)) s)
            st).
Proof.
  split.
  - pose proof (EstablishingFacts.grows_run extensions debounce_ms
                  maxDebounce valid_code ResetConnection Unauthorized
                  Forbidden inputs initial t d) as Hg.
    change (slack t d initial) with 0 in Hg. unfold slack in Hg.
    destruct (establishing t d _); lia.
  - intros st s token rest queue Hs Hd He Hq.
    unfold Kernel.messageHandler, Kernel.handleQueueingMessage.
    rewrite Hs. cbn. rewrite bool_decide_false by done.
    rewrite Hq, Hs. cbn. rewrite He. cbn. by rewrite Hq.
Qed.

Lemma debounce_immediately id task st :
  debounce id task true st
  = store task
      (set_tm
         (Debounce.mkTimers
            (delete id (Debounce.timers (tm st)))
            (Debounce.cleared id (tm st))
            (Debounce.next_handle (tm st)))
         st).
Proof.
  unfold Kernel.debounce, Debounce.debounce, Debounce.cleared, Debounce.run,
    Debounce.clearTimeout.
  by destruct (Debounce.timers (tm st) !! id).
Qed.

(** C5, as amended.  When the onDisconnect chain started by the close of
    a Connection is fulfilled and no Connection is attached to the
    Document: if [isLoading] is true at that moment, the Document is
    deleted from the registry and destroyed at once, no onStoreDocument
    chain is started and the timers are not touched; if it is false, the
    timeout of the Document's debounce entry is cleared, the entry is
    deleted and the onStoreDocument chain is started at once, while the
    Document stays registered; it is removed when the afterStoreDocument
    chain that follows is fulfilled and still no Connection is
    attached. *)
Theorem disconnect_of_loading_document
    (st : State) (p t doc : nat) (D : Document) (r : unit) :
  promises st !! p = Some (KOnDisconnect t doc) ->
  heap st !! doc = Some D ->
  connections D = [] ->
  let st' := step st (Settle p (Fulfilled r)) in
  (isLoading D = true ->
     trace st' = trace st ++ [EvDestroy doc]
     /\ documents st' = Map_delete (name D) (documents st)
     /\ destroyed <$> heap st' !! doc = Some true
     /\ tm st' = tm st
     /\ promises st' = delete p (promises st))
  /\ (isLoading D = false ->
       trace st' = trace st ++ [EvHook onStoreDocument (Some t) (name D)]
       /\ documents st' = documents st
       /\ Debounce.timers (tm st')
          = delete (debounce_id (name D)) (Debounce.timers (tm st))
       /\ Debounce.armed (tm st')
          = Debounce.cleared (debounce_id (name D)) (tm st)
       /\ promises st'
          = <[next_promise st :=
                KOnStoreDocument (mkStoreTask LastDisconnect doc (Some t))]>
              (delete p (promises st)))
  /\ (forall st2 D2 r2,
        heap st2 !! doc = Some D2 ->
        connections D2 = [] ->
        let st3 :=
          afterStoreDocument_settled
            (mkStoreTask LastDisconnect doc (Some t)) (Fulfilled r2) st2 in
        trace st3 = trace st2 ++ [EvDestroy doc]
        /\ documents st3 = Map_delete (name D2) (documents st2)).
Proof.
  intros Hp HD Hc st'. subst st'.
  cbv beta iota delta [Kernel.step]. rewrite Hp.
  cbv beta iota delta [can_settle Kernel.settle Kernel.onDisconnect_then].
  cbn [heap set_promises]. rewrite HD, Hc. cbn [length Nat.ltb Nat.leb].
  split; [|split].
  - intros ->. cbn [negb]. unfold remove_document, upd_document.
    cbn. rewrite HD. cbn.
    rewrite list_lookup_insert_eq by (by eapply lookup_lt_Some). done.
  - intros ->. cbn [negb]. rewrite debounce_immediately.
    unfold store, task_name. cbn. by rewrite HD.
  - intros st2 D2 r2 HD2 Hc2. unfold afterStoreDocument_settled.
    cbn [task_document]. unfold Kernel.getConnectionsCount.
    rewrite HD2, Hc2. cbn [length Nat.ltb Nat.leb].
    unfold remove_document, upd_document. cbn. rewrite HD2. cbn. done.
Qed.

(** C6.  When the onStoreDocument chain rejects with an error that has a
    non-empty message, the error is thrown again: nothing catches it and
    the afterStoreDocument chain is not started.  When it rejects
    otherwise, the pipeline goes on exactly as if the chain had been
    fulfilled: the afterStoreDocument chain is started.  This is so for
    the store scheduled by an update and for the one run at the last
    disconnect (the two kinds of [task]). *)
Theorem onStoreDocument_rejection
    (st : State) (p : nat) (task : StoreTask) (error : option Error) :
  promises st !! p = Some (KOnStoreDocument task) ->
  let st' := step st (Settle p (Rejected error)) in
  (has_message error = true ->
     trace st' = trace st ++ [EvUnhandled error]
     /\ promises st' = delete p (promises st)
     /\ documents st' = documents st
     /\ heap st' = heap st)
  /\ (has_message error = false ->
       st' = step st (Settle p (Fulfilled tt))
       /\ trace st'
          = trace st
            ++ [EvHook afterStoreDocument (task_socketId task)
                  (task_name task st)]).
Proof.
  intros Hp st'. subst st'.
  cbv beta iota delta [Kernel.step]. rewrite Hp.
  cbv beta iota delta [can_settle Kernel.settle onStoreDocument_settled].
  split; intros ->; [done|]. split; [done|].
  by destruct task as [[] ? ?].
Qed.

(** C8.  An update without an origin Connection: the onChange chain is
    started and nothing else happens; in particular the timers are as
    before, no onStoreDocument or afterStoreDocument chain is started and
    none is pending. *)
Theorem update_without_origin (st : State) (doc : nat) (D : Document) :
  heap st !! doc = Some D ->
  onUpdate D = true ->
  let st' := step st (Update doc None) in
  st' = handleDocumentUpdate doc None st
  /\ trace st' = trace st ++ [EvHook onChange None (name D)]
  /\ tm st' = tm st
  /\ promises st' = <[next_promise st := KForget]> (promises st)
  /\ documents st' = documents st
  /\ heap st' = heap st.
Proof.
  intros HD Hw st'. subst st'.
  cbv beta iota delta [Kernel.step Kernel.handleDocumentUpdate].
  by rewrite HD, Hw.
Qed.

(** C10.  When a Document is registered under the name, [createDocument]
    returns it and the state is the same as before: no Document is
    constructed, no chain is started, no handler is set, the registry and
    [isLoading] of the Document are as they were.  This does not depend on
    [isLoading]: [setUpNewConnection] only waits for the returned
    Document, and [createConnection] then adds the new Connection to the
    Document whether it is still loading or not. *)
Theorem createDocument_registered
    (st : State) (t : nat) (d : string) (origin : Origin) (doc : nat)
    (D : Document) (s : Socket) :
  Map_get d (documents st) = Some doc ->
  heap st !! doc = Some D ->
  sockets st !! t = Some s ->
  readyState s = Open ->
  createDocument t d origin st = (st, Some doc)
  /\ (let st1 := setUpNewConnection t d origin st in
      trace st1 = trace st
      /\ documents st1 = documents st
      /\ heap st1 = heap st
      /\ tm st1 = tm st
      /\ promises st1
         = <[next_promise st := KCreateDocument t d doc origin]> (promises st))
  /\ (let created := createConnection t doc st in
      created.2 = length (conns st)
      /\ heap created.1
         = <[doc := mkDocument (name D) (isLoading D)
                     (connections D ++ [length (conns st)])
                     (destroyed D) (onUpdate D)]> (heap st)
      /\ documents created.1 = documents st
      /\ trace created.1 = trace st).
Proof.
  intros Hg HD Hs Hopen. split; [|split].
  - unfold createDocument. by rewrite Hg.
  - unfold setUpNewConnection, createDocument. cbn. by rewrite Hg.
  - unfold Kernel.createConnection, upd_document. cbn.
    rewrite HD. cbn. rewrite Hs. cbn. by rewrite Hopen.
Qed.

End KernelTheorems.
End KernelTheorems.


(** ** The concrete runs *)

Module ScenarioFacts.
Import Kernel Scenario.

Ltac concrete_membership Hin :=
  repeat (apply elem_of_cons in Hin as [Hin|Hin]; [by simplify_eq|]);
  by apply elem_of_nil in Hin.

Lemma registry_at_most_one_document_witness :
  let st := run plain closes_while_loading initial in
  createDocument 2 "d" ViaConnect st = (st, Some 0%nat)
  /\ Map_get "d"
       (documents
          (onLoadDocument_settled valid_code ResetConnection Unauthorized
             Forbidden 0 "d" 0 ViaConnect (Rejected None) st))
     = None
  /\ Map_get "e" (documents (createDocument 2 "e" ViaConnect st).1)
     = Some 1%nat.
Proof.
  pose proof (KernelFacts.registry_at_most_one_document plain 2000 10000
                valid_code ResetConnection Unauthorized Forbidden)
    as (Hreach & Hsame & Hnew & Hfail).
  split; [|split].
  - apply Hsame. reflexivity.
  - apply Hfail. apply (Hreach closes_while_loading).
  - destruct (Hnew (run plain closes_while_loading initial) 2%nat
                "e"%string ViaConnect eq_refl) as (_ & Hregistered & _).
    exact Hregistered.
Defined.

Lemma authentication_before_delivery_witness :
  exists inputs1 p r inputs2,
    authenticated_delivery = inputs1 ++ Settle p (Fulfilled r) :: inputs2
    /\ promises (run guarded inputs1 initial) !! p
       = Some (KOnAuthenticate 0 "a")
    /\ (length (trace (run guarded inputs1 initial)) < 5)%nat.
Proof.
  destruct (KernelTheorems.authentication_before_delivery guarded 2000 10000
              valid_code ResetConnection Unauthorized Forbidden
              authenticated_delivery 0) as (Hbefore & _ & _).
  - reflexivity.
  - intros configuration Hin. unfold authenticated_delivery in Hin.
    repeat (apply elem_of_cons in Hin as [Hin|Hin];
            [by simplify_eq|]).
    by apply elem_of_nil in Hin.
  - apply (Hbefore
             [EvHook onConnect (Some 0%nat) "a";
              EvHook onAuthenticate (Some 0%nat) "a";
              EvSend 0 (Authenticated "a");
              EvHook onLoadDocument (Some 0%nat) "a";
              EvHook afterLoadDocument (Some 0%nat) "a"]
             [EvHook connected (Some 0%nat) "a";
              EvDeliver 0 "a" (sync "a")]
             "a"%string (sync "a")).
    reflexivity.
Defined.

(** C2 as it is written fails: an extension defines onAuthenticate, an
    onConnect hook switches [requiresAuthentication] of the socket off, and
    the Connection takes a Sync message although no onAuthenticate chain
    was fulfilled, or even started, for the socket. *)
Lemma delivery_without_authentication :
  Hocuspocus_requiresAuthentication guarded = true
  /\ trace (run guarded authentication_switched_off initial)
     = [EvHook onConnect (Some 0%nat) "d";
        EvHook onLoadDocument (Some 0%nat) "d";
        EvHook afterLoadDocument (Some 0%nat) "d";
        EvDeliver 0 "d" (sync "d");
        EvHook connected (Some 0%nat) "d"]
  /\ count_hook onAuthenticate 0 "d"
       (trace (run guarded authentication_switched_off initial)) = 0%nat
  /\ ~ delivered_after_authenticated 0
         (trace (run guarded authentication_switched_off initial)).
Proof.
  split; [reflexivity|]. split; [reflexivity|]. split; [reflexivity|].
  intros Hd.
  specialize (Hd [EvHook onConnect (Some 0%nat) "d";
                  EvHook onLoadDocument (Some 0%nat) "d";
                  EvHook afterLoadDocument (Some 0%nat) "d"]
                [EvHook connected (Some 0%nat) "d"]
                "d"%string (sync "d") eq_refl).
  unfold authenticated in Hd.
  repeat (apply elem_of_cons in Hd as [Hd|Hd]; [discriminate|]).
  by apply elem_of_nil in Hd.
Qed.

Lemma authenticate_once_per_establishment_witness :
  let st := run guarded [Connect 0; Receive 0 (auth "a")] initial in
  (count_hook onAuthenticate 0 "a"
     (trace (run guarded authenticates_again initial))
   <= count_hook onDisconnect 0 "a"
        (trace (run guarded authenticates_again initial)) + 1)%nat
  /\ messageHandler valid_code Unauthorized 0 (auth "a") st
     = upd_socket 0
         (fun s => with_incomingMessageQueue
                     (<[("a"%string) := [] ++ [auth "a"]]>
                        (incomingMessageQueue s)) s)
         st.
Proof.
  pose proof (KernelTheorems.authenticate_once_per_establishment guarded 2000
                10000 valid_code ResetConnection Unauthorized Forbidden
                authenticates_again 0 "a") as [Hcount Hqueue].
  split; [exact Hcount|].
  eapply Hqueue.
  - reflexivity.
  - discriminate.
  - reflexivity.
  - reflexivity.
Defined.

(** C9 as it is written fails: after the server has closed the Connection
    of the socket for "b", a second Auth message for "b" on the same socket
    starts the onAuthenticate chain a second time. *)
Lemma authenticated_twice :
  count_hook onAuthenticate 0 "b"
    (trace (run guarded authenticates_again initial)) = 2%nat
  /\ count_hook onDisconnect 0 "b"
       (trace (run guarded authenticates_again initial)) = 1%nat.
Proof. split; reflexivity. Qed.

Lemma debounce_spec_witness :
  Debounce.debounce 2000 10000 1500 1501 "onStoreDocument-d" tt false pending
  = (Debounce.mkTimers
       (<["onStoreDocument-d"%string := Debounce.mkTimer 1 1000]>
          (Debounce.timers pending))
       (<[1%nat := Debounce.mkTimeout 3501 "onStoreDocument-d" tt]>
          (Debounce.cleared "onStoreDocument-d" pending))
       2,
     None)
  /\ 1501 + 2000 < 1000 + 10000 + 2000
  /\ Debounce.debounce 2000 10000 11000 11000 "onStoreDocument-d" tt false pending
     = (Debounce.mkTimers
          (delete "onStoreDocument-d"%string (Debounce.timers pending))
          (Debounce.cleared "onStoreDocument-d" pending) 1,
        Some tt).
Proof.
  assert (Hclock : Forall Debounce.clock_ok one_call).
  { repeat constructor. cbn. lia. }
  destruct (DebounceFacts.debounce_spec 2000 10000 one_call 1500 1501
              "onStoreDocument-d" tt Hclock ltac:(lia))
    as (_ & _ & Hlater & _).
  destruct (DebounceFacts.debounce_spec 2000 10000 one_call 11000 11000
              "onStoreDocument-d" tt Hclock ltac:(lia))
    as (_ & Hmax & _ & _).
  split; [|split].
  - apply Hlater. vm_compute. reflexivity.
  - apply Hlater. vm_compute. reflexivity.
  - apply Hmax. vm_compute. discriminate.
Defined.

Lemma disconnect_of_loading_document_witness :
  let st := run plain closes_while_loading initial in
  let st' := run plain [Settle 5 yes] st in
  trace st' = trace st ++ [EvDestroy 0]
  /\ documents st' = []
  /\ tm st' = tm st.
Proof.
  intros st st'.
  destruct (KernelTheorems.disconnect_of_loading_document plain 2000 10000
              valid_code ResetConnection Unauthorized Forbidden
              st 5 1 0 (mkDocument "d" true [] false false) tt
              eq_refl eq_refl eq_refl)
    as (Hloading & _ & _).
  destruct (Hloading eq_refl) as (Htrace & Hdocs & _ & Htm & _).
  split; [exact Htrace|]. split; [exact Hdocs|exact Htm].
Defined.

(** C5 as it is written fails: when the last Connection of "d" closes, the
    Document is still loading; the load finishes before the onDisconnect
    chain does, and the close path then starts the onStoreDocument chain
    for the Document, which stays in the registry. *)
Lemma stored_although_loading_at_close :
  let st := run plain closes_while_loading initial in
  let st' := run plain load_then_disconnect st in
  heap st !! 0%nat = Some (mkDocument "d" true [] false false)
  /\ promises st !! 5%nat = Some (KOnDisconnect 1 0)
  /\ trace st'
     = trace st
       ++ [EvHook afterLoadDocument (Some 0%nat) "d";
           EvHook onStoreDocument (Some 1%nat) "d"]
  /\ documents st' = [("d"%string, 0%nat)]
  /\ destroyed <$> heap st' !! 0%nat = Some false.
Proof. repeat split. Qed.

Lemma onStoreDocument_rejection_witness :
  let st := run plain (closes_while_loading ++ load_then_disconnect) initial in
  let quiet := Some (mkError (Some 4000) None (Some EmptyString)) in
  let loud := Some (mkError None None (Some "disk full"%string)) in
  trace (run plain [Settle 7 (Rejected loud)] st)
  = trace st ++ [EvUnhandled loud]
  /\ run plain [Settle 7 (Rejected quiet)] st = run plain [Settle 7 yes] st
  /\ trace (run plain [Settle 7 (Rejected quiet)] st)
     = trace st ++ [EvHook afterStoreDocument (Some 1%nat) "d"].
Proof.
  intros st quiet loud.
  destruct (KernelTheorems.onStoreDocument_rejection plain 2000 10000
              valid_code ResetConnection Unauthorized Forbidden
              st 7 (mkStoreTask LastDisconnect 0 (Some 1%nat)) loud eq_refl)
    as (Hloud & _).
  destruct (KernelTheorems.onStoreDocument_rejection plain 2000 10000
              valid_code ResetConnection Unauthorized Forbidden
              st 7 (mkStoreTask LastDisconnect 0 (Some 1%nat)) quiet eq_refl)
    as (_ & Hquiet).
  destruct (Hloud eq_refl) as (Htrace & _).
  destruct (Hquiet eq_refl) as (Hsame & Hafter).
  split; [exact Htrace|]. split; [exact Hsame|exact Hafter].
Defined.

(** C7 at an input on which the code departs from it.  A hook rejects with
    the close code 5000, which the socket does not accept.  On the
    onConnect path the kernel then closes the socket with Unauthorized; on
    the onAuthenticate path it closes it with Forbidden. *)
Theorem invalid_close_code_fallbacks :
  trace (run plain onConnect_rejects initial)
  = [EvHook onConnect (Some 0%nat) "d";
     EvCloseThrew 0 (Some 5000);
     EvConsoleError;
     EvClose 0 (Some (ce_code Unauthorized)) (Some (ce_reason Unauthorized))]
  /\ trace (run guarded onAuthenticate_rejects initial)
     = [EvHook onConnect (Some 0%nat) "d";
        EvHook onAuthenticate (Some 0%nat) "d";
        EvSend 0 (PermissionDenied "d" "nope");
        EvCloseThrew 0 (Some 5000);
        EvConsoleError;
        EvClose 0 (Some (ce_code Forbidden)) (Some (ce_reason Forbidden))]
  /\ Unauthorized <> Forbidden.
Proof. repeat split. discriminate. Qed.

Lemma update_without_origin_witness :
  let st := run plain attached initial in
  let st' := run plain [Update 0 None] st in
  trace st' = trace st ++ [EvHook onChange None "d"]
  /\ tm st' = tm st
  /\ promises st' = <[5%nat := KForget]> (promises st).
Proof.
  intros st st'.
  destruct (KernelTheorems.update_without_origin plain 2000 10000
              valid_code ResetConnection Unauthorized Forbidden
              st 0 (mkDocument "d" false [0%nat] false true) eq_refl eq_refl)
    as (_ & Htrace & Htm & Hp & _).
  split; [exact Htrace|]. split; [exact Htm|exact Hp].
Defined.

Lemma createDocument_registered_witness :
  let st := run plain loading initial in
  createDocument 1 "d" ViaConnect st = (st, Some 0%nat)
  /\ isLoading <$> heap st !! 0%nat = Some true
  /\ connections
       <$> heap (createConnection valid_code 1 0 st).1 !! 0%nat
     = Some [0%nat].
Proof.
  intros st.
  destruct (KernelTheorems.createDocument_registered valid_code
              st 1 "d" ViaConnect 0 (mkDocument "d" true [] false false)
              (mkSocket (mkConnectionConfiguration false false false)
                 ∅ ∅ ∅ true Open)
              eq_refl eq_refl eq_refl eq_refl)
    as (Hreturned & _ & _ & Hheap & _).
  split; [exact Hreturned|]. split; [reflexivity|].
  rewrite Hheap. reflexivity.
Defined.

End ScenarioFacts.


(** * More properties *)

Module ParametersFacts.
Import Strings.Ascii Parameters.

Lemma split_pieces_plain (c : ascii) (s : string) :
  occurs c s = false -> split_pieces c s = (s, []).
Proof.
  induction s as [|a s IH]; cbn; [done|].
  intros [Ha Hs]%orb_false_elim. rewrite (IH Hs), Ha. done.
Qed.

Lemma split_pieces_app (c : ascii) (s1 s2 : string) :
  occurs c s1 = false ->
  split_pieces c (s1 +:+ String c s2)
  = (s1, (split_pieces c s2).1 :: (split_pieces c s2).2).
Proof.
  induction s1 as [|a s1 IH]; cbn [occurs].
  - intros _. change (EmptyString +:+ String c s2) with (String c s2).
    cbn [split_pieces]. destruct (split_pieces c s2).
    by rewrite Ascii.eqb_refl.
  - intros [Ha Hs]%orb_false_elim.
    change (String a s1 +:+ String c s2) with (String a (s1 +:+ String c s2)).
    cbn [split_pieces]. rewrite (IH Hs), Ha. done.
Qed.

(** X.  Without a request, without a URL, or when the URL has no question
    mark, [getParameters] builds the parameters from the empty string. *)
Theorem getParameters_without_query (request : option IncomingMessage) :
  match request ≫= url with
  | Some u => occurs "?" u = false
  | None => True
  end ->
  getParameters request = EmptyString.
Proof.
  unfold getParameters, split. destruct (request ≫= url) as [u|]; cbn; [|done].
  intros Hu. by rewrite (split_pieces_plain _ _ Hu).
Qed.

(** X.  The parameters are read from what stands between the first and the
    second question mark of the URL: what follows a second question mark is
    dropped. *)
Theorem getParameters_between_question_marks (path query : string) :
  occurs "?" path = false ->
  occurs "?" query = false ->
  getParameters (Some (mkIncomingMessage (Some (path +:+ String "?" query))))
  = query
  /\ forall rest,
       getParameters
         (Some (mkIncomingMessage
                  (Some (path +:+ String "?" (query +:+ String "?" rest)))))
       = query.
Proof.
  intros Hp Hq. unfold getParameters, split. cbn [mbind option_bind url fmap option_fmap option_map default].
  split; [|intros rest]; rewrite (split_pieces_app _ _ _ Hp).
  - rewrite (split_pieces_plain _ _ Hq). cbn.
    destruct (String.eqb_spec query EmptyString); congruence.
  - rewrite (split_pieces_app _ _ _ Hq). cbn.
    destruct (String.eqb_spec query EmptyString); congruence.
Qed.

End ParametersFacts.

Module ConfigureFacts.
Import Configure.
Section ConfigureFacts.
Context {H : Type}.
Implicit Types (e x y : Extension H) (l : list (Extension H)).
Implicit Types (c : Configuration H) (p : Partial H).

Lemma compare_le x y : (compare x y <=? 0) = (priority_of y <=? priority_of x).
Proof.
  unfold compare, priority_of.
  destruct (default 100 (priority x) >? default 100 (priority y)) eqn:E1;
    destruct (default 100 (priority x) <? default 100 (priority y)) eqn:E2;
    cbn; lia.
Qed.

Lemma insert_Permutation x l : insert compare x l ≡ₚ x :: l.
Proof.
  induction l as [|y l IH]; cbn; [done|].
  destruct (compare x y <=? 0); [done|].
  rewrite IH. apply Permutation_swap.
Qed.

Lemma sort_Permutation l : sort compare l ≡ₚ l.
Proof.
  induction l as [|x l IH]; cbn; [done|].
  fold (sort compare l). by rewrite insert_Permutation, IH.
Qed.

Lemma insert_descending x l : descending l -> descending (insert compare x l).
Proof.
  induction l as [|y l IH]; cbn; [by split|].
  intros [Hy Hl]. rewrite compare_le.
  destruct (priority_of y <=? priority_of x) eqn:E.
  - cbn. split; [|done]. constructor; [lia|].
    eapply Forall_impl; [exact Hy|]. cbn. intros; lia.
  - cbn. split; [|by apply IH].
    rewrite insert_Permutation. constructor; [lia|done].
Qed.

Lemma sort_descending l : descending (sort compare l).
Proof.
  induction l as [|x l IH]; cbn; [done|]. by apply insert_descending.
Qed.

Lemma descending_lookup l (i j : nat) a b :
  descending l -> (i < j)%nat -> l !! i = Some a -> l !! j = Some b ->
  priority_of b <= priority_of a.
Proof.
  revert i j. induction l as [|x l IH]; intros i j Hd Hij Hi Hj; [done|].
  destruct Hd as [Hx Hl].
  destruct j as [|j]; [lia|]. destruct i as [|i]; cbn in *.
  - injection Hi as <-. rewrite Forall_forall in Hx.
    apply Hx. eapply list_elem_of_lookup_2, Hj.
  - apply (IH i j); [done|lia|done|done].
Qed.

Lemma insert_stable (q : Z) x l :
  List.filter (fun e => priority_of e =? q) (insert compare x l)
  = List.filter (fun e => priority_of e =? q) (x :: l).
Proof.
  induction l as [|y l IH]; [done|].
  cbn [insert]. rewrite compare_le.
  destruct (priority_of y <=? priority_of x) eqn:E; [done|].
  cbn [List.filter] in *. rewrite IH.
  destruct (priority_of x =? q) eqn:Ex; [|done].
  destruct (priority_of y =? q) eqn:Ey; [lia|done].
Qed.

Lemma sort_stable (q : Z) l :
  List.filter (fun e => priority_of e =? q) (sort compare l)
  = List.filter (fun e => priority_of e =? q) l.
Proof.
  induction l as [|x l IH]; [done|].
  cbn [sort foldr]. fold (sort compare l).
  rewrite insert_stable. cbn. by rewrite IH.
Qed.

Lemma filter_Permutation (f : Extension H -> bool) l l' :
  l ≡ₚ l' -> List.filter f l ≡ₚ List.filter f l'.
Proof.
  induction 1 as [|x l l' _ IH|x y l|l l' l'' _ IH1 _ IH2]; cbn.
  - done.
  - destruct (f x); by rewrite ?IH.
  - destruct (f x), (f y); try done. apply Permutation_swap.
  - by rewrite IH1.
Qed.

Lemma filter_sort_length (f : Extension H -> bool) l :
  length (List.filter f (sort compare l)) = length (List.filter f l).
Proof. apply Permutation_length, filter_Permutation, sort_Permutation. Qed.

(** X.  [configure] leaves the extensions it was given (those of the
    argument, else those configured before) ordered by descending
    priority, an extension without priority counting as 100, and
    extensions of equal priority in the order they were given; after all
    of them comes one more extension, which carries the hooks of the
    configuration itself. *)
Theorem configure_sorts_extensions p c :
  let given := default (extensions c) (p_extensions p) in
  exists sorted,
    extensions (configure p c) = sorted ++ [own (merge c p)]
    /\ sorted ≡ₚ given
    /\ (forall (i j : nat) a b,
          (i < j)%nat -> sorted !! i = Some a -> sorted !! j = Some b ->
          priority_of b <= priority_of a)
    /\ (forall q,
          List.filter (fun e => priority_of e =? q) sorted
          = List.filter (fun e => priority_of e =? q) given).
Proof.
  intros given. exists (sort compare given). split; [done|].
  split; [apply sort_Permutation|]. split; [|intros q; apply sort_stable].
  intros i j a b. apply descending_lookup, sort_descending.
Qed.

Lemma requiresAuthentication_iff l :
  Hocuspocus_requiresAuthentication l = true
  <-> exists e, e ∈ l /\ defines onAuthenticate e = true.
Proof.
  unfold Hocuspocus_requiresAuthentication.
  destruct (List.find (defines onAuthenticate) l) as [e|] eqn:E.
  - apply List.find_some in E as [Hin He].
    split; [|done]. intros _. exists e. by rewrite list_elem_of_In.
  - split; [done|]. intros (e & Hin & He).
    rewrite list_elem_of_In in Hin.
    by rewrite (List.find_none _ _ E e Hin) in He.
Qed.

Lemma defines_own c n :
  defines n (own c) = true <-> copied n = true /\ is_Some (hook c n).
Proof.
  unfold defines, own. cbn. destruct (copied n); [|by split; [|intros []]].
  destruct (hook c n); split; try done.
  - by intros [_ [? ?]].
Qed.

(** X.  After [configure] the server requires authentication exactly
    when one of the given extensions has an onAuthenticate hook or the
    configuration itself has one.  A server constructed from a
    configuration requires it exactly when that configuration names an
    extension with the hook or gives the hook itself: the configuration
    that the class starts with has none. *)
Theorem configure_requiresAuthentication p c :
  (Hocuspocus_requiresAuthentication (extensions (configure p c)) = true
   <-> (exists e,
          e ∈ default (extensions c) (p_extensions p)
          /\ defines onAuthenticate e = true)
       \/ is_Some (hook (merge c p) onAuthenticate))
  /\ forall noop,
       Hocuspocus_requiresAuthentication
         (extensions (constructor noop (Some p))) = true
       <-> (exists e,
              e ∈ default [] (p_extensions p)
              /\ defines onAuthenticate e = true)
           \/ is_Some (p_hook p onAuthenticate).
Proof.
  assert (Hmain : forall c,
    Hocuspocus_requiresAuthentication (extensions (configure p c)) = true
    <-> (exists e,
           e ∈ default (extensions c) (p_extensions p)
           /\ defines onAuthenticate e = true)
        \/ is_Some (hook (merge c p) onAuthenticate)).
  { intros c'. rewrite requiresAuthentication_iff. cbn [configure extensions].
    split.
    - intros (e & [Hin|Hin]%elem_of_app & He).
      + left. exists e. split; [|done].
        by rewrite <- (sort_Permutation _).
      + apply list_elem_of_singleton in Hin as ->.
        right. by apply defines_own in He as [_ ?].
    - intros [(e & Hin & He)|Hown].
      + exists e. split; [|done]. apply elem_of_app. left.
        by rewrite (sort_Permutation _).
      + exists (own (merge c' p)). split.
        * apply elem_of_app. right. by apply list_elem_of_singleton.
        * by apply defines_own. }
  split; [apply Hmain|]. intros noop. cbn [constructor].
  rewrite Hmain. cbn. destruct (p_hook p onAuthenticate); [|done].
  split; intros _; right; done.
Qed.

(** X.  The extension that [configure] appends has no afterLoadDocument
    hook, also when the configuration gives one: every afterLoadDocument
    handler that [hooks] finds after [configure] belongs to one of the
    given extensions. *)
Theorem configure_afterLoadDocument p c e h :
  e ∈ extensions (configure p c) ->
  handler e afterLoadDocument = Some h ->
  e ∈ default (extensions c) (p_extensions p).
Proof.
  cbn [configure extensions].
  intros [Hin|Hin]%elem_of_app Hh.
  - by rewrite <- (sort_Permutation _).
  - apply list_elem_of_singleton in Hin as ->. done.
Qed.

(** X.  Every call of [configure] appends the hooks of the configuration
    once more, and the extension appended by an earlier call stays in the
    list when the later call does not give extensions: after the second
    call, [hooks] runs a hook of the configuration itself twice. *)
Theorem configure_twice p1 p2 c n h :
  p_extensions p2 = None ->
  copied n = true ->
  hook (merge c p1) n = Some h ->
  length (List.filter (defines n) (extensions (configure p2 (configure p1 c))))
  = (length (List.filter (defines n) (default (extensions c) (p_extensions p1)))
     + 2)%nat.
Proof.
  intros Hp2 Hn Hh.
  assert (H1 : defines n (own (merge c p1)) = true).
  { apply defines_own. by rewrite Hh. }
  assert (H2 : defines n (own (merge (configure p1 c) p2)) = true).
  { apply defines_own. split; [done|]. cbn in Hh |- *.
    destruct (p_hook p2 n); [done|]. by rewrite Hh. }
  assert (Hext : extensions (merge (configure p1 c) p2)
                 = sort compare (default (extensions c) (p_extensions p1))
                   ++ [own (merge c p1)]).
  { unfold merge at 1. cbn [extensions]. by rewrite Hp2. }
  assert (Hall : extensions (configure p2 (configure p1 c))
                 = sort compare (extensions (merge (configure p1 c) p2))
                   ++ [own (merge (configure p1 c) p2)]) by done.
  rewrite Hall, List.filter_app, length_app, filter_sort_length, Hext.
  rewrite List.filter_app, length_app, filter_sort_length.
  cbn [List.filter]. rewrite H1, H2. cbn. lia.
Qed.

(** X.  [listen] sets the port only when its first argument is a number.
    The functions it is given are appended after the configured
    extensions, and nothing is sorted again: they are the last onListen
    handlers that [hooks] runs, the first argument before the second,
    whatever the priorities of the extensions are; no other hook gets a
    handler. *)
Theorem listen_arguments_last a b c :
  port (listen_arguments a b c)
  = match a with Number n => n | _ => port c end
  /\ List.filter (defines onListen) (extensions (listen_arguments a b c))
     = List.filter (defines onListen) (extensions c)
       ++ match a with Function f => [onListen_only f] | _ => [] end
       ++ match b with Function f => [onListen_only f] | _ => [] end
  /\ forall n,
       n <> onListen ->
       List.filter (defines n) (extensions (listen_arguments a b c))
       = List.filter (defines n) (extensions c).
Proof.
  split; [by destruct a, b|]. split.
  - destruct a, b; cbn [listen_arguments push extensions];
      rewrite ?List.filter_app, ?app_nil_r, <- ?app_assoc; done.
  - intros n Hn.
    assert (Hf : forall f : H, defines n (onListen_only f) = false)
      by (intros f; destruct n; done).
    destruct a, b; cbn [listen_arguments push extensions];
      rewrite ?List.filter_app; cbn [List.filter];
      rewrite ?Hf, ?app_nil_r; done.
Qed.

End ConfigureFacts.
End ConfigureFacts.

Module ListenFacts.
Import Hooks Listen.
Section ListenFacts.
Context {W P V : Type}.
Abbreviation Handler := (@Handler W P V).
Abbreviation Callback := (@Callback W V).
Abbreviation St := (@St W).
Abbreviation Promise := (@Promise W).

Variable name : HookName.
Variable payload : P.
Variable callback : option Callback.

Abbreviation chain := (fold_left (link name payload callback)).

(** A chain is run once, on the state it is given. *)
Lemma chain_ext (hs : list (Extension Handler)) :
  forall (p q : Promise (option V)) s s',
    (p s).2 = (q s').2 ->
    is_fulfilled (p s).1 = is_fulfilled (q s').1 ->
    (forall e, (p s).1 = Rejected e -> (q s').1 = Rejected e) ->
    chain hs p s = chain hs q s' \/ hs = [].
Proof.
  induction hs as [|h hs IH]; intros p q s s' Hst Hf Hr; [by right|].
  left. cbn [fold_left].
  assert (Hl : link name payload callback p h s
               = link name payload callback q h s').
  { destruct (p s) as [[v|e] s1] eqn:E1, (q s') as [[v'|e'] s1'] eqn:E2;
      cbn in *; try done; subst s1';
      [|specialize (Hr e eq_refl); simplify_eq];
      unfold link, catch_, then_; destruct callback; rewrite E1, E2; done. }
  destruct (IH (link name payload callback p h) (link name payload callback q h)
              s s') as [Heq | ->]; rewrite ?Hl; done.
Qed.

(** Links added to a rejected chain run nothing, but each of them logs
    the message again. *)
Lemma chain_of_rejected (hs : list (Extension Handler)) :
  forall (p : Promise (option V)) s e s1,
    p s = (Rejected e, s1) ->
    chain hs p s = (Rejected e, console_errors name e (length hs) s1).
Proof.
  induction hs as [|h hs IH]; intros p s e s1 Hp; cbn [fold_left length].
  - rewrite Hp. unfold console_errors.
    destruct (has_message e); [|done]. cbn. rewrite app_nil_r.
    by destruct s1.
  - rewrite (IH (link name payload callback p h) s e
               (@log_and_rethrow W V name e s1).2); last first.
    { unfold link, catch_, then_, log_and_rethrow.
      destruct callback; rewrite Hp; done. }
    unfold console_errors, log_and_rethrow.
    destruct (has_message e); [|done].
    cbn. by rewrite <- app_assoc.
Qed.

(** Links added to a fulfilled chain do not look at its value. *)
Lemma chain_of_fulfilled (hs : list (Extension Handler)) :
  forall (p : Promise (option V)) s v s1,
    p s = (Fulfilled v, s1) ->
    hs <> [] ->
    chain hs p s = chain hs (resolve None) s1.
Proof.
  intros p s v s1 Hp Hhs.
  destruct (chain_ext hs p (resolve None) s s1) as [?|?];
    rewrite ?Hp; cbn; try done.
Qed.

(** X.  Running [hooks] over two lists of extensions one after the other
    is running it over the first and, when that chain is fulfilled, over
    the second on the state the first one left.  When the first chain is
    rejected, no handler of the second list runs, but every extension of
    it that has the hook logs the message of the error once more. *)
Theorem hooks_app (extensions1 extensions2 : list (Extension Handler)) (s : St) :
  hooks (extensions1 ++ extensions2) name payload callback s
  = match hooks extensions1 name payload callback s with
    | (Fulfilled v, s1) =>
        match List.filter (defines name) extensions2 with
        | [] => (Fulfilled v, s1)
        | _ => hooks extensions2 name payload callback s1
        end
    | (Rejected e, s1) =>
        (Rejected e,
         console_errors name e
           (length (List.filter (defines name) extensions2)) s1)
    end.
Proof.
  unfold hooks. rewrite List.filter_app, fold_left_app.
  destruct (chain (List.filter (defines name) extensions1) (resolve None) s)
    as [[v|e] s1] eqn:E1.
  - destruct (List.filter (defines name) extensions2) as [|h hs] eqn:E2.
    + done.
    + by apply (chain_of_fulfilled _ _ _ v).
  - by apply chain_of_rejected.
Qed.

Lemma console_errors_S e (n : nat) (s : St) :
  console_errors name e n (console_errors name e 1 s)
  = console_errors name e (S n) s.
Proof.
  unfold console_errors. destruct (has_message e) eqn:E; [|done].
  cbn. by rewrite <- app_assoc.
Qed.

Lemma hooks_rejecting_handler (extensions : list (Extension Handler)) (s : St)
    pre ext post h v0 s0 e w1 :
  List.filter (defines name) extensions = pre ++ ext :: post ->
  handler ext name = Some h ->
  hooks pre name payload callback s = (Fulfilled v0, s0) ->
  h payload (world s0) = (Rejected e, w1) ->
  hooks extensions name payload callback s
  = (Rejected e,
     console_errors name e (S (length post))
       (mkSt w1 (log s0 ++ [Invoked (ext_label ext) name]))).
Proof.
  intros Hsplit Hh Hpre Hrej.
  assert (Hall : Forall (fun ext => defines name ext = true) pre).
  { pose proof (HooksFacts.filter_defines_Forall name extensions) as HF.
    rewrite Hsplit in HF. by apply Forall_app in HF as [? _]. }
  unfold hooks in *. rewrite Hsplit, fold_left_app.
  rewrite (HooksFacts.filter_all name pre Hall) in Hpre.
  cbn [fold_left]. rewrite <- console_errors_S.
  apply chain_of_rejected.
  set (p := fold_left _ pre _) in *. clearbody p.
  destruct callback;
    unfold link, catch_, then_, invoke, log_and_rethrow, console_errors;
    rewrite Hpre, Hh; cbn; rewrite Hrej;
    destruct (has_message e); done.
Qed.

(** X.  When no extension has the hook, the chain of [hooks] is the
    resolved promise it starts from: it is fulfilled with no value, and
    neither a handler nor the callback is called. *)
Theorem hooks_without_handler (extensions : list (Extension Handler)) (s : St) :
  (forall e, e ∈ extensions -> handler e name = None) ->
  hooks extensions name payload callback s = (Fulfilled None, s).
Proof.
  intros Hnone. unfold hooks.
  replace (List.filter (defines name) extensions) with (@nil (Extension Handler));
    [done|].
  symmetry. induction extensions as [|e l IH]; [done|]. cbn.
  unfold defines at 1. rewrite (Hnone e) by (by left).
  apply IH. intros e' He'. apply Hnone. by right.
Qed.

(** X.  When the handler of an extension rejects after the handlers
    before it have passed, [hooks] rejects with that error on the state
    the handler left.  If the error has a message, [console.error]
    writes it once for that extension and once more for every later
    extension that has the hook, because the [.catch] of each later link
    logs it again; without a message nothing is written. *)
Theorem hooks_rejection_logged (extensions : list (Extension Handler)) (s : St)
    pre ext post h v0 s0 e w1 :
  List.filter (defines name) extensions = pre ++ ext :: post ->
  handler ext name = Some h ->
  hooks pre name payload callback s = (Fulfilled v0, s0) ->
  h payload (world s0) = (Rejected e, w1) ->
  hooks extensions name payload callback s
  = (Rejected e,
     mkSt w1
       (log s0 ++ [Invoked (ext_label ext) name]
        ++ if has_message e
           then repeat (ConsoleError name (default EmptyString (e ≫= message)))
                       (S (length post))
           else [])).
Proof.
  intros Hsplit Hh Hpre Hrej.
  rewrite (hooks_rejecting_handler _ _ _ _ _ _ _ _ _ _ Hsplit Hh Hpre Hrej).
  unfold console_errors. destruct (has_message e); cbn [world log].
  - by rewrite <- app_assoc.
  - by rewrite app_nil_r.
Qed.

End ListenFacts.

Section Listeners.
Context {W P V : Type}.
Variable extensions : list (Extension (@Hooks.Handler W P V)).
Variable payload : P.

Lemma guarded (name : HookName) (action : W -> W) (s : @St W) :
  catch_
    (then_ (hooks extensions name payload None)
       (fun _ s => (Fulfilled tt, mkSt (action (world s)) (log s))))
    rethrow_if_present s
  = match hooks extensions name payload None s with
    | (Fulfilled _, s1) => (Fulfilled tt, mkSt (action (world s1)) (log s1))
    | (Rejected None, s1) => (Fulfilled tt, s1)
    | (Rejected (Some e), s1) => (Rejected (Some e), s1)
    end.
Proof.
  unfold catch_, then_, rethrow_if_present.
  by destruct (hooks extensions name payload None s) as [[v|[e|]] s1].
Qed.

Lemma calls_console_errors (name : HookName) e (n : nat) (s : @St W) :
  world (console_errors name e n s) = world s
  /\ calls (log (console_errors name e n s)) = calls (log s).
Proof.
  unfold console_errors. destruct (has_message e); [|done]. cbn.
  split; [done|]. rewrite HooksFacts.calls_app.
  replace (calls (repeat _ n)) with (@nil (@LogEntry)); [by rewrite app_nil_r|].
  induction n; done.
Qed.

Lemma guarded_rejecting_handler (name : HookName) (action : W -> W) (s : @St W)
    pre ext post h v0 s0 e w1 :
  List.filter (defines name) extensions = pre ++ ext :: post ->
  handler ext name = Some h ->
  hooks pre name payload None s = (Fulfilled v0, s0) ->
  h payload (world s0) = (Rejected e, w1) ->
  exists s',
    catch_
      (then_ (hooks extensions name payload None)
         (fun _ s => (Fulfilled tt, mkSt (action (world s)) (log s))))
      rethrow_if_present s
    = (match e with Some _ => Rejected e | None => Fulfilled tt end, s')
    /\ world s' = w1
    /\ calls (log s') = calls (log s0) ++ [Invoked (ext_label ext) name].
Proof.
  intros Hsplit Hh Hpre Hrej.
  rewrite guarded,
    (hooks_rejecting_handler _ _ _ _ _ _ _ _ _ _ _ _ _ Hsplit Hh Hpre Hrej).
  eexists. split; [by destruct e|].
  destruct (calls_console_errors name e (S (length post))
              (mkSt w1 (log s0 ++ [Invoked (ext_label ext) name])))
    as [-> ->].
  cbn [world log]. by rewrite HooksFacts.calls_app.
Qed.

(** X.  The HTTP server answers a request with the default response
    exactly when the onRequest chain is fulfilled, and then after the
    last handler.  When a handler rejects, the handlers after it do not
    run and nothing is answered; a rejection without a value is
    swallowed, any other is thrown again. *)
Theorem request_listener_default_response (respond : W -> W) (s : @St W) :
  (forall v s1,
      hooks extensions onRequest payload None s = (Fulfilled v, s1) ->
      request_listener extensions payload respond s
      = (Fulfilled tt, mkSt (respond (world s1)) (log s1)))
  /\ (forall pre ext post h v0 s0 e w1,
        List.filter (defines onRequest) extensions = pre ++ ext :: post ->
        handler ext onRequest = Some h ->
        hooks pre onRequest payload None s = (Fulfilled v0, s0) ->
        h payload (world s0) = (Rejected e, w1) ->
        exists s',
          request_listener extensions payload respond s
          = (match e with Some _ => Rejected e | None => Fulfilled tt end, s')
          /\ world s' = w1
          /\ calls (log s')
             = calls (log s0) ++ [Invoked (ext_label ext) onRequest]).
Proof.
  unfold request_listener. split.
  - intros v s1 Hs. by rewrite guarded, Hs.
  - intros. by eapply guarded_rejecting_handler.
Qed.

(** X.  The upgrade of a request to a WebSocket is handed to the
    WebSocket server exactly when the onUpgrade chain is fulfilled.  When
    a handler rejects, the handlers after it do not run and the upgrade
    is not handled; a rejection without a value is swallowed, any other
    is thrown again. *)
Theorem upgrade_listener_handles_upgrade (handleUpgrade : W -> W) (s : @St W) :
  (forall v s1,
      hooks extensions onUpgrade payload None s = (Fulfilled v, s1) ->
      upgrade_listener extensions payload handleUpgrade s
      = (Fulfilled tt, mkSt (handleUpgrade (world s1)) (log s1)))
  /\ (forall pre ext post h v0 s0 e w1,
        List.filter (defines onUpgrade) extensions = pre ++ ext :: post ->
        handler ext onUpgrade = Some h ->
        hooks pre onUpgrade payload None s = (Fulfilled v0, s0) ->
        h payload (world s0) = (Rejected e, w1) ->
        exists s',
          upgrade_listener extensions payload handleUpgrade s
          = (match e with Some _ => Rejected e | None => Fulfilled tt end, s')
          /\ world s' = w1
          /\ calls (log s')
             = calls (log s0) ++ [Invoked (ext_label ext) onUpgrade]).
Proof.
  unfold upgrade_listener. split.
  - intros v s1 Hs. by rewrite guarded, Hs.
  - intros. by eapply guarded_rejecting_handler.
Qed.

End Listeners.
End ListenFacts.

Module StartScreenFacts.
Import Configure StartScreen.
Section StartScreenFacts.
Context {H : Type}.
Variables cyan green : string -> string.
Variable version : string.
Variable constructor_name : Extension H -> option string.
Variable port_to_string : Z -> string.

Abbreviation showStartScreen :=
  (StartScreen.showStartScreen cyan green version constructor_name
     port_to_string).

(** The name under which an extension is listed, if it is. *)
Abbreviation listed e :=
  (negb (String.eqb (default EmptyString (constructor_name e)) EmptyString)
   && negb (String.eqb (default EmptyString (constructor_name e)) "Object")).

Lemma names_filter (l : list (Extension H)) :
  List.filter (fun name => negb (String.eqb name "Object"))
    (List.filter (fun name => negb (String.eqb name EmptyString))
       (map (fun extension => default EmptyString (constructor_name extension)) l))
  = map (fun e => default EmptyString (constructor_name e))
      (List.filter (fun e => listed e) l).
Proof.
  induction l as [|e l IH]; [done|]. cbn.
  destruct (String.eqb (default EmptyString (constructor_name e)) EmptyString);
    cbn; [done|].
  destruct (String.eqb (default EmptyString (constructor_name e)) "Object");
    cbn; [done|]. by rewrite IH.
Qed.

(** X.  The start screen lists the names of the constructors of the
    extensions, without the empty ones and without Object, and ends with
    the line Ready.  When no extension has such a name (as for a server
    that is configured with plain objects only) it stops after the
    WebSocket line: it prints the five lines it prints for a server
    without extensions, and not the line Ready. *)
Theorem showStartScreen_ready (c : Configuration H)
    (bound : option (Z * string)) :
  let without :=
    mkConfiguration (name c) (port c) (address c) (timeout c) (debounce c)
      (maxDebounce c) (quiet c) [] (hook c) in
  ((forall e, e ∈ extensions c -> listed e = false) ->
   showStartScreen c bound = showStartScreen without bound
   /\ length (showStartScreen c bound) = 5%nat)
  /\ (forall e,
        e ∈ extensions c -> listed e = true ->
        showStartScreen c bound
        = showStartScreen without bound
          ++ [EmptyString; "  Extensions:"]
          ++ map (fun e => "  - " +:+ default EmptyString (constructor_name e))
               (List.filter (fun e => listed e) (extensions c))
          ++ [EmptyString; "  " +:+ green "Ready."; EmptyString]).
Proof.
  intros without. unfold StartScreen.showStartScreen.
  rewrite (names_filter (extensions c)). cbn [extensions without].
  cbn [map List.filter length Nat.eqb]. split.
  - intros Hnone.
    replace (List.filter (fun e => listed e) (extensions c))
      with (@nil (Extension H)); [done|].
    symmetry. induction (extensions c) as [|e l IH]; [done|]. cbn.
    rewrite Hnone by (by left). apply IH. intros e' He'. apply Hnone. by right.
  - intros e Hin He.
    assert (Hne : List.filter (fun e => listed e) (extensions c) <> []).
    { intros Hnil.
      assert (Hf : e ∈ List.filter (fun e => listed e) (extensions c)).
      { apply list_elem_of_In, List.filter_In. split; [|done].
        by apply list_elem_of_In. }
      rewrite Hnil in Hf. by apply elem_of_nil in Hf. }
    destruct (List.filter (fun e => listed e) (extensions c)) as [|x xs];
      [done|].
    cbn [map length Nat.eqb]. by rewrite map_map.
Qed.

End StartScreenFacts.
End StartScreenFacts.

Module PendingFacts.
Import Debounce Pending.
Section PendingFacts.
Context {F : Type}.
Variables debounce_ms maxDebounce : Z.

Abbreviation wf := (timers_wf debounce_ms maxDebounce).
Abbreviation debounce := (Debounce.debounce debounce_ms maxDebounce).
Abbreviation after := (Debounce.after debounce_ms maxDebounce).

Lemma recorded_empty : recorded (@empty F).
Proof. intros h t. cbn. by rewrite lookup_empty. Qed.

(** Once the timeout of [id] is cleared, none is left for [id]. *)
Lemma cleared_other (T : Timers F) id h t :
  recorded T -> cleared id T !! h = Some t ->
  run_id t <> id /\ armed T !! h = Some t.
Proof.
  intros Hrec. unfold cleared.
  destruct (timers T !! id) as [o|] eqn:Ho.
  - intros [Hne Ht]%lookup_delete_Some. split; [|done].
    destruct (Hrec _ _ Ht) as (_ & e & He & Hh). congruence.
  - intros Ht. split; [|done].
    destruct (Hrec _ _ Ht) as (_ & e & He & Hh). congruence.
Qed.

Lemma run_idle (T : Timers F) id :
  recorded T ->
  idle id (mkTimers (delete id (timers T)) (cleared id T) (next_handle T)).
Proof.
  intros Hrec. split; cbn; [by rewrite lookup_delete_eq|].
  intros h t Ht. by destruct (cleared_other T id h t Hrec Ht).
Qed.

Lemma run_recorded (T : Timers F) id :
  recorded T ->
  recorded (mkTimers (delete id (timers T)) (cleared id T) (next_handle T)).
Proof.
  intros Hrec h t Ht. cbn in *.
  destruct (cleared_other T id h t Hrec Ht) as [Hne Ht'].
  destruct (Hrec _ _ Ht') as (Hlt & e & He & Hh).
  split; [done|]. exists e. by rewrite lookup_delete_ne.
Qed.

Lemma schedule_recorded (T : Timers F) id start due func :
  recorded T ->
  recorded
    (mkTimers (<[id := mkTimer (next_handle T) start]> (timers T))
       (<[next_handle T := mkTimeout due id func]> (cleared id T))
       (S (next_handle T))).
Proof.
  intros Hrec h t. cbn.
  destruct (decide (next_handle T = h)) as [<-|Hne].
  - rewrite lookup_insert_eq. intros [= <-]. cbn. split; [lia|].
    eexists. by rewrite lookup_insert_eq.
  - rewrite lookup_insert_ne by done. intros Ht.
    destruct (cleared_other T id h t Hrec Ht) as [Hid Ht'].
    destruct (Hrec _ _ Ht') as (Hlt & e & He & Hh).
    split; [lia|]. exists e. by rewrite lookup_insert_ne.
Qed.

Lemma debounce_recorded (T : Timers F) now later id func immediately :
  wf T -> recorded T ->
  recorded (debounce now later id func immediately T).1.
Proof.
  intros Hwf Hrec. rewrite DebounceFacts.debounce_unfold by done.
  destruct (immediately || _); cbn.
  - by apply run_recorded.
  - by apply schedule_recorded.
Qed.

Lemma fire_idle (T : Timers F) h t :
  recorded T -> armed T !! h = Some t ->
  fire h T
  = (mkTimers (delete (run_id t) (timers T)) (delete h (armed T))
       (next_handle T), Some (run_func t))
    /\ idle (run_id t) (fire h T).1.
Proof.
  intros Hrec Ht. unfold fire. rewrite Ht. cbn. split; [done|].
  split; cbn; [by rewrite lookup_delete_eq|].
  intros h' t' Ht' Hid.
  change (delete h (armed T) !! h' = Some t') in Ht'.
  apply lookup_delete_Some in Ht' as [Hne Ht'].
  destruct (Hrec _ _ Ht) as (_ & e & He & Hh).
  destruct (Hrec _ _ Ht') as (_ & e' & He' & Hh').
  congruence.
Qed.

Lemma fire_recorded (T : Timers F) h : recorded T -> recorded (fire h T).1.
Proof.
  intros Hrec. destruct (armed T !! h) as [t|] eqn:Ht.
  - destruct (fire_idle T h t Hrec Ht) as [-> [_ Hidle]]. cbn in *.
    intros h' t' Ht'. pose proof (Hidle _ _ Ht') as Hne.
    change (delete h (armed T) !! h' = Some t') in Ht'.
    apply lookup_delete_Some in Ht' as [_ Ht'].
    destruct (Hrec _ _ Ht') as (Hlt & e & He & Hh).
    split; [done|]. exists e. cbn. by rewrite lookup_delete_ne.
  - unfold fire. by rewrite Ht.
Qed.

Lemma apply_call_invariant (T : Timers F) c :
  clock_ok c -> wf T /\ recorded T ->
  wf (apply_call debounce_ms maxDebounce T c)
  /\ recorded (apply_call debounce_ms maxDebounce T c).
Proof.
  intros Hc [Hwf Hrec]. destruct c; cbn.
  - split; [by apply DebounceFacts.debounce_wf|by apply debounce_recorded].
  - split; [by apply DebounceFacts.fire_wf|by apply fire_recorded].
Qed.

Lemma fold_invariant (calls : list (Call F)) (T : Timers F) :
  Forall clock_ok calls -> wf T /\ recorded T ->
  wf (fold_left (apply_call debounce_ms maxDebounce) calls T)
  /\ recorded (fold_left (apply_call debounce_ms maxDebounce) calls T).
Proof.
  revert T. induction calls as [|c calls IH]; intros T Hok HT; [done|].
  inversion Hok; subst. cbn. apply IH; [done|]. by apply apply_call_invariant.
Qed.

Lemma after_invariant (calls : list (Call F)) :
  Forall clock_ok calls -> wf (after calls) /\ recorded (after calls).
Proof.
  intros Hok. apply fold_invariant; [done|].
  split; [apply DebounceFacts.empty_wf|apply recorded_empty].
Qed.

(** X.  Whatever calls of [debounce] and fired timeouts came before,
    under a clock that never read 0: every timeout that is still armed is
    the one recorded in [this.timers] for its id.  So there is at most
    one armed timeout per id, and a function that a later call for the
    same id has replaced is not run by a timer any more. *)
Theorem debounce_one_timeout_per_id (calls : list (Call F)) :
  Forall clock_ok calls ->
  let T := after calls in
  (forall h t,
      armed T !! h = Some t ->
      exists e, timers T !! run_id t = Some e /\ timeout e = h)
  /\ (forall h h' t t',
        armed T !! h = Some t -> armed T !! h' = Some t' ->
        run_id t = run_id t' -> h = h').
Proof.
  intros Hok T. destruct (after_invariant calls Hok) as [_ Hrec].
  fold T in Hrec. split.
  - intros h t Ht. by destruct (Hrec _ _ Ht).
  - intros h h' t t' Ht Ht' Hid.
    destruct (Hrec _ _ Ht) as (_ & e & He & Hh).
    destruct (Hrec _ _ Ht') as (_ & e' & He' & Hh').
    congruence.
Qed.

(** X.  Whenever [debounce] has the function called at once (an immediate
    call, or [maxDebounce] has passed since the start of the entry),
    nothing stays pending for the id afterwards: the entry is deleted and
    no timeout for the id is armed.  The same holds when the runtime
    fires a timeout, which runs the function the timeout was armed with;
    so a function given to [debounce] is called at most once. *)
Theorem debounce_run_leaves_nothing_pending (calls : list (Call F))
    (now later : Z) (id : string) (fn : F) :
  Forall clock_ok calls ->
  now <> 0 ->
  let T := after calls in
  ((debounce now later id fn true T).2 = Some fn
   /\ idle id (debounce now later id fn true T).1)
  /\ (maxDebounce <= later - start_of id now T ->
      (debounce now later id fn false T).2 = Some fn
      /\ idle id (debounce now later id fn false T).1)
  /\ (forall h t,
        armed T !! h = Some t ->
        (fire h T).2 = Some (run_func t) /\ idle (run_id t) (fire h T).1).
Proof.
  intros Hok Hnow T. destruct (after_invariant calls Hok) as [Hwf Hrec].
  fold T in Hwf, Hrec. split; [|split].
  - rewrite DebounceFacts.debounce_unfold by done. cbn.
    split; [done|]. by apply run_idle.
  - intros Hge. rewrite DebounceFacts.debounce_unfold by done. cbn.
    apply Z.leb_le in Hge. rewrite Hge. cbn.
    split; [done|]. by apply run_idle.
  - intros h t Ht. destruct (fire_idle T h t Hrec Ht) as [Heq Hidle].
    split; [by rewrite Heq|done].
Qed.

(** The entry of [id] during a burst keeps the start of the first call. *)
Lemma burst_keeps_start (l : list (Z * Z * F)) :
  forall (T : Timers F) id h start,
    wf T -> recorded T ->
    timers T !! id = Some (mkTimer h start) ->
    Forall (fun '(_, later, _) => later - start < maxDebounce) l ->
    let T' := fold_left (apply_call debounce_ms maxDebounce) (burst id l) T in
    wf T' /\ recorded T'
    /\ exists h', timers T' !! id = Some (mkTimer h' start).
Proof.
  induction l as [|[[now later] func] l IH]; intros T id h start Hwf Hrec He Hl.
  - cbn. eauto.
  - inversion Hl as [|? ? Hlt Hl']; subst. cbn [burst map fold_left apply_call].
    assert (Hs : start <> 0) by (by destruct Hwf as [H1 _]; destruct (H1 _ _ He)).
    assert (Hstart : start_of id now T = start) by (unfold start_of; by rewrite He).
    assert (Hd : debounce now later id func false T
                 = (mkTimers
                      (<[id := mkTimer (next_handle T) start]> (timers T))
                      (<[next_handle T := mkTimeout (later + debounce_ms) id func]>
                         (cleared id T))
                      (S (next_handle T)), None)).
    { rewrite DebounceFacts.debounce_unfold by done. rewrite Hstart. cbn.
      apply Z.leb_gt in Hlt. by rewrite Hlt. }
    rewrite Hd. cbn [fst].
    apply (IH _ id (next_handle T) start); [| |by cbn; rewrite lookup_insert_eq|done].
    + pose proof (DebounceFacts.schedule_wf debounce_ms maxDebounce
                    T start later id func Hwf Hs) as Hsched.
      assert (Hstart' : start_of id start T = start)
        by (unfold start_of; by rewrite He).
      rewrite Hstart' in Hsched. by apply Hsched.
    + by apply schedule_recorded.
Qed.

(** X.  A burst of calls for one id: the first call finds nothing
    pending for the id and reads the clock as [now0]; the calls that
    follow come less than [maxDebounce] after [now0].  The next call
    then still measures from [now0]: if it comes less than [maxDebounce]
    after it, no function is called, the entry keeps the start [now0],
    and the only timeout armed for the id is a new one that will run the
    function of this call [debounce] milliseconds later; if it comes
    [maxDebounce] or more after [now0], its function is called at once
    and nothing stays pending. *)
Theorem debounce_burst (calls : list (Call F)) (id : string)
    (now0 later0 : Z) (f0 : F) (l : list (Z * Z * F))
    (now later : Z) (fn : F) :
  Forall clock_ok calls ->
  now0 <> 0 ->
  timers (after calls) !! id = None ->
  later0 - now0 < maxDebounce ->
  Forall (fun '(_, later, _) => later - now0 < maxDebounce) l ->
  let T := after (calls ++ Debounced now0 later0 id f0 false :: burst id l) in
  (later - now0 < maxDebounce ->
   exists h T',
     debounce now later id fn false T = (T', None)
     /\ timers T' !! id = Some (mkTimer h now0)
     /\ armed T' !! h = Some (mkTimeout (later + debounce_ms) id fn)
     /\ forall h' t', armed T' !! h' = Some t' -> run_id t' = id -> h' = h)
  /\ (maxDebounce <= later - now0 ->
      (debounce now later id fn false T).2 = Some fn
      /\ idle id (debounce now later id fn false T).1).
Proof.
  intros Hok Hnow0 Hnone Hlt0 Hl T.
  destruct (after_invariant calls Hok) as [Hwf0 Hrec0].
  assert (Hfirst : start_of id now0 (after calls) = now0)
    by (unfold start_of; by rewrite Hnone).
  assert (HT : wf T /\ recorded T
               /\ exists h, timers T !! id = Some (mkTimer h now0)).
  { subst T. unfold Debounce.after. rewrite fold_left_app.
    cbn [fold_left apply_call].
    fold (after calls). rewrite DebounceFacts.debounce_unfold by done.
    rewrite Hfirst. cbn [orb]. apply Z.leb_gt in Hlt0 as Hlt0'. rewrite Hlt0'.
    cbn [fst].
    apply (burst_keeps_start l _ id (next_handle (after calls)) now0);
      [| |by cbn; rewrite lookup_insert_eq|done].
    - rewrite <- Hfirst at 1. apply DebounceFacts.schedule_wf; [done..|].
      by rewrite Hfirst.
    - by apply schedule_recorded. }
  destruct HT as (Hwf & Hrec & h & He).
  assert (Hstart : start_of id now T = now0)
    by (unfold start_of; by rewrite He).
  split.
  - intros Hlt. exists (next_handle T). eexists.
    rewrite DebounceFacts.debounce_unfold by done. rewrite Hstart. cbn [orb].
    apply Z.leb_gt in Hlt as Hlt'. rewrite Hlt'.
    split; [done|]. cbn. rewrite !lookup_insert_eq. split; [done|].
    split; [done|]. intros h' t' Ht' Hid.
    pose proof (schedule_recorded T id now0 (later + debounce_ms) fn Hrec
                  h' t' Ht') as (_ & e & He' & Hh').
    cbn in He'. rewrite Hid, lookup_insert_eq in He'. by simplify_eq.
  - intros Hge. rewrite DebounceFacts.debounce_unfold by done.
    rewrite Hstart. cbn [orb]. apply Z.leb_le in Hge. rewrite Hge. cbn.
    split; [done|]. by apply run_idle.
Qed.

End PendingFacts.
End PendingFacts.

Module HandshakeFacts.
Import Kernel Handshake.
Section HandshakeFacts.
Context {H : Type}.
Variable extensions : list (Extension H).
Variables debounce_ms maxDebounce : Z.
Variable valid_code : Z -> bool.
Variables ResetConnection Unauthorized Forbidden : CloseEvent.

Abbreviation ws_close := (Kernel.ws_close valid_code).
Abbreviation ws_close_event := (Kernel.ws_close_event valid_code).
Abbreviation debounce := (Kernel.debounce debounce_ms maxDebounce).
Abbreviation handleDocumentUpdate :=
  (Kernel.handleDocumentUpdate debounce_ms maxDebounce).
Abbreviation onDisconnect_then :=
  (Kernel.onDisconnect_then debounce_ms maxDebounce).
Abbreviation onClose_setUpNewConnection :=
  (Kernel.onClose_setUpNewConnection valid_code).
Abbreviation Connection_close := (Kernel.Connection_close valid_code).
Abbreviation closeConnections :=
  (Kernel.closeConnections valid_code ResetConnection).
Abbreviation createConnection := (Kernel.createConnection valid_code).
Abbreviation onConnect_catch :=
  (Kernel.onConnect_catch valid_code Unauthorized Forbidden).
Abbreviation onAuthenticate_catch := (Kernel.onAuthenticate_catch Forbidden).
Abbreviation permissionDenied_sent :=
  (Kernel.permissionDenied_sent valid_code Forbidden).
Abbreviation rejected := (Kernel.rejected valid_code Unauthorized Forbidden).
Abbreviation onLoadDocument_settled :=
  (Kernel.onLoadDocument_settled valid_code ResetConnection Unauthorized
     Forbidden).
Abbreviation afterLoadDocument_settled :=
  (Kernel.afterLoadDocument_settled valid_code Unauthorized Forbidden).
Abbreviation handleQueueingMessage :=
  (Kernel.handleQueueingMessage valid_code Unauthorized).
Abbreviation messageHandler := (Kernel.messageHandler valid_code Unauthorized).
Abbreviation emit_message := (Kernel.emit_message valid_code Unauthorized).
Abbreviation attach := (Kernel.attach valid_code Unauthorized Forbidden).
Abbreviation onConnect_settled :=
  (Kernel.onConnect_settled valid_code Unauthorized Forbidden).
Abbreviation onAuthenticate_settled :=
  (Kernel.onAuthenticate_settled Forbidden).
Abbreviation handleConnection := (Kernel.handleConnection extensions).
Abbreviation settle :=
  (Kernel.settle debounce_ms maxDebounce valid_code ResetConnection
     Unauthorized Forbidden).
Abbreviation step :=
  (Kernel.step extensions debounce_ms maxDebounce valid_code ResetConnection
     Unauthorized Forbidden).
Abbreviation run :=
  (Kernel.run extensions debounce_ms maxDebounce valid_code ResetConnection
     Unauthorized Forbidden).

Lemma trace_ws_close_event t e st :
  trace (ws_close_event t e st)
  = trace st
    ++ [if valid_code (ce_code e)
        then EvClose t (Some (ce_code e)) (Some (ce_reason e))
        else EvCloseThrew t (Some (ce_code e))].
Proof.
  unfold Kernel.ws_close_event, Kernel.ws_close.
  by destruct (valid_code (ce_code e)).
Qed.

Lemma frame_ws_close_event t e st :
  documents (ws_close_event t e st) = documents st
  /\ heap (ws_close_event t e st) = heap st
  /\ conns (ws_close_event t e st) = conns st
  /\ promises (ws_close_event t e st) = promises st.
Proof.
  unfold Kernel.ws_close_event, Kernel.ws_close.
  by destruct (valid_code (ce_code e)).
Qed.

(** X.  A message that cannot be decoded makes the listener write to
    [console.error] and close the socket with Unauthorized: these are the
    last two things it does.  It starts no onAuthenticate chain, and the
    registry, the Documents and the Connections stay as they are. *)
Theorem undecodable_message_closes (st : State) (t : nat) (s : Socket)
    (data : Data) :
  sockets st !! t = Some s ->
  undecodable s data ->
  let st' := messageHandler t data st in
  (exists evs,
      trace st'
      = trace st ++ evs
        ++ [EvConsoleError;
            if valid_code (ce_code Unauthorized)
            then EvClose t (Some (ce_code Unauthorized))
                   (Some (ce_reason Unauthorized))
            else EvCloseThrew t (Some (ce_code Unauthorized))]
      /\ Forall (fun e => is_authenticate e = false) evs)
  /\ documents st' = documents st
  /\ heap st' = heap st
  /\ conns st' = conns st.
Proof.
  intros Hs Hdata st'. subst st'.
  unfold Kernel.messageHandler. rewrite Hs.
  destruct data as [bytes|d|d type token rest]; cbn [readDocumentName].
  - rewrite trace_ws_close_event.
    destruct (frame_ws_close_event t Unauthorized (emit EvConsoleError st))
      as (-> & -> & -> & _).
    split; [|done]. exists []. cbn. by rewrite <- app_assoc.
  - cbn in Hdata. rewrite bool_decide_eq_false_2 by done.
    unfold Kernel.handleQueueingMessage.
    destruct (incomingMessageQueue s !! d) as [q|] eqn:Hq.
    + rewrite Hs. cbn [readDocumentName readType].
      rewrite trace_ws_close_event.
      destruct (frame_ws_close_event t Unauthorized (emit EvConsoleError st))
        as (-> & -> & -> & _).
      split; [|done]. exists []. cbn. by rewrite <- app_assoc.
    + cbn [hooks await emit upd_socket set_sockets set_trace set_promises sockets].
      rewrite lookup_alter_eq, Hs. cbn [fmap option_fmap option_map
        readDocumentName readType].
      rewrite trace_ws_close_event.
      match goal with
      | |- context [ws_close_event t Unauthorized ?x] =>
          destruct (frame_ws_close_event t Unauthorized x) as (-> & -> & -> & _)
      end.
      split; [|done]. exists [EvHook onConnect (Some t) d]. cbn.
      rewrite <- !app_assoc. split; [done|]. by constructor.
  - destruct Hdata as (Hatt & -> & Hest & ->).
    rewrite bool_decide_eq_false_2 by done.
    unfold Kernel.handleQueueingMessage.
    destruct (incomingMessageQueue s !! d) as [q|] eqn:Hq.
    + rewrite Hs. cbn [readDocumentName readType readToken].
      rewrite Hest. cbn [negb andb]. rewrite bool_decide_eq_true_2 by done.
      cbn [andb]. rewrite trace_ws_close_event.
      match goal with
      | |- context [ws_close_event t Unauthorized ?x] =>
          destruct (frame_ws_close_event t Unauthorized x) as (-> & -> & -> & _)
      end.
      split; [|done]. exists []. cbn. by rewrite <- app_assoc.
    + cbn [hooks await emit upd_socket set_sockets set_trace set_promises sockets].
      rewrite lookup_alter_eq, Hs. cbn [fmap option_fmap option_map
        readDocumentName readType readToken with_incomingMessageQueue
        connectionEstablishing].
      rewrite Hest. cbn [negb andb]. rewrite bool_decide_eq_true_2 by done.
      cbn [andb]. rewrite trace_ws_close_event.
      match goal with
      | |- context [ws_close_event t Unauthorized ?x] =>
          destruct (frame_ws_close_event t Unauthorized x) as (-> & -> & -> & _)
      end.
      split; [|done]. exists [EvHook onConnect (Some t) d]. cbn.
      rewrite <- !app_assoc. split; [done|]. by constructor.
Qed.

Lemma settle_rejected p k e st :
  promises st !! p = Some k ->
  (forall t d doc o, k <> KCreateDocument t d doc o) ->
  step st (Settle p (Rejected e))
  = settle k (Rejected e)
      (set_promises (delete p (promises st)) (next_promise st) st).
Proof.
  intros Hp Hk. cbv beta iota delta [Kernel.step]. rewrite Hp.
  destruct k; try done. by destruct (Hk socketId0 documentName0 doc origin).
Qed.

Lemma denied_catch t d e st :
  let error := default (as_error Forbidden) e in
  last (trace (onAuthenticate_catch t d e st))
  = Some (EvSend t
            (PermissionDenied d
               (default "permission-denied"%string (reason error))))
  /\ promises (onAuthenticate_catch t d e st) !! next_promise st
     = Some (KPermissionDenied t error).
Proof.
  unfold Kernel.onAuthenticate_catch, await, ws_send, emit. cbn.
  by rewrite last_snoc, lookup_insert_eq.
Qed.

(** X.  When the onAuthenticate chain of a socket for a document name is
    rejected, or the loading of the Document fails after it had passed,
    the last thing the server does is to send PermissionDenied for that
    name, with the reason of the error, with the reason of Forbidden when
    the rejection has no value, and with permission-denied when the error
    has no reason; the close is left to the callback of [send].  That
    callback closes the socket, with the code and the reason of the error
    and those of Forbidden for what is missing, only when no document is
    attached to the socket: other documents on the same socket stay
    connected. *)
Theorem rejection_sends_permission_denied (st : State) (p : nat) (k : Kont)
    (t : nat) (d : string) (e : option Error) :
  promises st !! p = Some k ->
  denies k = Some (t, d) ->
  let error := default (as_error Forbidden) e in
  let st1 := step st (Settle p (Rejected e)) in
  last (trace st1)
  = Some (EvSend t
            (PermissionDenied d
               (default "permission-denied"%string (reason error))))
  /\ (exists p', promises st1 !! p' = Some (KPermissionDenied t error))
  /\ forall st2 p2 r s2,
       promises st2 !! p2 = Some (KPermissionDenied t error) ->
       sockets st2 !! t = Some s2 ->
       let st3 := step st2 (Settle p2 r) in
       (documentConnections s2 <> ∅ ->
        trace st3 = trace st2 /\ sockets st3 = sockets st2)
       /\ (documentConnections s2 = ∅ ->
           valid_code (default (ce_code Forbidden) (code error)) = true ->
           trace st3
           = trace st2
             ++ [EvClose t (Some (default (ce_code Forbidden) (code error)))
                   (Some (default (ce_reason Forbidden) (reason error)))]).
Proof.
  intros Hp Hk error st1.
  assert (Hst1 : exists X, st1 = onAuthenticate_catch t d e X).
  { subst st1. rewrite (settle_rejected p k e st Hp) by (by destruct k).
    destruct k; try done; cbn in Hk.
    - simplify_eq. by eexists.
    - destruct origin; simplify_eq. by eexists.
    - destruct origin; simplify_eq. by eexists. }
  destruct Hst1 as [X ->].
  destruct (denied_catch t d e X) as [Hlast Hprom].
  split; [done|]. split; [by eexists|].
  intros st2 p2 r s2 Hp2 Hs2 st3. subst st3.
  cbv beta iota delta [Kernel.step]. rewrite Hp2. cbn [can_settle Kernel.settle].
  unfold Kernel.permissionDenied_sent. cbn [sockets set_promises].
  rewrite Hs2. split.
  - intros Hne. by rewrite bool_decide_eq_false_2.
  - intros Hempty Hvalid. rewrite bool_decide_eq_true_2 by done.
    unfold Kernel.ws_close. by rewrite Hvalid.
Qed.

(** X.  When the onConnect chain of a socket is rejected, or the loading
    of the Document fails after it had passed without authentication,
    the socket is closed with the code and the reason of the error, and
    with those of Forbidden for what is missing or when the rejection has
    no value.  Unlike after a failed authentication, nothing is sent
    before, and the socket is closed whether or not other documents are
    attached to it. *)
Theorem rejection_closes_socket (st : State) (p : nat) (k : Kont) (t : nat)
    (e : option Error) :
  promises st !! p = Some k ->
  refuses k = Some t ->
  let error := default (as_error Forbidden) e in
  valid_code (default (ce_code Forbidden) (code error)) = true ->
  last (trace (step st (Settle p (Rejected e))))
  = Some (EvClose t (Some (default (ce_code Forbidden) (code error)))
            (Some (default (ce_reason Forbidden) (reason error)))).
Proof.
  intros Hp Hk error Hvalid.
  assert (Hst1 : exists X,
             step st (Settle p (Rejected e)) = onConnect_catch t e X).
  { rewrite (settle_rejected p k e st Hp) by (by destruct k).
    destruct k; try done; cbn in Hk.
    - simplify_eq. by eexists.
    - destruct origin; simplify_eq. by eexists.
    - destruct origin; simplify_eq. by eexists. }
  destruct Hst1 as [X ->].
  unfold Kernel.onConnect_catch, Kernel.ws_close. fold error.
  rewrite Hvalid. cbn. by rewrite last_snoc.
Qed.

(** X.  [createConnection] on a socket that is already closing or closed
    closes the new Connection at once: the Connection is not left in the
    set of the Document, and the onDisconnect chain is started for it;
    the close callback of [setUpNewConnection] is not registered yet and
    does not run.  On another socket the Connection is added to the
    Document and nothing else happens. *)
Theorem createConnection_on_closed_socket (st : State) (t doc : nat)
    (D : Document) (s : Socket) :
  heap st !! doc = Some D ->
  sockets st !! t = Some s ->
  let st' := (createConnection t doc st).1 in
  let c := (createConnection t doc st).2 in
  c = length (conns st)
  /\ conns st' !! c = Some (mkConnection t doc (name D) 1)
  /\ (readyState s = Closing \/ readyState s = Closed ->
      connections <$> heap st' !! doc
      = Some (List.filter (fun c' => negb (Nat.eqb c' c)) (connections D))
      /\ trace st' = trace st ++ [EvHook onDisconnect (Some t) (name D)]
      /\ promises st' !! next_promise st = Some (KOnDisconnect t doc)
      /\ sockets st' = sockets st)
  /\ (readyState s = Connecting \/ readyState s = Open ->
      connections <$> heap st' !! doc = Some (connections D ++ [c])
      /\ trace st' = trace st
      /\ promises st' = promises st).
Proof.
  intros HD Hs st' c. subst st' c.
  assert (Hlen : (doc < length (heap st))%nat) by (by eapply lookup_lt_Some).
  unfold Kernel.createConnection. rewrite HD.
  cbn [fst snd]. split; [done|].
  unfold upd_document. cbn [heap set_conns]. rewrite HD.
  cbn [sockets set_heap set_conns heap conns]. rewrite Hs. cbn [fmap option_fmap option_map].
  destruct (readyState s) eqn:Hr.
  - cbn. split; [by rewrite lookup_app_r, Nat.sub_diag|].
    split; [by intros [?|?]|]. intros _.
    by rewrite list_lookup_insert_eq.
  - cbn. split; [by rewrite lookup_app_r, Nat.sub_diag|].
    split; [by intros [?|?]|]. intros _.
    by rewrite list_lookup_insert_eq.
  - unfold Kernel.Connection_close. cbn [conns set_heap set_conns heap].
    rewrite lookup_app_r, Nat.sub_diag by done. cbn [lookup list_lookup document].
    rewrite list_lookup_insert_eq by done.
    rewrite bool_decide_eq_true_2
      by (cbn; apply elem_of_app; right; by apply list_elem_of_singleton).
    cbn [onClose Nat.leb].
    unfold onClose_createConnection, hooks, await, emit, upd_document.
    cbn [heap set_heap set_conns conns]. rewrite list_lookup_insert_eq by done.
    cbn. rewrite list_lookup_insert_eq by (by rewrite length_insert).
    rewrite lookup_app_r, Nat.sub_diag by done. split; [done|].
    split; [|by intros [?|?]]. intros _.
    rewrite lookup_insert_eq, List.filter_app. cbn.
    by rewrite Nat.eqb_refl, app_nil_r.
  - unfold Kernel.Connection_close. cbn [conns set_heap set_conns heap].
    rewrite lookup_app_r, Nat.sub_diag by done. cbn [lookup list_lookup document].
    rewrite list_lookup_insert_eq by done.
    rewrite bool_decide_eq_true_2
      by (cbn; apply elem_of_app; right; by apply list_elem_of_singleton).
    cbn [onClose Nat.leb].
    unfold onClose_createConnection, hooks, await, emit, upd_document.
    cbn [heap set_heap set_conns conns]. rewrite list_lookup_insert_eq by done.
    cbn. rewrite list_lookup_insert_eq by (by rewrite length_insert).
    rewrite lookup_app_r, Nat.sub_diag by done. split; [done|].
    split; [|by intros [?|?]]. intros _.
    rewrite lookup_insert_eq, List.filter_app. cbn.
    by rewrite Nat.eqb_refl, app_nil_r.
Qed.

End HandshakeFacts.
End HandshakeFacts.

Module ReplayFacts.
Import Kernel.
Section ReplayFacts.
Context {H : Type}.
Variable extensions : list (Extension H).
Variables debounce_ms maxDebounce : Z.
Variable valid_code : Z -> bool.
Variables ResetConnection Unauthorized Forbidden : CloseEvent.

Abbreviation ws_close := (Kernel.ws_close valid_code).
Abbreviation ws_close_event := (Kernel.ws_close_event valid_code).
Abbreviation debounce := (Kernel.debounce debounce_ms maxDebounce).
Abbreviation handleDocumentUpdate :=
  (Kernel.handleDocumentUpdate debounce_ms maxDebounce).
Abbreviation onDisconnect_then :=
  (Kernel.onDisconnect_then debounce_ms maxDebounce).
Abbreviation onClose_setUpNewConnection :=
  (Kernel.onClose_setUpNewConnection valid_code).
Abbreviation Connection_close := (Kernel.Connection_close valid_code).
Abbreviation closeConnections :=
  (Kernel.closeConnections valid_code ResetConnection).
Abbreviation createConnection := (Kernel.createConnection valid_code).
Abbreviation onConnect_catch :=
  (Kernel.onConnect_catch valid_code Unauthorized Forbidden).
Abbreviation onAuthenticate_catch := (Kernel.onAuthenticate_catch Forbidden).
Abbreviation permissionDenied_sent :=
  (Kernel.permissionDenied_sent valid_code Forbidden).
Abbreviation rejected := (Kernel.rejected valid_code Unauthorized Forbidden).
Abbreviation onLoadDocument_settled :=
  (Kernel.onLoadDocument_settled valid_code ResetConnection Unauthorized
     Forbidden).
Abbreviation afterLoadDocument_settled :=
  (Kernel.afterLoadDocument_settled valid_code Unauthorized Forbidden).
Abbreviation handleQueueingMessage :=
  (Kernel.handleQueueingMessage valid_code Unauthorized).
Abbreviation messageHandler := (Kernel.messageHandler valid_code Unauthorized).
Abbreviation emit_message := (Kernel.emit_message valid_code Unauthorized).
Abbreviation attach := (Kernel.attach valid_code Unauthorized Forbidden).
Abbreviation onConnect_settled :=
  (Kernel.onConnect_settled valid_code Unauthorized Forbidden).
Abbreviation onAuthenticate_settled :=
  (Kernel.onAuthenticate_settled Forbidden).
Abbreviation handleConnection := (Kernel.handleConnection extensions).
Abbreviation settle :=
  (Kernel.settle debounce_ms maxDebounce valid_code ResetConnection
     Unauthorized Forbidden).
Abbreviation step :=
  (Kernel.step extensions debounce_ms maxDebounce valid_code ResetConnection
     Unauthorized Forbidden).
Abbreviation run :=
  (Kernel.run extensions debounce_ms maxDebounce valid_code ResetConnection
     Unauthorized Forbidden).

Lemma concat_imap_nil {A B} (f : nat -> A -> list B) (l : list A) :
  (forall i x, l !! i = Some x -> f i x = []) -> concat (imap f l) = [].
Proof.
  revert f. induction l as [|x l IH]; intros f Hf; [done|]. cbn.
  rewrite (Hf 0%nat x eq_refl). cbn. apply IH.
  intros i y Hy. by apply (Hf (S i)).
Qed.

Lemma concat_imap_snoc {A B} (f : nat -> A -> list B) (l : list A) (x : A) :
  concat (imap f (l ++ [x])) = concat (imap f l) ++ f (length l) x.
Proof.
  rewrite imap_app, concat_app. cbn.
  by rewrite app_nil_r, Nat.add_0_r.
Qed.

Lemma createConnection_open st t doc D s :
  heap st !! doc = Some D ->
  sockets st !! t = Some s ->
  readyState s = Open ->
  createConnection t doc st
  = (set_heap
       (<[doc := mkDocument (name D) (isLoading D)
                   (connections D ++ [length (conns st)]) (destroyed D)
                   (onUpdate D)]> (heap st))
       (set_conns (conns st ++ [mkConnection t doc (name D) 1]) st),
     length (conns st)).
Proof.
  intros HD Hs Hopen. unfold Kernel.createConnection. rewrite HD.
  unfold upd_document. cbn [heap set_conns]. rewrite HD.
  cbn [sockets set_heap set_conns]. rewrite Hs. cbn. by rewrite Hopen.
Qed.

(** X.  When [setUpNewConnection] goes on after [createDocument] on an
    open socket, the messages that were queued for the document name are
    handed to the new Connection in the order of their arrival, each of
    them once, and the connected chain is started after the last of
    them.  The theorem takes a queue that holds messages of that document
    name only, and a socket that has no other Connection attached for
    the name. *)
Theorem attach_replays_queue (st : State) (t : nat) (d : string) (doc : nat)
    (D : Document) (s : Socket) (queue : list Data) (origin : Origin) :
  sockets st !! t = Some s ->
  readyState s = Open ->
  heap st !! doc = Some D ->
  name D = d ->
  incomingMessageQueue s !! d = Some queue ->
  Forall (fun input => readDocumentName input = Some d) queue ->
  (forall c conn,
      conns st !! c = Some conn ->
      socketId conn = t ->
      documentName conn = d ->
      c ∉ default [] (connections <$> heap st !! document conn)) ->
  trace (attach t d doc origin st)
  = trace st ++ map (EvDeliver t d) queue ++ [EvHook connected (Some t) d].
Proof.
  intros Hs Hopen HD Hname Hq Hqueue Hothers.
  assert (Hlt : (doc < length (heap st))%nat) by (by eapply lookup_lt_Some).
  unfold Kernel.attach.
  rewrite (createConnection_open st t doc D s HD Hs Hopen).
  cbn [conns set_heap set_conns].
  rewrite lookup_app_r, Nat.sub_diag by done. cbn [lookup list_lookup].
  cbn [socketId document documentName onClose].
  set (c := length (conns st)).
  set (conn := mkConnection t doc (name D) 2).
  set (D' := mkDocument (name D) (isLoading D) (connections D ++ [c])
               (destroyed D) (onUpdate D)).
  set (st3 := upd_socket t _ _).
  assert (Hs3 : sockets st3 !! t
                = Some (with_documentConnections
                          (<[d := true]> (documentConnections s)) s)).
  { subst st3. cbn. by rewrite lookup_alter_eq, Hs. }
  rewrite Hs3. cbn [mbind option_bind incomingMessageQueue with_documentConnections].
  rewrite Hq. cbn [hooks await emit set_promises set_trace trace].
  assert (Hconns3 : conns st3 = conns st ++ [conn]).
  { subst st3. cbn.
    replace c with (length (conns st) + 0)%nat by lia.
    by rewrite insert_app_r. }
  assert (Hheap3 : heap st3 = <[doc := D']> (heap st)) by done.
  assert (Htrace3 : trace st3 = trace st) by done.
  assert (Hfold : forall l st',
             Forall (fun input => readDocumentName input = Some d) l ->
             sockets st' = sockets st3 -> conns st' = conns st3 ->
             heap st' = heap st3 ->
             trace (fold_left (fun st' input => emit_message t input st') l st')
             = trace st' ++ map (EvDeliver t d) l).
  { induction l as [|input l IH]; intros st' Hl Hso Hco Hhe.
    - cbn. by rewrite app_nil_r.
    - inversion Hl as [|? ? Hin Hl']; subst. cbn [fold_left map].
      assert (Hm : messageHandler t input st' = st').
      { unfold Kernel.messageHandler. rewrite Hso, Hs3, Hin. cbn.
        by rewrite lookup_insert_eq, bool_decide_eq_true_2. }
      assert (Hemit : emit_message t input st'
                      = set_trace (trace st' ++ [EvDeliver t (name D) input]) st').
      { unfold Kernel.emit_message. rewrite Hm. f_equal. f_equal.
        rewrite Hco, Hconns3, concat_imap_snoc.
        rewrite concat_imap_nil.
        - cbn. unfold Connection_handleMessage. cbn.
          rewrite Nat.eqb_refl, Hin, Hhe, Hheap3.
          rewrite list_lookup_insert_eq by done. cbn.
          rewrite !bool_decide_eq_true_2; [done| |done].
          apply elem_of_app. right. by apply list_elem_of_singleton.
        - intros i x Hx. unfold Connection_handleMessage.
          destruct (Nat.eqb (socketId x) t) eqn:Et; [|done].
          apply Nat.eqb_eq in Et.
          destruct (decide (readDocumentName input = Some (documentName x)))
            as [Hd|Hd]; [|by rewrite (bool_decide_eq_false_2 _ Hd)].
          rewrite (bool_decide_eq_true_2 _ Hd). cbn.
          rewrite bool_decide_eq_false_2; [done|].
          rewrite Hin in Hd. injection Hd as Hd.
          pose proof (Hothers i x Hx Et (eq_sym Hd)) as Hnot.
          rewrite Hhe, Hheap3.
          destruct (decide (document x = doc)) as [Hdoc|Hdoc].
          + rewrite Hdoc, list_lookup_insert_eq by done. cbn.
            rewrite Hdoc, HD in Hnot. cbn in Hnot.
            intros [?|Hc]%elem_of_app; [done|].
            apply list_elem_of_singleton in Hc.
            apply lookup_lt_Some in Hx. subst c. lia.
          + by rewrite list_lookup_insert_ne. }
      rewrite Hemit, IH by done. cbn. by rewrite <- app_assoc. }
  rewrite Hfold by done. by rewrite Htrace3, <- app_assoc.
Qed.

End ReplayFacts.
End ReplayFacts.

Module IdleFacts.
Import Kernel Lifecycle.
Section IdleFacts.
Context {H : Type}.
Variable extensions : list (Extension H).
Variables debounce_ms maxDebounce : Z.
Variable valid_code : Z -> bool.
Variables ResetConnection Unauthorized Forbidden : CloseEvent.

Abbreviation ws_close := (Kernel.ws_close valid_code).
Abbreviation ws_close_event := (Kernel.ws_close_event valid_code).
Abbreviation debounce := (Kernel.debounce debounce_ms maxDebounce).
Abbreviation handleDocumentUpdate :=
  (Kernel.handleDocumentUpdate debounce_ms maxDebounce).
Abbreviation onDisconnect_then :=
  (Kernel.onDisconnect_then debounce_ms maxDebounce).
Abbreviation onClose_setUpNewConnection :=
  (Kernel.onClose_setUpNewConnection valid_code).
Abbreviation Connection_close := (Kernel.Connection_close valid_code).
Abbreviation closeConnections :=
  (Kernel.closeConnections valid_code ResetConnection).
Abbreviation createConnection := (Kernel.createConnection valid_code).
Abbreviation onConnect_catch :=
  (Kernel.onConnect_catch valid_code Unauthorized Forbidden).
Abbreviation onAuthenticate_catch := (Kernel.onAuthenticate_catch Forbidden).
Abbreviation permissionDenied_sent :=
  (Kernel.permissionDenied_sent valid_code Forbidden).
Abbreviation rejected := (Kernel.rejected valid_code Unauthorized Forbidden).
Abbreviation onLoadDocument_settled :=
  (Kernel.onLoadDocument_settled valid_code ResetConnection Unauthorized
     Forbidden).
Abbreviation afterLoadDocument_settled :=
  (Kernel.afterLoadDocument_settled valid_code Unauthorized Forbidden).
Abbreviation handleQueueingMessage :=
  (Kernel.handleQueueingMessage valid_code Unauthorized).
Abbreviation messageHandler := (Kernel.messageHandler valid_code Unauthorized).
Abbreviation emit_message := (Kernel.emit_message valid_code Unauthorized).
Abbreviation attach := (Kernel.attach valid_code Unauthorized Forbidden).
Abbreviation onConnect_settled :=
  (Kernel.onConnect_settled valid_code Unauthorized Forbidden).
Abbreviation onAuthenticate_settled :=
  (Kernel.onAuthenticate_settled Forbidden).
Abbreviation handleConnection := (Kernel.handleConnection extensions).
Abbreviation settle :=
  (Kernel.settle debounce_ms maxDebounce valid_code ResetConnection
     Unauthorized Forbidden).
Abbreviation step :=
  (Kernel.step extensions debounce_ms maxDebounce valid_code ResetConnection
     Unauthorized Forbidden).
Abbreviation run :=
  (Kernel.run extensions debounce_ms maxDebounce valid_code ResetConnection
     Unauthorized Forbidden).

Variable t0 : nat.
Abbreviation fold_left_preserves := KernelFacts.fold_left_preserves.
Abbreviation cleared := (idle_cleared t0).

(** [idle_cleared] looks at the sockets only. *)
Lemma cleared_frame (st st' : State) :
  sockets st' = sockets st -> cleared st -> cleared st'.
Proof. unfold idle_cleared. by intros ->. Qed.

Lemma cleared_upd_socket t f st :
  (forall s, closeIdleConnection s = false -> closeIdleConnection (f s) = false) ->
  cleared st -> cleared (upd_socket t f st).
Proof.
  intros Hf. unfold idle_cleared. cbn.
  destruct (decide (t = t0)) as [->|Hne].
  - rewrite lookup_alter_eq.
    destruct (sockets st !! t0) as [s|]; [|done]. cbn.
    intros [= Hs]. by rewrite Hf.
  - by rewrite lookup_alter_ne.
Qed.

Lemma cleared_upd_document doc f st : cleared st -> cleared (upd_document doc f st).
Proof.
  apply cleared_frame. unfold upd_document. by destruct (heap st !! doc).
Qed.
Lemma cleared_emit e st : cleared st -> cleared (emit e st).
Proof. by apply cleared_frame. Qed.
Lemma cleared_await k st : cleared st -> cleared (await k st).
Proof. by apply cleared_frame. Qed.
Lemma cleared_hooks h t d k st : cleared st -> cleared (hooks h t d k st).
Proof. by apply cleared_frame. Qed.
Lemma cleared_set_tm v st : cleared st -> cleared (set_tm v st).
Proof. by apply cleared_frame. Qed.
Lemma cleared_set_conns v st : cleared st -> cleared (set_conns v st).
Proof. by apply cleared_frame. Qed.
Lemma cleared_set_clock v st : cleared st -> cleared (set_clock v st).
Proof. by apply cleared_frame. Qed.
Lemma cleared_set_promises v n st : cleared st -> cleared (set_promises v n st).
Proof. by apply cleared_frame. Qed.
Lemma cleared_set_trace v st : cleared st -> cleared (set_trace v st).
Proof. by apply cleared_frame. Qed.
Lemma cleared_set_documents v st : cleared st -> cleared (set_documents v st).
Proof. by apply cleared_frame. Qed.
Lemma cleared_set_heap v st : cleared st -> cleared (set_heap v st).
Proof. by apply cleared_frame. Qed.
Lemma cleared_ws_send t m st : cleared st -> cleared (ws_send t m st).
Proof. by apply cleared_frame. Qed.

Create HintDb cleareddb discriminated.
#[local] Hint Resolve cleared_upd_document cleared_emit cleared_await
  cleared_hooks cleared_upd_socket cleared_set_tm cleared_set_conns
  cleared_set_clock cleared_set_promises cleared_set_trace cleared_ws_send
  cleared_set_documents cleared_set_heap : cleareddb.

(** Unfold one function, split on what it inspects, and close the
    branches with the facts collected so far. *)
Ltac branches db :=
  intros; repeat case_match; simplify_eq; eauto 12 with db.

Lemma cleared_ws_close t c r st st' :
  ws_close t c r st = Some st' -> cleared st -> cleared st'.
Proof.
  unfold Kernel.ws_close. case_match; [|done]. intros [= <-] Hok.
  apply cleared_emit, cleared_upd_socket; [|done].
  intros s Hs. by destruct (readyState s).
Qed.
#[local] Hint Resolve cleared_ws_close : cleareddb.

Lemma cleared_ws_close_event t e st :
  cleared st -> cleared (ws_close_event t e st).
Proof. unfold Kernel.ws_close_event. branches cleareddb. Qed.
#[local] Hint Resolve cleared_ws_close_event : cleareddb.

Lemma cleared_store task st : cleared st -> cleared (store task st).
Proof. unfold store. branches cleareddb. Qed.
#[local] Hint Resolve cleared_store : cleareddb.

Lemma cleared_call f st : cleared st -> cleared (call f st).
Proof. unfold call. branches cleareddb. Qed.
#[local] Hint Resolve cleared_call : cleareddb.

Lemma cleared_debounce id f i st :
  cleared st -> cleared (debounce id f i st).
Proof. unfold Kernel.debounce. branches cleareddb. Qed.
#[local] Hint Resolve cleared_debounce : cleareddb.

Lemma cleared_remove_document doc st :
  cleared st -> cleared (remove_document doc st).
Proof. unfold remove_document. branches cleareddb. Qed.
#[local] Hint Resolve cleared_remove_document : cleareddb.

Lemma cleared_afterStore task st :
  cleared st -> cleared (afterStore task st).
Proof. unfold afterStore. branches cleareddb. Qed.
#[local] Hint Resolve cleared_afterStore : cleareddb.

Lemma cleared_onStoreDocument_settled task r st :
  cleared st -> cleared (onStoreDocument_settled task r st).
Proof. unfold onStoreDocument_settled. branches cleareddb. Qed.

Lemma cleared_afterStoreDocument_settled task r st :
  cleared st -> cleared (afterStoreDocument_settled task r st).
Proof. unfold afterStoreDocument_settled. branches cleareddb. Qed.

Lemma cleared_handleDocumentUpdate doc origin st :
  cleared st -> cleared (handleDocumentUpdate doc origin st).
Proof. unfold Kernel.handleDocumentUpdate. branches cleareddb. Qed.

Lemma cleared_onDisconnect_then t doc st :
  cleared st -> cleared (onDisconnect_then t doc st).
Proof. unfold Kernel.onDisconnect_then. branches cleareddb. Qed.

Lemma cleared_onClose_setUpNewConnection conn event st :
  cleared st -> cleared (onClose_setUpNewConnection conn event st).
Proof. unfold Kernel.onClose_setUpNewConnection. branches cleareddb. Qed.

Lemma cleared_Connection_close c event st :
  cleared st -> cleared (Connection_close c event st).
Proof.
  unfold Kernel.Connection_close, onClose_createConnection.
  pose proof cleared_onClose_setUpNewConnection.
  branches cleareddb.
Qed.
#[local] Hint Resolve cleared_Connection_close : cleareddb.

Lemma cleared_closeConnections d st :
  cleared st -> cleared (closeConnections d st).
Proof.
  unfold Kernel.closeConnections. intros Hok.
  apply fold_left_preserves; [|done].
  intros st' [dn doc] Hok'. repeat case_match; try done.
  all: apply fold_left_preserves; auto with cleareddb.
Qed.
#[local] Hint Resolve cleared_closeConnections : cleareddb.

Lemma cleared_createConnection t doc st st' c :
  createConnection t doc st = (st', c) -> cleared st -> cleared st'.
Proof. unfold Kernel.createConnection. branches cleareddb. Qed.
#[local] Hint Resolve cleared_createConnection : cleareddb.

Lemma cleared_onConnect_catch t e st :
  cleared st -> cleared (onConnect_catch t e st).
Proof. unfold Kernel.onConnect_catch. branches cleareddb. Qed.

Lemma cleared_onAuthenticate_catch t d e st :
  cleared st -> cleared (onAuthenticate_catch t d e st).
Proof. unfold Kernel.onAuthenticate_catch. branches cleareddb. Qed.

Lemma cleared_permissionDenied_sent t e st :
  cleared st -> cleared (permissionDenied_sent t e st).
Proof. unfold Kernel.permissionDenied_sent. branches cleareddb. Qed.

Lemma cleared_rejected o t d e st :
  cleared st -> cleared (rejected o t d e st).
Proof.
  unfold Kernel.rejected. destruct o;
    auto using cleared_onConnect_catch, cleared_onAuthenticate_catch.
Qed.
#[local] Hint Resolve cleared_rejected : cleareddb.

Lemma cleared_createDocument t d o st st' r :
  createDocument t d o st = (st', r) -> cleared st -> cleared st'.
Proof. unfold createDocument. branches cleareddb. Qed.
#[local] Hint Resolve cleared_createDocument : cleareddb.

Lemma cleared_setUpNewConnection t d o st :
  cleared st -> cleared (setUpNewConnection t d o st).
Proof. unfold setUpNewConnection. branches cleareddb. Qed.
#[local] Hint Resolve cleared_setUpNewConnection : cleareddb.

Lemma cleared_onLoadDocument_settled t d doc o r st :
  cleared st -> cleared (onLoadDocument_settled t d doc o r st).
Proof. unfold Kernel.onLoadDocument_settled. branches cleareddb. Qed.

Lemma cleared_afterLoadDocument_settled t d doc o r st :
  cleared st -> cleared (afterLoadDocument_settled t d doc o r st).
Proof. unfold Kernel.afterLoadDocument_settled. branches cleareddb. Qed.

Lemma cleared_handleQueueingMessage t data st :
  cleared st -> cleared (handleQueueingMessage t data st).
Proof. unfold Kernel.handleQueueingMessage. branches cleareddb. Qed.
#[local] Hint Resolve cleared_handleQueueingMessage : cleareddb.

Lemma cleared_messageHandler t data st :
  cleared st -> cleared (messageHandler t data st).
Proof. unfold Kernel.messageHandler. branches cleareddb. Qed.
#[local] Hint Resolve cleared_messageHandler : cleareddb.

Lemma cleared_emit_message t data st :
  cleared st -> cleared (emit_message t data st).
Proof. unfold Kernel.emit_message. branches cleareddb. Qed.
#[local] Hint Resolve cleared_emit_message : cleareddb.

Lemma cleared_attach t d doc o st :
  cleared st -> cleared (attach t d doc o st).
Proof.
  unfold Kernel.attach. intros Hok.
  destruct (createConnection t doc st) as [st1 c] eqn:Hc.
  assert (cleared st1) by eauto with cleareddb.
  repeat case_match; simplify_eq;
    repeat first
      [ apply cleared_hooks | apply cleared_rejected
      | apply fold_left_preserves; [by auto with cleareddb|]
      | apply cleared_upd_socket | apply cleared_set_conns ];
    done.
Qed.

Lemma cleared_onConnect_settled t d r st :
  cleared st -> cleared (onConnect_settled t d r st).
Proof.
  unfold Kernel.onConnect_settled. pose proof cleared_onConnect_catch.
  branches cleareddb.
Qed.

Lemma cleared_onAuthenticate_settled t d r st :
  cleared st -> cleared (onAuthenticate_settled t d r st).
Proof.
  unfold Kernel.onAuthenticate_settled.
  pose proof cleared_onAuthenticate_catch.
  branches cleareddb.
Qed.

Lemma cleared_settle k r st :
  cleared st -> cleared (settle k r st).
Proof.
  intros Hok. destruct k; cbv beta iota delta [Kernel.settle];
    auto using cleared_onConnect_settled,
      cleared_onAuthenticate_settled, cleared_permissionDenied_sent,
      cleared_onLoadDocument_settled,
      cleared_afterLoadDocument_settled, cleared_attach,
      cleared_onStoreDocument_settled,
      cleared_afterStoreDocument_settled.
  - destruct r; auto using cleared_onDisconnect_then, cleared_emit.
  - destruct r; auto using cleared_emit.
Qed.

Lemma cleared_step st i : cleared st -> cleared (step st i).
Proof.
  intros Hok. destruct i; cbv beta iota delta [Kernel.step].
  - unfold Kernel.handleConnection.
    destruct (sockets st !! t) as [s|] eqn:Hs; [done|].
    unfold idle_cleared in *. cbn.
    destruct (decide (t = t0)) as [->|Hne].
    + by rewrite Hs in Hok.
    + by rewrite lookup_insert_ne.
  - by apply cleared_emit_message.
  - repeat case_match; try done.
    by apply cleared_settle, cleared_set_promises.
  - by apply cleared_upd_socket.
  - by apply cleared_set_clock.
  - case_match. by apply cleared_call, cleared_set_tm.
  - branches cleareddb.
  - apply fold_left_preserves; [|by apply cleared_upd_socket].
    intros. branches cleareddb.
  - repeat case_match; try done. by apply cleared_handleDocumentUpdate.
  - by apply cleared_closeConnections.
Qed.

Lemma cleared_run inputs st : cleared st -> cleared (run inputs st).
Proof. apply KernelFacts.run_preserves. intros. by apply cleared_step. Qed.

End IdleFacts.

Section Idle.
Context {H : Type}.
Variable extensions : list (Extension H).
Variables debounce_ms maxDebounce : Z.
Variable valid_code : Z -> bool.
Variables ResetConnection Unauthorized Forbidden : CloseEvent.

Abbreviation ws_close := (Kernel.ws_close valid_code).
Abbreviation ws_close_event := (Kernel.ws_close_event valid_code).
Abbreviation debounce := (Kernel.debounce debounce_ms maxDebounce).
Abbreviation handleDocumentUpdate :=
  (Kernel.handleDocumentUpdate debounce_ms maxDebounce).
Abbreviation onDisconnect_then :=
  (Kernel.onDisconnect_then debounce_ms maxDebounce).
Abbreviation onClose_setUpNewConnection :=
  (Kernel.onClose_setUpNewConnection valid_code).
Abbreviation Connection_close := (Kernel.Connection_close valid_code).
Abbreviation closeConnections :=
  (Kernel.closeConnections valid_code ResetConnection).
Abbreviation createConnection := (Kernel.createConnection valid_code).
Abbreviation onConnect_catch :=
  (Kernel.onConnect_catch valid_code Unauthorized Forbidden).
Abbreviation onAuthenticate_catch := (Kernel.onAuthenticate_catch Forbidden).
Abbreviation permissionDenied_sent :=
  (Kernel.permissionDenied_sent valid_code Forbidden).
Abbreviation rejected := (Kernel.rejected valid_code Unauthorized Forbidden).
Abbreviation onLoadDocument_settled :=
  (Kernel.onLoadDocument_settled valid_code ResetConnection Unauthorized
     Forbidden).
Abbreviation afterLoadDocument_settled :=
  (Kernel.afterLoadDocument_settled valid_code Unauthorized Forbidden).
Abbreviation handleQueueingMessage :=
  (Kernel.handleQueueingMessage valid_code Unauthorized).
Abbreviation messageHandler := (Kernel.messageHandler valid_code Unauthorized).
Abbreviation emit_message := (Kernel.emit_message valid_code Unauthorized).
Abbreviation attach := (Kernel.attach valid_code Unauthorized Forbidden).
Abbreviation onConnect_settled :=
  (Kernel.onConnect_settled valid_code Unauthorized Forbidden).
Abbreviation onAuthenticate_settled :=
  (Kernel.onAuthenticate_settled Forbidden).
Abbreviation handleConnection := (Kernel.handleConnection extensions).
Abbreviation settle :=
  (Kernel.settle debounce_ms maxDebounce valid_code ResetConnection
     Unauthorized Forbidden).
Abbreviation step :=
  (Kernel.step extensions debounce_ms maxDebounce valid_code ResetConnection
     Unauthorized Forbidden).
Abbreviation run :=
  (Kernel.run extensions debounce_ms maxDebounce valid_code ResetConnection
     Unauthorized Forbidden).

(** X.  As long as the idle timeout of a socket is armed, it closes the
    socket with Unauthorized when it is due.  [setUpNewConnection] clears
    it, and nothing arms it again: whatever happens afterwards, the
    timeout does nothing when it is due. *)
Theorem idle_timeout_cleared (st : State) (t : nat) (s : Socket)
    (d : string) (origin : Origin) (inputs : list Input) :
  sockets st !! t = Some s ->
  (closeIdleConnection s = true ->
   step st (Idle t)
   = ws_close_event t Unauthorized
       (upd_socket t (with_closeIdleConnection false) st))
  /\ let st' := run inputs (setUpNewConnection t d origin st) in
     step st' (Idle t) = st'.
Proof.
  intros Hs. split.
  { intros Harmed. cbv beta iota delta [Kernel.step]. by rewrite Hs, Harmed. }
  intros st'.
  assert (Hc : idle_cleared t (setUpNewConnection t d origin st)).
  { unfold setUpNewConnection.
    assert (Hc1 : idle_cleared t
                    (upd_socket t (with_closeIdleConnection false) st)).
    { unfold idle_cleared. cbn. by rewrite lookup_alter_eq, Hs. }
    destruct (createDocument t d origin _) as [st2 [doc|]] eqn:Hcd.
    - eapply cleared_await, cleared_createDocument; done.
    - eapply cleared_createDocument; done. }
  pose proof (cleared_run extensions debounce_ms maxDebounce valid_code
                ResetConnection Unauthorized Forbidden t inputs _ Hc) as Hr.
  fold st' in Hr. unfold idle_cleared in Hr.
  cbv beta iota delta [Kernel.step].
  destruct (sockets st' !! t) as [s'|]; [|done]. cbn in Hr.
  injection Hr as ->. done.
Qed.

End Idle.
End IdleFacts.

Module AliveFacts.
Import Kernel Lifecycle.
Section AliveFacts.
Context {H : Type}.
Variable extensions : list (Extension H).
Variables debounce_ms maxDebounce : Z.
Variable valid_code : Z -> bool.
Variables ResetConnection Unauthorized Forbidden : CloseEvent.

Abbreviation ws_close := (Kernel.ws_close valid_code).
Abbreviation ws_close_event := (Kernel.ws_close_event valid_code).
Abbreviation debounce := (Kernel.debounce debounce_ms maxDebounce).
Abbreviation handleDocumentUpdate :=
  (Kernel.handleDocumentUpdate debounce_ms maxDebounce).
Abbreviation onDisconnect_then :=
  (Kernel.onDisconnect_then debounce_ms maxDebounce).
Abbreviation onClose_setUpNewConnection :=
  (Kernel.onClose_setUpNewConnection valid_code).
Abbreviation Connection_close := (Kernel.Connection_close valid_code).
Abbreviation closeConnections :=
  (Kernel.closeConnections valid_code ResetConnection).
Abbreviation createConnection := (Kernel.createConnection valid_code).
Abbreviation onConnect_catch :=
  (Kernel.onConnect_catch valid_code Unauthorized Forbidden).
Abbreviation onAuthenticate_catch := (Kernel.onAuthenticate_catch Forbidden).
Abbreviation permissionDenied_sent :=
  (Kernel.permissionDenied_sent valid_code Forbidden).
Abbreviation rejected := (Kernel.rejected valid_code Unauthorized Forbidden).
Abbreviation onLoadDocument_settled :=
  (Kernel.onLoadDocument_settled valid_code ResetConnection Unauthorized
     Forbidden).
Abbreviation afterLoadDocument_settled :=
  (Kernel.afterLoadDocument_settled valid_code Unauthorized Forbidden).
Abbreviation handleQueueingMessage :=
  (Kernel.handleQueueingMessage valid_code Unauthorized).
Abbreviation messageHandler := (Kernel.messageHandler valid_code Unauthorized).
Abbreviation emit_message := (Kernel.emit_message valid_code Unauthorized).
Abbreviation attach := (Kernel.attach valid_code Unauthorized Forbidden).
Abbreviation onConnect_settled :=
  (Kernel.onConnect_settled valid_code Unauthorized Forbidden).
Abbreviation onAuthenticate_settled :=
  (Kernel.onAuthenticate_settled Forbidden).
Abbreviation handleConnection := (Kernel.handleConnection extensions).
Abbreviation settle :=
  (Kernel.settle debounce_ms maxDebounce valid_code ResetConnection
     Unauthorized Forbidden).
Abbreviation step :=
  (Kernel.step extensions debounce_ms maxDebounce valid_code ResetConnection
     Unauthorized Forbidden).
Abbreviation run :=
  (Kernel.run extensions debounce_ms maxDebounce valid_code ResetConnection
     Unauthorized Forbidden).

Abbreviation fold_left_preserves := KernelFacts.fold_left_preserves.

(** [alive] looks at the registry and at the names and the [destroyed]
    flags of the Documents only. *)
Lemma alive_frame (st st' : State) :
  documents st' = documents st ->
  name <$> heap st' = name <$> heap st ->
  destroyed <$> heap st' = destroyed <$> heap st ->
  alive st -> alive st'.
Proof.
  intros Hd Hn Hx [Hreg Hal].
  split; [by eapply KernelFacts.registry_ok_frame|].
  intros d doc Hin. rewrite Hd in Hin. rewrite <- (Hal d doc Hin).
  rewrite <- !list_lookup_fmap. by rewrite Hx.
Qed.

Lemma upd_document_destroyed doc f st :
  (forall D, destroyed (f D) = destroyed D) ->
  destroyed <$> heap (upd_document doc f st) = destroyed <$> heap st.
Proof.
  intros Hf. unfold upd_document.
  destruct (heap st !! doc) as [D|] eqn:HD; [|done]. cbn.
  rewrite list_fmap_insert, Hf.
  apply list_insert_id. by rewrite list_lookup_fmap, HD.
Qed.

Lemma alive_upd_document doc f st :
  (forall D, name (f D) = name D) ->
  (forall D, destroyed (f D) = destroyed D) ->
  alive st -> alive (upd_document doc f st).
Proof.
  intros Hn Hx. apply alive_frame;
    [|by apply KernelFacts.upd_document_names|by apply upd_document_destroyed].
  unfold upd_document. by destruct (heap st !! doc).
Qed.

Lemma alive_delete (st : State) (d : string) :
  alive st -> alive (set_documents (Map_delete d (documents st)) st).
Proof.
  intros [Hreg Hal]. split; [by apply KernelFacts.registry_ok_delete|].
  intros d' doc Hin. cbn. apply (Hal d').
  by apply (sublist_subseteq _ _ (KernelFacts.Map_delete_sublist d (documents st))).
Qed.

Lemma alive_emit e st : alive st -> alive (emit e st).
Proof. by apply alive_frame. Qed.
Lemma alive_await k st : alive st -> alive (await k st).
Proof. by apply alive_frame. Qed.
Lemma alive_hooks h t d k st : alive st -> alive (hooks h t d k st).
Proof. by apply alive_frame. Qed.
Lemma alive_upd_socket t f st : alive st -> alive (upd_socket t f st).
Proof. by apply alive_frame. Qed.
Lemma alive_set_sockets v st : alive st -> alive (set_sockets v st).
Proof. by apply alive_frame. Qed.
Lemma alive_set_tm v st : alive st -> alive (set_tm v st).
Proof. by apply alive_frame. Qed.
Lemma alive_set_conns v st : alive st -> alive (set_conns v st).
Proof. by apply alive_frame. Qed.
Lemma alive_set_clock v st : alive st -> alive (set_clock v st).
Proof. by apply alive_frame. Qed.
Lemma alive_set_promises v n st : alive st -> alive (set_promises v n st).
Proof. by apply alive_frame. Qed.
Lemma alive_set_trace v st : alive st -> alive (set_trace v st).
Proof. by apply alive_frame. Qed.
Lemma alive_ws_send t m st : alive st -> alive (ws_send t m st).
Proof. by apply alive_frame. Qed.

Create HintDb alivedb discriminated.
#[local] Hint Resolve alive_upd_document alive_emit
  alive_await alive_hooks alive_upd_socket
  alive_set_sockets alive_set_tm alive_set_conns
  alive_set_clock alive_set_promises alive_set_trace
  alive_ws_send alive_delete : alivedb.

(** Unfold one function, split on what it inspects, and close the
    branches with the facts collected so far. *)
Ltac branches db :=
  intros; repeat case_match; simplify_eq; eauto 12 with db.

Lemma alive_ws_close t c r st st' :
  ws_close t c r st = Some st' -> alive st -> alive st'.
Proof. unfold Kernel.ws_close. branches alivedb. Qed.
#[local] Hint Resolve alive_ws_close : alivedb.

Lemma alive_ws_close_event t e st :
  alive st -> alive (ws_close_event t e st).
Proof. unfold Kernel.ws_close_event. branches alivedb. Qed.
#[local] Hint Resolve alive_ws_close_event : alivedb.

Lemma alive_store task st : alive st -> alive (store task st).
Proof. unfold store. branches alivedb. Qed.
#[local] Hint Resolve alive_store : alivedb.

Lemma alive_call f st : alive st -> alive (call f st).
Proof. unfold call. branches alivedb. Qed.
#[local] Hint Resolve alive_call : alivedb.

Lemma alive_debounce id f i st :
  alive st -> alive (debounce id f i st).
Proof. unfold Kernel.debounce. branches alivedb. Qed.
#[local] Hint Resolve alive_debounce : alivedb.

Lemma alive_remove_document doc st :
  alive st -> alive (remove_document doc st).
Proof.
  unfold remove_document. intros Hal.
  destruct (heap st !! doc) as [D|] eqn:HD; [|done].
  apply alive_emit.
  pose proof (alive_delete st (name D) Hal) as [Hreg' Hal'].
  destruct Hal as [[Hnd Hname] _].
  split.
  - apply KernelFacts.registry_ok_upd_document; done.
  - intros d doc' Hin.
    assert (Hin' : (d, doc') ∈ Map_delete (name D) (documents st)).
    { revert Hin. unfold upd_document. cbn. by rewrite HD. }
    pose proof (Hal' d doc' Hin') as Hlive. cbn in Hlive.
    assert (Hne : doc' <> doc).
    { intros ->.
      pose proof (sublist_subseteq _ _ (KernelFacts.Map_delete_sublist
                    (name D) (documents st)) _ Hin') as Hin0.
      pose proof (Hname _ _ Hin0) as Hd. rewrite HD in Hd. cbn in Hd.
      injection Hd as <-.
      pose proof (KernelFacts.Map_delete_get (name D) (documents st) Hnd) as Hg.
      apply KernelFacts.Map_get_None in Hg. apply Hg.
      apply list_elem_of_fmap. by exists (name D, doc). }
    unfold upd_document. cbn. rewrite HD. cbn.
    by rewrite list_lookup_insert_ne.
Qed.
#[local] Hint Resolve alive_remove_document : alivedb.

Lemma alive_afterStore task st :
  alive st -> alive (afterStore task st).
Proof. unfold afterStore. branches alivedb. Qed.
#[local] Hint Resolve alive_afterStore : alivedb.

Lemma alive_onStoreDocument_settled task r st :
  alive st -> alive (onStoreDocument_settled task r st).
Proof. unfold onStoreDocument_settled. branches alivedb. Qed.

Lemma alive_afterStoreDocument_settled task r st :
  alive st -> alive (afterStoreDocument_settled task r st).
Proof. unfold afterStoreDocument_settled. branches alivedb. Qed.

Lemma alive_handleDocumentUpdate doc origin st :
  alive st -> alive (handleDocumentUpdate doc origin st).
Proof. unfold Kernel.handleDocumentUpdate. branches alivedb. Qed.

Lemma alive_onDisconnect_then t doc st :
  alive st -> alive (onDisconnect_then t doc st).
Proof. unfold Kernel.onDisconnect_then. branches alivedb. Qed.

Lemma alive_onClose_setUpNewConnection conn event st :
  alive st -> alive (onClose_setUpNewConnection conn event st).
Proof. unfold Kernel.onClose_setUpNewConnection. branches alivedb. Qed.

Lemma alive_Connection_close c event st :
  alive st -> alive (Connection_close c event st).
Proof.
  unfold Kernel.Connection_close, onClose_createConnection.
  pose proof alive_onClose_setUpNewConnection.
  branches alivedb.
Qed.
#[local] Hint Resolve alive_Connection_close : alivedb.

Lemma alive_closeConnections d st :
  alive st -> alive (closeConnections d st).
Proof.
  unfold Kernel.closeConnections. intros Hok.
  apply fold_left_preserves; [|done].
  intros st' [dn doc] Hok'. repeat case_match; try done.
  all: apply fold_left_preserves; auto with alivedb.
Qed.
#[local] Hint Resolve alive_closeConnections : alivedb.

Lemma alive_createConnection t doc st st' c :
  createConnection t doc st = (st', c) -> alive st -> alive st'.
Proof. unfold Kernel.createConnection. branches alivedb. Qed.
#[local] Hint Resolve alive_createConnection : alivedb.

Lemma alive_onConnect_catch t e st :
  alive st -> alive (onConnect_catch t e st).
Proof. unfold Kernel.onConnect_catch. branches alivedb. Qed.

Lemma alive_onAuthenticate_catch t d e st :
  alive st -> alive (onAuthenticate_catch t d e st).
Proof. unfold Kernel.onAuthenticate_catch. branches alivedb. Qed.

Lemma alive_permissionDenied_sent t e st :
  alive st -> alive (permissionDenied_sent t e st).
Proof. unfold Kernel.permissionDenied_sent. branches alivedb. Qed.

Lemma alive_rejected o t d e st :
  alive st -> alive (rejected o t d e st).
Proof.
  unfold Kernel.rejected. destruct o;
    auto using alive_onConnect_catch, alive_onAuthenticate_catch.
Qed.
#[local] Hint Resolve alive_rejected : alivedb.

Lemma alive_register d st :
  Map_get d (documents st) = None ->
  alive st ->
  alive
    (set_documents (Map_set d (length (heap st)) (documents st))
       (set_heap (heap st ++ [mkDocument d true [] false false]) st)).
Proof.
  intros Hnone [Hreg Hal]. split; [by apply KernelFacts.registry_ok_register|].
  apply KernelFacts.Map_get_None in Hnone.
  rewrite (KernelFacts.Map_set_fresh _ _ _ Hnone). cbn.
  intros d' doc Hin. cbn in Hin. apply elem_of_app in Hin as [Hin|Hin].
  - pose proof (Hal _ _ Hin) as Hl. cbn.
    destruct (heap st !! doc) as [D|] eqn:HD; [|done].
    by rewrite (lookup_app_l_Some _ _ _ _ HD).
  - apply list_elem_of_singleton in Hin as [= -> ->]. cbn.
    by rewrite lookup_app_r, Nat.sub_diag.
Qed.

Lemma alive_createDocument t d o st st' r :
  createDocument t d o st = (st', r) -> alive st -> alive st'.
Proof.
  unfold createDocument. intros Hc Hok.
  destruct (Map_get d (documents st)) eqn:Hg; simplify_eq; [done|].
  by apply alive_hooks, alive_register.
Qed.
#[local] Hint Resolve alive_createDocument : alivedb.

Lemma alive_setUpNewConnection t d o st :
  alive st -> alive (setUpNewConnection t d o st).
Proof. unfold setUpNewConnection. branches alivedb. Qed.
#[local] Hint Resolve alive_setUpNewConnection : alivedb.

Lemma alive_onLoadDocument_settled t d doc o r st :
  alive st -> alive (onLoadDocument_settled t d doc o r st).
Proof. unfold Kernel.onLoadDocument_settled. branches alivedb. Qed.

Lemma alive_afterLoadDocument_settled t d doc o r st :
  alive st -> alive (afterLoadDocument_settled t d doc o r st).
Proof. unfold Kernel.afterLoadDocument_settled. branches alivedb. Qed.

Lemma alive_handleQueueingMessage t data st :
  alive st -> alive (handleQueueingMessage t data st).
Proof. unfold Kernel.handleQueueingMessage. branches alivedb. Qed.
#[local] Hint Resolve alive_handleQueueingMessage : alivedb.

Lemma alive_messageHandler t data st :
  alive st -> alive (messageHandler t data st).
Proof. unfold Kernel.messageHandler. branches alivedb. Qed.
#[local] Hint Resolve alive_messageHandler : alivedb.

Lemma alive_emit_message t data st :
  alive st -> alive (emit_message t data st).
Proof. unfold Kernel.emit_message. branches alivedb. Qed.
#[local] Hint Resolve alive_emit_message : alivedb.

Lemma alive_attach t d doc o st :
  alive st -> alive (attach t d doc o st).
Proof.
  unfold Kernel.attach. intros Hok.
  destruct (createConnection t doc st) as [st1 c] eqn:Hc.
  assert (alive st1) by eauto with alivedb.
  repeat case_match; simplify_eq;
    repeat first
      [ apply alive_hooks | apply alive_rejected
      | apply fold_left_preserves; [by auto with alivedb|]
      | apply alive_upd_socket | apply alive_set_conns ];
    done.
Qed.

Lemma alive_onConnect_settled t d r st :
  alive st -> alive (onConnect_settled t d r st).
Proof.
  unfold Kernel.onConnect_settled. pose proof alive_onConnect_catch.
  branches alivedb.
Qed.

Lemma alive_onAuthenticate_settled t d r st :
  alive st -> alive (onAuthenticate_settled t d r st).
Proof.
  unfold Kernel.onAuthenticate_settled.
  pose proof alive_onAuthenticate_catch.
  branches alivedb.
Qed.

Lemma alive_settle k r st :
  alive st -> alive (settle k r st).
Proof.
  intros Hok. destruct k; cbv beta iota delta [Kernel.settle];
    auto using alive_onConnect_settled,
      alive_onAuthenticate_settled, alive_permissionDenied_sent,
      alive_onLoadDocument_settled,
      alive_afterLoadDocument_settled, alive_attach,
      alive_onStoreDocument_settled,
      alive_afterStoreDocument_settled.
  - destruct r; auto using alive_onDisconnect_then, alive_emit.
  - destruct r; auto using alive_emit.
Qed.

Lemma alive_step st i : alive st -> alive (step st i).
Proof.
  intros Hok. destruct i; cbv beta iota delta [Kernel.step].
  - unfold Kernel.handleConnection. branches alivedb.
  - by apply alive_emit_message.
  - repeat case_match; try done.
    by apply alive_settle, alive_set_promises.
  - by apply alive_upd_socket.
  - by apply alive_set_clock.
  - case_match. by apply alive_call, alive_set_tm.
  - branches alivedb.
  - apply fold_left_preserves; [|by apply alive_upd_socket].
    intros. branches alivedb.
  - repeat case_match; try done. by apply alive_handleDocumentUpdate.
  - by apply alive_closeConnections.
Qed.

Lemma alive_initial : alive initial.
Proof.
  split; [apply KernelFacts.registry_ok_initial|].
  intros d doc Hin. by apply elem_of_nil in Hin.
Qed.

Lemma alive_run inputs : alive (run inputs initial).
Proof.
  apply KernelFacts.run_preserves; [|apply alive_initial].
  intros. by apply alive_step.
Qed.

(** X.  In every state the server can reach, the Documents in the
    registry have not been destroyed: [destroy()] is called on a Document
    only after its name was deleted from the registry, and a name is
    registered for a new Document only.  So [createDocument] never hands
    out a destroyed Document: the Document it returns for a registered
    name carries that name and is alive. *)
Theorem registered_documents_alive (inputs : list Input) :
  let st := run inputs initial in
  (forall d doc,
      (d, doc) ∈ documents st ->
      exists D,
        heap st !! doc = Some D /\ name D = d /\ destroyed D = false)
  /\ (forall t d origin doc,
        (createDocument t d origin st).2 = Some doc ->
        exists D,
          heap st !! doc = Some D /\ name D = d /\ destroyed D = false).
Proof.
  intros st. destruct (alive_run inputs) as [[_ Hname] Hal]. fold st in Hname, Hal.
  assert (Hreg : forall d doc,
             (d, doc) ∈ documents st ->
             exists D,
               heap st !! doc = Some D /\ name D = d /\ destroyed D = false).
  { intros d doc Hin. pose proof (Hname _ _ Hin) as Hn.
    pose proof (Hal _ _ Hin) as Hx.
    destruct (heap st !! doc) as [D|]; [|done]. cbn in *.
    exists D. split; [done|]. split; congruence. }
  split; [done|]. intros t d origin doc. unfold createDocument.
  destruct (Map_get d (documents st)) as [doc'|] eqn:Hg; [|done].
  cbn. intros [= <-]. apply Hreg. by apply KernelFacts.Map_get_elem.
Qed.

End AliveFacts.
End AliveFacts.

Module LoadingFacts.
Import Kernel Lifecycle.
Section LoadingFacts.
Context {H : Type}.
Variable extensions : list (Extension H).
Variables debounce_ms maxDebounce : Z.
Variable valid_code : Z -> bool.
Variables ResetConnection Unauthorized Forbidden : CloseEvent.

Abbreviation ws_close := (Kernel.ws_close valid_code).
Abbreviation ws_close_event := (Kernel.ws_close_event valid_code).
Abbreviation debounce := (Kernel.debounce debounce_ms maxDebounce).
Abbreviation handleDocumentUpdate :=
  (Kernel.handleDocumentUpdate debounce_ms maxDebounce).
Abbreviation onDisconnect_then :=
  (Kernel.onDisconnect_then debounce_ms maxDebounce).
Abbreviation onClose_setUpNewConnection :=
  (Kernel.onClose_setUpNewConnection valid_code).
Abbreviation Connection_close := (Kernel.Connection_close valid_code).
Abbreviation closeConnections :=
  (Kernel.closeConnections valid_code ResetConnection).
Abbreviation createConnection := (Kernel.createConnection valid_code).
Abbreviation onConnect_catch :=
  (Kernel.onConnect_catch valid_code Unauthorized Forbidden).
Abbreviation onAuthenticate_catch := (Kernel.onAuthenticate_catch Forbidden).
Abbreviation permissionDenied_sent :=
  (Kernel.permissionDenied_sent valid_code Forbidden).
Abbreviation rejected := (Kernel.rejected valid_code Unauthorized Forbidden).
Abbreviation onLoadDocument_settled :=
  (Kernel.onLoadDocument_settled valid_code ResetConnection Unauthorized
     Forbidden).
Abbreviation afterLoadDocument_settled :=
  (Kernel.afterLoadDocument_settled valid_code Unauthorized Forbidden).
Abbreviation handleQueueingMessage :=
  (Kernel.handleQueueingMessage valid_code Unauthorized).
Abbreviation messageHandler := (Kernel.messageHandler valid_code Unauthorized).
Abbreviation emit_message := (Kernel.emit_message valid_code Unauthorized).
Abbreviation attach := (Kernel.attach valid_code Unauthorized Forbidden).
Abbreviation onConnect_settled :=
  (Kernel.onConnect_settled valid_code Unauthorized Forbidden).
Abbreviation onAuthenticate_settled :=
  (Kernel.onAuthenticate_settled Forbidden).
Abbreviation handleConnection := (Kernel.handleConnection extensions).
Abbreviation settle :=
  (Kernel.settle debounce_ms maxDebounce valid_code ResetConnection
     Unauthorized Forbidden).
Abbreviation step :=
  (Kernel.step extensions debounce_ms maxDebounce valid_code ResetConnection
     Unauthorized Forbidden).
Abbreviation run :=
  (Kernel.run extensions debounce_ms maxDebounce valid_code ResetConnection
     Unauthorized Forbidden).

Abbreviation fold_left_preserves := KernelFacts.fold_left_preserves.
Abbreviation lbw := loaded_before_wired.

(** [loaded_before_wired] looks at the Documents and at the suspended
    continuations only. *)
Lemma lbw_frame (st st' : State) :
  heap st' = heap st -> promises st' = promises st -> lbw st -> lbw st'.
Proof.
  intros Hh Hp [H1 H2]. split.
  - rewrite Hh. apply H1.
  - rewrite Hp. intros p k Hk. pose proof (H2 p k Hk) as Hn.
    unfold needs in *. by rewrite Hh.
Qed.

Lemma needs_upd_document k doc f st :
  (forall D, isLoading D = false -> isLoading (f D) = false) ->
  needs k st -> needs k (upd_document doc f st).
Proof.
  intros Hf. unfold upd_document.
  destruct (heap st !! doc) as [D|] eqn:HD; [|done].
  assert (Hlt : (doc < length (heap st))%nat) by (by eapply lookup_lt_Some).
  destruct k; try done; cbn.
  - destruct (decide (doc0 = doc)) as [->|Hne].
    + by rewrite list_lookup_insert_eq.
    + by rewrite list_lookup_insert_ne.
  - destruct (decide (doc0 = doc)) as [->|Hne].
    + rewrite list_lookup_insert_eq by done. intros (D' & HD' & Hl).
      simplify_eq. eexists. split; [done|]. by apply Hf.
    + by rewrite list_lookup_insert_ne.
Qed.

Lemma lbw_upd_document doc f st :
  (forall D, onUpdate (f D) = onUpdate D) ->
  (forall D, isLoading D = false -> isLoading (f D) = false) ->
  lbw st -> lbw (upd_document doc f st).
Proof.
  intros Hu Hl [H1 H2]. split.
  - unfold upd_document.
    destruct (heap st !! doc) as [D|] eqn:HD; [|done]. cbn.
    intros doc' D'. destruct (decide (doc' = doc)) as [->|Hne].
    + rewrite list_lookup_insert_eq by (by eapply lookup_lt_Some).
      intros [= <-]. rewrite Hu. intros Hon. apply Hl. by eapply H1.
    + rewrite list_lookup_insert_ne by done. apply H1.
  - intros p k Hp. apply needs_upd_document; [done|]. apply (H2 p).
    revert Hp. unfold upd_document. by destruct (heap st !! doc).
Qed.

Lemma lbw_emit e st : lbw st -> lbw (emit e st).
Proof. by apply lbw_frame. Qed.
Lemma lbw_upd_socket t f st : lbw st -> lbw (upd_socket t f st).
Proof. by apply lbw_frame. Qed.
Lemma lbw_set_sockets v st : lbw st -> lbw (set_sockets v st).
Proof. by apply lbw_frame. Qed.
Lemma lbw_set_tm v st : lbw st -> lbw (set_tm v st).
Proof. by apply lbw_frame. Qed.
Lemma lbw_set_conns v st : lbw st -> lbw (set_conns v st).
Proof. by apply lbw_frame. Qed.
Lemma lbw_set_clock v st : lbw st -> lbw (set_clock v st).
Proof. by apply lbw_frame. Qed.
Lemma lbw_set_trace v st : lbw st -> lbw (set_trace v st).
Proof. by apply lbw_frame. Qed.
Lemma lbw_set_documents v st : lbw st -> lbw (set_documents v st).
Proof. by apply lbw_frame. Qed.
Lemma lbw_ws_send t m st : lbw st -> lbw (ws_send t m st).
Proof. by apply lbw_frame. Qed.

Lemma lbw_await k st : needs k st -> lbw st -> lbw (await k st).
Proof.
  intros Hk [H1 H2]. split; [done|]. cbn. intros p k'.
  destruct (decide (p = next_promise st)) as [->|Hne].
  - rewrite lookup_insert_eq. by intros [= <-].
  - rewrite lookup_insert_ne by done. apply H2.
Qed.

Lemma lbw_hooks h t d k st :
  needs k (emit (EvHook h t d) st) -> lbw st -> lbw (hooks h t d k st).
Proof. intros Hk Hok. apply lbw_await; [done|]. by apply lbw_emit. Qed.

(** Settling a continuation takes it out of the pending ones. *)
Lemma lbw_settled p st :
  lbw st ->
  lbw (set_promises (delete p (promises st)) (next_promise st) st).
Proof.
  intros [H1 H2]. split; [done|]. cbn. intros p' k.
  intros [_ Hk]%lookup_delete_Some. by apply (H2 p').
Qed.

Lemma lbw_new_document d st :
  lbw st -> lbw (set_heap (heap st ++ [mkDocument d true [] false false]) st).
Proof.
  intros [H1 H2]. split; cbn.
  - intros doc D. destruct (decide (doc < length (heap st))%nat) as [Hlt|Hge].
    + rewrite lookup_app_l by done. apply H1.
    + rewrite lookup_app_r by lia.
      destruct (doc - length (heap st))%nat; [|done]. by intros [= <-].
  - intros p k Hp. pose proof (H2 p k Hp) as Hn.
    destruct k; try done; cbn in *.
    + destruct Hn as [D HD]. exists D. by apply lookup_app_l_Some.
    + destruct Hn as (D & HD & Hl). exists D. split; [|done].
      by apply lookup_app_l_Some.
Qed.

Create HintDb lbwdb discriminated.
#[local] Hint Resolve lbw_upd_document lbw_emit lbw_await lbw_hooks
  lbw_upd_socket lbw_set_sockets lbw_set_tm lbw_set_conns lbw_set_clock
  lbw_set_trace lbw_ws_send lbw_set_documents : lbwdb.
#[local] Hint Extern 1 (needs _ _) => exact I : lbwdb.

(** Unfold one function, split on what it inspects, and close the
    branches with the facts collected so far. *)
Ltac branches db :=
  intros; repeat case_match; simplify_eq; eauto 12 with db.

Lemma lbw_ws_close t c r st st' :
  ws_close t c r st = Some st' -> lbw st -> lbw st'.
Proof. unfold Kernel.ws_close. branches lbwdb. Qed.
#[local] Hint Resolve lbw_ws_close : lbwdb.

Lemma lbw_ws_close_event t e st :
  lbw st -> lbw (ws_close_event t e st).
Proof. unfold Kernel.ws_close_event. branches lbwdb. Qed.
#[local] Hint Resolve lbw_ws_close_event : lbwdb.

Lemma lbw_store task st : lbw st -> lbw (store task st).
Proof. unfold store. branches lbwdb. Qed.
#[local] Hint Resolve lbw_store : lbwdb.

Lemma lbw_call f st : lbw st -> lbw (call f st).
Proof. unfold call. branches lbwdb. Qed.
#[local] Hint Resolve lbw_call : lbwdb.

Lemma lbw_debounce id f i st :
  lbw st -> lbw (debounce id f i st).
Proof. unfold Kernel.debounce. branches lbwdb. Qed.
#[local] Hint Resolve lbw_debounce : lbwdb.

Lemma lbw_remove_document doc st :
  lbw st -> lbw (remove_document doc st).
Proof. unfold remove_document. branches lbwdb. Qed.
#[local] Hint Resolve lbw_remove_document : lbwdb.

Lemma lbw_afterStore task st :
  lbw st -> lbw (afterStore task st).
Proof. unfold afterStore. branches lbwdb. Qed.
#[local] Hint Resolve lbw_afterStore : lbwdb.

Lemma lbw_onStoreDocument_settled task r st :
  lbw st -> lbw (onStoreDocument_settled task r st).
Proof. unfold onStoreDocument_settled. branches lbwdb. Qed.

Lemma lbw_afterStoreDocument_settled task r st :
  lbw st -> lbw (afterStoreDocument_settled task r st).
Proof. unfold afterStoreDocument_settled. branches lbwdb. Qed.

Lemma lbw_handleDocumentUpdate doc origin st :
  lbw st -> lbw (handleDocumentUpdate doc origin st).
Proof. unfold Kernel.handleDocumentUpdate. branches lbwdb. Qed.

Lemma lbw_onDisconnect_then t doc st :
  lbw st -> lbw (onDisconnect_then t doc st).
Proof. unfold Kernel.onDisconnect_then. branches lbwdb. Qed.

Lemma lbw_onClose_setUpNewConnection conn event st :
  lbw st -> lbw (onClose_setUpNewConnection conn event st).
Proof. unfold Kernel.onClose_setUpNewConnection. branches lbwdb. Qed.

Lemma lbw_Connection_close c event st :
  lbw st -> lbw (Connection_close c event st).
Proof.
  unfold Kernel.Connection_close, onClose_createConnection.
  pose proof lbw_onClose_setUpNewConnection.
  branches lbwdb.
Qed.
#[local] Hint Resolve lbw_Connection_close : lbwdb.

Lemma lbw_closeConnections d st :
  lbw st -> lbw (closeConnections d st).
Proof.
  unfold Kernel.closeConnections. intros Hok.
  apply fold_left_preserves; [|done].
  intros st' [dn doc] Hok'. repeat case_match; try done.
  all: apply fold_left_preserves; auto with lbwdb.
Qed.
#[local] Hint Resolve lbw_closeConnections : lbwdb.

Lemma lbw_createConnection t doc st st' c :
  createConnection t doc st = (st', c) -> lbw st -> lbw st'.
Proof. unfold Kernel.createConnection. branches lbwdb. Qed.
#[local] Hint Resolve lbw_createConnection : lbwdb.

Lemma lbw_onConnect_catch t e st :
  lbw st -> lbw (onConnect_catch t e st).
Proof. unfold Kernel.onConnect_catch. branches lbwdb. Qed.

Lemma lbw_onAuthenticate_catch t d e st :
  lbw st -> lbw (onAuthenticate_catch t d e st).
Proof. unfold Kernel.onAuthenticate_catch. branches lbwdb. Qed.

Lemma lbw_permissionDenied_sent t e st :
  lbw st -> lbw (permissionDenied_sent t e st).
Proof. unfold Kernel.permissionDenied_sent. branches lbwdb. Qed.

Lemma lbw_rejected o t d e st :
  lbw st -> lbw (rejected o t d e st).
Proof.
  unfold Kernel.rejected. destruct o;
    auto using lbw_onConnect_catch, lbw_onAuthenticate_catch.
Qed.
#[local] Hint Resolve lbw_rejected : lbwdb.

Lemma lbw_createDocument t d o st st' r :
  createDocument t d o st = (st', r) -> lbw st -> lbw st'.
Proof.
  unfold createDocument. intros Hc Hok.
  destruct (Map_get d (documents st)) eqn:Hg; simplify_eq; [done|].
  apply lbw_hooks.
  - cbn. rewrite lookup_app_r, Nat.sub_diag by done. by eexists.
  - apply lbw_set_documents. by apply lbw_new_document.
Qed.
#[local] Hint Resolve lbw_createDocument : lbwdb.

Lemma lbw_setUpNewConnection t d o st :
  lbw st -> lbw (setUpNewConnection t d o st).
Proof. unfold setUpNewConnection. branches lbwdb. Qed.
#[local] Hint Resolve lbw_setUpNewConnection : lbwdb.

Lemma lbw_onLoadDocument_settled t d doc o r st :
  is_Some (heap st !! doc) ->
  lbw st -> lbw (onLoadDocument_settled t d doc o r st).
Proof.
  unfold Kernel.onLoadDocument_settled. intros [D HD] Hok.
  destruct r as [u|e]; [|branches lbwdb].
  apply lbw_hooks.
  - cbn. unfold upd_document. rewrite HD. cbn.
    rewrite list_lookup_insert_eq by (by eapply lookup_lt_Some). by eexists.
  - by apply lbw_upd_document.
Qed.

Lemma lbw_afterLoadDocument_settled t d doc o r st :
  (exists D, heap st !! doc = Some D /\ isLoading D = false) ->
  lbw st -> lbw (afterLoadDocument_settled t d doc o r st).
Proof.
  unfold Kernel.afterLoadDocument_settled. intros (D & HD & Hl) Hok.
  destruct r as [u|e]; [|branches lbwdb].
  apply lbw_await; [exact I|].
  destruct Hok as [H1 H2]. unfold upd_document. rewrite HD. split; cbn.
  - intros doc' D'. destruct (decide (doc' = doc)) as [->|Hne].
    + rewrite list_lookup_insert_eq by (by eapply lookup_lt_Some).
      by intros [= <-].
    + rewrite list_lookup_insert_ne by done. apply H1.
  - intros p k Hp. pose proof (H2 p k Hp) as Hn.
    destruct k; try done; cbn in *.
    + destruct (decide (doc0 = doc)) as [->|Hne].
      * rewrite list_lookup_insert_eq by (by eapply lookup_lt_Some). by eexists.
      * by rewrite list_lookup_insert_ne.
    + destruct (decide (doc0 = doc)) as [->|Hne].
      * rewrite list_lookup_insert_eq by (by eapply lookup_lt_Some). by eexists.
      * by rewrite list_lookup_insert_ne.
Qed.

Lemma lbw_handleQueueingMessage t data st :
  lbw st -> lbw (handleQueueingMessage t data st).
Proof. unfold Kernel.handleQueueingMessage. branches lbwdb. Qed.
#[local] Hint Resolve lbw_handleQueueingMessage : lbwdb.

Lemma lbw_messageHandler t data st :
  lbw st -> lbw (messageHandler t data st).
Proof. unfold Kernel.messageHandler. branches lbwdb. Qed.
#[local] Hint Resolve lbw_messageHandler : lbwdb.

Lemma lbw_emit_message t data st :
  lbw st -> lbw (emit_message t data st).
Proof. unfold Kernel.emit_message. branches lbwdb. Qed.
#[local] Hint Resolve lbw_emit_message : lbwdb.

Lemma lbw_attach t d doc o st :
  lbw st -> lbw (attach t d doc o st).
Proof.
  unfold Kernel.attach. intros Hok.
  destruct (createConnection t doc st) as [st1 c] eqn:Hc.
  assert (lbw st1) by eauto with lbwdb.
  repeat case_match; simplify_eq;
    repeat first
      [ apply lbw_hooks | apply lbw_rejected
      | apply fold_left_preserves; [by auto with lbwdb|]
      | apply lbw_upd_socket | apply lbw_set_conns ];
    done.
Qed.

Lemma lbw_onConnect_settled t d r st :
  lbw st -> lbw (onConnect_settled t d r st).
Proof.
  unfold Kernel.onConnect_settled. pose proof lbw_onConnect_catch.
  branches lbwdb.
Qed.

Lemma lbw_onAuthenticate_settled t d r st :
  lbw st -> lbw (onAuthenticate_settled t d r st).
Proof.
  unfold Kernel.onAuthenticate_settled.
  pose proof lbw_onAuthenticate_catch.
  branches lbwdb.
Qed.

Lemma lbw_settle p k r st :
  promises st !! p = Some k ->
  lbw st ->
  lbw (settle k r (set_promises (delete p (promises st)) (next_promise st) st)).
Proof.
  intros Hp Hok. pose proof (proj2 Hok p k Hp) as Hn.
  pose proof (lbw_settled p st Hok) as Hok'.
  destruct k; cbv beta iota delta [Kernel.settle];
    auto using lbw_onConnect_settled,
      lbw_onAuthenticate_settled, lbw_permissionDenied_sent,
      lbw_attach, lbw_onStoreDocument_settled,
      lbw_afterStoreDocument_settled.
  - by apply lbw_onLoadDocument_settled.
  - by apply lbw_afterLoadDocument_settled.
  - destruct r; auto using lbw_onDisconnect_then, lbw_emit.
  - destruct r; auto using lbw_emit.
Qed.

Lemma lbw_step st i : lbw st -> lbw (step st i).
Proof.
  intros Hok. destruct i; cbv beta iota delta [Kernel.step].
  - unfold Kernel.handleConnection. branches lbwdb.
  - by apply lbw_emit_message.
  - repeat case_match; try done. by apply lbw_settle.
  - by apply lbw_upd_socket.
  - by apply lbw_set_clock.
  - case_match. by apply lbw_call, lbw_set_tm.
  - branches lbwdb.
  - apply fold_left_preserves; [|by apply lbw_upd_socket].
    intros. branches lbwdb.
  - repeat case_match; try done. by apply lbw_handleDocumentUpdate.
  - by apply lbw_closeConnections.
Qed.

Lemma lbw_initial : lbw initial.
Proof. split; intros *; cbn; by rewrite ?lookup_empty, ?lookup_nil. Qed.

Lemma lbw_run inputs : lbw (run inputs initial).
Proof.
  apply KernelFacts.run_preserves; [|apply lbw_initial].
  intros. by apply lbw_step.
Qed.

(** X.  In every state the server can reach, a Document that is still
    loading has no update handler: [createDocument] sets the handler only
    after onLoadDocument and afterLoadDocument have passed.  So an update
    that such a Document emits is not handled: no onChange chain is
    started and no store is scheduled. *)
Theorem update_of_loading_document_ignored (inputs : list Input)
    (doc : nat) (D : Document) (origin : option nat) :
  let st := run inputs initial in
  heap st !! doc = Some D ->
  isLoading D = true ->
  onUpdate D = false /\ step st (Update doc origin) = st.
Proof.
  intros st HD Hl. destruct (lbw_run inputs) as [H1 _]. fold st in H1.
  assert (Hu : onUpdate D = false).
  { destruct (onUpdate D) eqn:E; [|done].
    by rewrite (H1 doc D HD E) in Hl. }
  split; [done|]. cbv beta iota delta [Kernel.step]. by rewrite HD, Hu.
Qed.

End LoadingFacts.
End LoadingFacts.

Module DestroyFacts.
Import Kernel Lifecycle.
Section DestroyFacts.
Context {H : Type}.
Variable extensions : list (Extension H).
Variables debounce_ms maxDebounce : Z.
Variable valid_code : Z -> bool.
Variables ResetConnection Unauthorized Forbidden : CloseEvent.

Abbreviation ws_close := (Kernel.ws_close valid_code).
Abbreviation ws_close_event := (Kernel.ws_close_event valid_code).
Abbreviation debounce := (Kernel.debounce debounce_ms maxDebounce).
Abbreviation handleDocumentUpdate :=
  (Kernel.handleDocumentUpdate debounce_ms maxDebounce).
Abbreviation onDisconnect_then :=
  (Kernel.onDisconnect_then debounce_ms maxDebounce).
Abbreviation onClose_setUpNewConnection :=
  (Kernel.onClose_setUpNewConnection valid_code).
Abbreviation Connection_close := (Kernel.Connection_close valid_code).
Abbreviation closeConnections :=
  (Kernel.closeConnections valid_code ResetConnection).
Abbreviation createConnection := (Kernel.createConnection valid_code).
Abbreviation onConnect_catch :=
  (Kernel.onConnect_catch valid_code Unauthorized Forbidden).
Abbreviation onAuthenticate_catch := (Kernel.onAuthenticate_catch Forbidden).
Abbreviation permissionDenied_sent :=
  (Kernel.permissionDenied_sent valid_code Forbidden).
Abbreviation rejected := (Kernel.rejected valid_code Unauthorized Forbidden).
Abbreviation onLoadDocument_settled :=
  (Kernel.onLoadDocument_settled valid_code ResetConnection Unauthorized
     Forbidden).
Abbreviation afterLoadDocument_settled :=
  (Kernel.afterLoadDocument_settled valid_code Unauthorized Forbidden).
Abbreviation handleQueueingMessage :=
  (Kernel.handleQueueingMessage valid_code Unauthorized).
Abbreviation messageHandler := (Kernel.messageHandler valid_code Unauthorized).
Abbreviation emit_message := (Kernel.emit_message valid_code Unauthorized).
Abbreviation attach := (Kernel.attach valid_code Unauthorized Forbidden).
Abbreviation onConnect_settled :=
  (Kernel.onConnect_settled valid_code Unauthorized Forbidden).
Abbreviation onAuthenticate_settled :=
  (Kernel.onAuthenticate_settled Forbidden).
Abbreviation handleConnection := (Kernel.handleConnection extensions).
Abbreviation settle :=
  (Kernel.settle debounce_ms maxDebounce valid_code ResetConnection
     Unauthorized Forbidden).
Abbreviation step :=
  (Kernel.step extensions debounce_ms maxDebounce valid_code ResetConnection
     Unauthorized Forbidden).
Abbreviation run :=
  (Kernel.run extensions debounce_ms maxDebounce valid_code ResetConnection
     Unauthorized Forbidden).

Variable doc0 : nat.
Abbreviation fold_left_preserves := KernelFacts.fold_left_preserves.
Abbreviation quiet := (spares doc0).

Lemma quiet_refl st : quiet (trace st) st.
Proof. exists []. by rewrite app_nil_r. Qed.

Lemma quiet_frame tr0 st st' :
  trace st' = trace st -> quiet tr0 st -> quiet tr0 st'.
Proof. intros Ht (evs & He & Hf). exists evs. by rewrite Ht. Qed.

Lemma quiet_set_trace tr0 evs st :
  Forall (fun e => is_destroy doc0 e = false) evs ->
  quiet tr0 st -> quiet tr0 (set_trace (trace st ++ evs) st).
Proof.
  intros Hevs (evs0 & He & Hf). exists (evs0 ++ evs). cbn.
  rewrite He, <- app_assoc. split; [done|]. by apply Forall_app.
Qed.

Lemma quiet_emit tr0 e st :
  is_destroy doc0 e = false -> quiet tr0 st -> quiet tr0 (emit e st).
Proof. intros He. apply quiet_set_trace. by constructor. Qed.

Lemma quiet_trans tr0 st st' :
  quiet tr0 st -> quiet (trace st) st' -> quiet tr0 st'.
Proof.
  intros (evs & He & Hf) (evs' & He' & Hf'). exists (evs ++ evs').
  rewrite He', He, <- app_assoc. split; [done|]. by apply Forall_app.
Qed.

Lemma quiet_await tr0 k st : quiet tr0 st -> quiet tr0 (await k st).
Proof. by apply quiet_frame. Qed.

Lemma quiet_hooks tr0 h t d k st :
  quiet tr0 st -> quiet tr0 (hooks h t d k st).
Proof. intros. by apply quiet_await, quiet_emit. Qed.

Lemma quiet_upd_socket tr0 t f st :
  quiet tr0 st -> quiet tr0 (upd_socket t f st).
Proof. by apply quiet_frame. Qed.

Lemma quiet_set_sockets tr0 v st :
  quiet tr0 st -> quiet tr0 (set_sockets v st).
Proof. by apply quiet_frame. Qed.

Lemma quiet_set_documents tr0 v st :
  quiet tr0 st -> quiet tr0 (set_documents v st).
Proof. by apply quiet_frame. Qed.

Lemma quiet_set_heap tr0 v st :
  quiet tr0 st -> quiet tr0 (set_heap v st).
Proof. by apply quiet_frame. Qed.

Lemma quiet_set_conns tr0 v st :
  quiet tr0 st -> quiet tr0 (set_conns v st).
Proof. by apply quiet_frame. Qed.

Lemma quiet_set_tm tr0 v st : quiet tr0 st -> quiet tr0 (set_tm v st).
Proof. by apply quiet_frame. Qed.

Lemma quiet_set_clock tr0 v st :
  quiet tr0 st -> quiet tr0 (set_clock v st).
Proof. by apply quiet_frame. Qed.

Lemma quiet_set_promises tr0 v n st :
  quiet tr0 st -> quiet tr0 (set_promises v n st).
Proof. by apply quiet_frame. Qed.

Lemma quiet_upd_document tr0 doc f st :
  quiet tr0 st -> quiet tr0 (upd_document doc f st).
Proof.
  unfold upd_document. destruct (heap st !! doc); [|done].
  by apply quiet_frame.
Qed.

Create HintDb quietdb discriminated.
#[local] Hint Resolve quiet_emit quiet_await quiet_hooks
  quiet_upd_socket quiet_set_sockets quiet_set_documents
  quiet_set_heap quiet_set_conns quiet_set_tm quiet_set_clock
  quiet_set_promises quiet_upd_document : quietdb.

Ltac branches :=
  intros; repeat case_match; simplify_eq; eauto 12 with quietdb.

Lemma quiet_ws_close tr0 t c r st st' :
  ws_close t c r st = Some st' -> quiet tr0 st -> quiet tr0 st'.
Proof. unfold Kernel.ws_close. branches. Qed.
#[local] Hint Resolve quiet_ws_close : quietdb.

Lemma quiet_ws_close_event tr0 t e st :
  quiet tr0 st -> quiet tr0 (ws_close_event t e st).
Proof. unfold Kernel.ws_close_event. branches. Qed.
#[local] Hint Resolve quiet_ws_close_event : quietdb.

Lemma quiet_store tr0 task st : quiet tr0 st -> quiet tr0 (store task st).
Proof. unfold store. branches. Qed.
#[local] Hint Resolve quiet_store : quietdb.

Lemma quiet_call tr0 f st : quiet tr0 st -> quiet tr0 (call f st).
Proof. unfold call. branches. Qed.
#[local] Hint Resolve quiet_call : quietdb.

Lemma quiet_debounce tr0 id f i st :
  quiet tr0 st -> quiet tr0 (debounce id f i st).
Proof. unfold Kernel.debounce. branches. Qed.
#[local] Hint Resolve quiet_debounce : quietdb.

Lemma quiet_afterStore tr0 task st :
  quiet tr0 st -> quiet tr0 (afterStore task st).
Proof. unfold afterStore. branches. Qed.
#[local] Hint Resolve quiet_afterStore : quietdb.

Lemma quiet_onStoreDocument_settled tr0 task r st :
  quiet tr0 st -> quiet tr0 (onStoreDocument_settled task r st).
Proof. unfold onStoreDocument_settled. branches. Qed.

Lemma quiet_handleDocumentUpdate tr0 doc origin st :
  quiet tr0 st -> quiet tr0 (handleDocumentUpdate doc origin st).
Proof. unfold Kernel.handleDocumentUpdate. branches. Qed.

Lemma quiet_Connection_close tr0 c event st :
  quiet tr0 st -> quiet tr0 (Connection_close c event st).
Proof.
  unfold Kernel.Connection_close, Kernel.onClose_setUpNewConnection,
    onClose_createConnection.
  branches.
Qed.
#[local] Hint Resolve quiet_Connection_close : quietdb.

Lemma quiet_closeConnections tr0 d st :
  quiet tr0 st -> quiet tr0 (closeConnections d st).
Proof.
  unfold Kernel.closeConnections. intros Hok.
  apply (fold_left_preserves (quiet tr0)); [|done].
  intros st' [dn doc] Hok'. repeat case_match; try done.
  all: apply (fold_left_preserves (quiet tr0)); auto with quietdb.
Qed.
#[local] Hint Resolve quiet_closeConnections : quietdb.

Lemma quiet_createConnection tr0 t doc st st' c :
  createConnection t doc st = (st', c) -> quiet tr0 st -> quiet tr0 st'.
Proof. unfold Kernel.createConnection. branches. Qed.
#[local] Hint Resolve quiet_createConnection : quietdb.

Lemma quiet_permissionDenied_sent tr0 t e st :
  quiet tr0 st -> quiet tr0 (permissionDenied_sent t e st).
Proof. unfold Kernel.permissionDenied_sent. branches. Qed.

Lemma quiet_rejected tr0 o t d e st :
  quiet tr0 st -> quiet tr0 (rejected o t d e st).
Proof.
  unfold Kernel.rejected, Kernel.onConnect_catch, Kernel.onAuthenticate_catch,
    ws_send.
  branches.
Qed.
#[local] Hint Resolve quiet_rejected : quietdb.

Lemma quiet_createDocument tr0 t d o st st' r :
  createDocument t d o st = (st', r) -> quiet tr0 st -> quiet tr0 st'.
Proof. unfold createDocument. branches. Qed.
#[local] Hint Resolve quiet_createDocument : quietdb.

Lemma quiet_setUpNewConnection tr0 t d o st :
  quiet tr0 st -> quiet tr0 (setUpNewConnection t d o st).
Proof. unfold setUpNewConnection. branches. Qed.
#[local] Hint Resolve quiet_setUpNewConnection : quietdb.

Lemma quiet_onLoadDocument_settled tr0 t d doc o r st :
  quiet tr0 st -> quiet tr0 (onLoadDocument_settled t d doc o r st).
Proof. unfold Kernel.onLoadDocument_settled. branches. Qed.

Lemma quiet_afterLoadDocument_settled tr0 t d doc o r st :
  quiet tr0 st -> quiet tr0 (afterLoadDocument_settled t d doc o r st).
Proof. unfold Kernel.afterLoadDocument_settled. branches. Qed.

Lemma quiet_handleQueueingMessage tr0 t data st :
  quiet tr0 st -> quiet tr0 (handleQueueingMessage t data st).
Proof. unfold Kernel.handleQueueingMessage. branches. Qed.
#[local] Hint Resolve quiet_handleQueueingMessage : quietdb.

Lemma quiet_messageHandler tr0 t data st :
  quiet tr0 st -> quiet tr0 (messageHandler t data st).
Proof. unfold Kernel.messageHandler. branches. Qed.
#[local] Hint Resolve quiet_messageHandler : quietdb.

Lemma delivered_not_destroyed t data st l :
  Forall (fun e => is_destroy doc0 e = false)
    (concat (imap (Connection_handleMessage t data st) l)).
Proof.
  apply Forall_forall. intros e Hin.
  apply list_elem_of_In, in_concat in Hin as (l' & Hl & Hin).
  apply list_elem_of_In, elem_of_lookup_imap in Hl as (c & conn & -> & Hconn).
  unfold Connection_handleMessage in Hin.
  case_match; [|by apply in_nil in Hin].
  by destruct Hin as [<-|[]].
Qed.

Lemma quiet_emit_message tr0 t data st :
  quiet tr0 st -> quiet tr0 (emit_message t data st).
Proof.
  intros He. unfold Kernel.emit_message.
  apply quiet_set_trace; [apply delivered_not_destroyed|auto with quietdb].
Qed.
#[local] Hint Resolve quiet_emit_message : quietdb.

Lemma quiet_attach tr0 t d doc o st :
  quiet tr0 st -> quiet tr0 (attach t d doc o st).
Proof.
  intros He. unfold Kernel.attach.
  destruct (createConnection t doc st) as [st1 c] eqn:Hc.
  assert (He1 : quiet tr0 st1) by eauto with quietdb.
  case_match.
  - apply quiet_hooks.
    apply (fold_left_preserves (quiet tr0)); [auto with quietdb|].
    branches.
  - branches.
Qed.

Lemma quiet_onConnect_settled tr0 t d r st :
  quiet tr0 st -> quiet tr0 (onConnect_settled t d r st).
Proof.
  unfold Kernel.onConnect_settled, Kernel.onConnect_catch. branches.
Qed.


Lemma quiet_onAuthenticate_settled tr0 t d r st :
  quiet tr0 st -> quiet tr0 (onAuthenticate_settled t d r st).
Proof.
  unfold Kernel.onAuthenticate_settled, Kernel.onAuthenticate_catch, ws_send.
  branches.
Qed.

Abbreviation quiet_or_gone := (spared_or_gone doc0).

Lemma remove_document_gone doc st D :
  heap st !! doc = Some D ->
  connections D = [] ->
  quiet_or_gone (trace st) (remove_document doc st).
Proof.
  intros HD Hc. unfold remove_document. rewrite HD.
  destruct (decide (doc = doc0)) as [->|Hne].
  - right. unfold gone, upd_document. cbn. rewrite HD. cbn.
    rewrite list_lookup_insert_eq by (by eapply lookup_lt_Some).
    by eexists.
  - left. apply quiet_emit; [by apply Nat.eqb_neq|].
    apply quiet_upd_document, quiet_set_documents, quiet_refl.
Qed.

Lemma onDisconnect_then_gone t doc st :
  quiet_or_gone (trace st) (onDisconnect_then t doc st).
Proof.
  unfold Kernel.onDisconnect_then.
  destruct (heap st !! doc) as [D|] eqn:HD; [|left; apply quiet_refl].
  destruct (0 <? length (connections D))%nat eqn:Hn; [left; apply quiet_refl|].
  destruct (negb (isLoading D)).
  - left. apply quiet_debounce, quiet_refl.
  - apply (remove_document_gone doc st D HD).
    apply Nat.ltb_ge in Hn. by destruct (connections D); [|cbn in Hn; lia].
Qed.

Lemma afterStoreDocument_settled_gone task r st :
  quiet_or_gone (trace st) (afterStoreDocument_settled task r st).
Proof.
  unfold afterStoreDocument_settled, Kernel.getConnectionsCount.
  destruct r as [u|e]; [|left; by apply quiet_emit, quiet_refl].
  destruct (heap st !! task_document task) as [D|] eqn:HD.
  - destruct (0 <? length (connections D))%nat eqn:Hn; [left; apply quiet_refl|].
    apply (remove_document_gone _ st D HD).
    apply Nat.ltb_ge in Hn. by destruct (connections D); [|cbn in Hn; lia].
  - cbn. left. unfold remove_document. rewrite HD. apply quiet_refl.
Qed.

Lemma settle_gone k r st :
  quiet_or_gone (trace st) (settle k r st).
Proof.
  pose proof (quiet_refl st) as He.
  destruct k; cbv beta iota delta [Kernel.settle].
  - left. by apply quiet_onConnect_settled.
  - left. by apply quiet_onAuthenticate_settled.
  - left. by apply quiet_permissionDenied_sent.
  - left. by apply quiet_onLoadDocument_settled.
  - left. by apply quiet_afterLoadDocument_settled.
  - left. by apply quiet_attach.
  - destruct r; [apply onDisconnect_then_gone|left; by apply quiet_emit].
  - left. by apply quiet_onStoreDocument_settled.
  - apply afterStoreDocument_settled_gone.
  - left. destruct r; [done|by apply quiet_emit].
Qed.

Lemma step_gone st i : quiet_or_gone (trace st) (step st i).
Proof.
  pose proof (quiet_refl st) as He.
  destruct i; cbv beta iota delta [Kernel.step].
  - left. unfold Kernel.handleConnection. branches.
  - left. by apply quiet_emit_message.
  - destruct (promises st !! p) as [k|] eqn:Hp; [|by left].
    case_match; [|by left].
    apply (settle_gone k r
             (set_promises (delete p (promises st)) (next_promise st) st)).
  - left. by apply quiet_upd_socket.
  - left. by apply quiet_set_clock.
  - left. case_match. by apply quiet_call, quiet_set_tm.
  - left. branches.
  - left. apply (fold_left_preserves (quiet (trace st)));
      [|by apply quiet_upd_socket].
    intros. branches.
  - left. repeat case_match; try done. by apply quiet_handleDocumentUpdate.
  - left. by apply quiet_closeConnections.
Qed.

End DestroyFacts.

Section Destroy.
Context {H : Type}.
Variable extensions : list (Extension H).
Variables debounce_ms maxDebounce : Z.
Variable valid_code : Z -> bool.
Variables ResetConnection Unauthorized Forbidden : CloseEvent.

Abbreviation ws_close := (Kernel.ws_close valid_code).
Abbreviation ws_close_event := (Kernel.ws_close_event valid_code).
Abbreviation debounce := (Kernel.debounce debounce_ms maxDebounce).
Abbreviation handleDocumentUpdate :=
  (Kernel.handleDocumentUpdate debounce_ms maxDebounce).
Abbreviation onDisconnect_then :=
  (Kernel.onDisconnect_then debounce_ms maxDebounce).
Abbreviation onClose_setUpNewConnection :=
  (Kernel.onClose_setUpNewConnection valid_code).
Abbreviation Connection_close := (Kernel.Connection_close valid_code).
Abbreviation closeConnections :=
  (Kernel.closeConnections valid_code ResetConnection).
Abbreviation createConnection := (Kernel.createConnection valid_code).
Abbreviation onConnect_catch :=
  (Kernel.onConnect_catch valid_code Unauthorized Forbidden).
Abbreviation onAuthenticate_catch := (Kernel.onAuthenticate_catch Forbidden).
Abbreviation permissionDenied_sent :=
  (Kernel.permissionDenied_sent valid_code Forbidden).
Abbreviation rejected := (Kernel.rejected valid_code Unauthorized Forbidden).
Abbreviation onLoadDocument_settled :=
  (Kernel.onLoadDocument_settled valid_code ResetConnection Unauthorized
     Forbidden).
Abbreviation afterLoadDocument_settled :=
  (Kernel.afterLoadDocument_settled valid_code Unauthorized Forbidden).
Abbreviation handleQueueingMessage :=
  (Kernel.handleQueueingMessage valid_code Unauthorized).
Abbreviation messageHandler := (Kernel.messageHandler valid_code Unauthorized).
Abbreviation emit_message := (Kernel.emit_message valid_code Unauthorized).
Abbreviation attach := (Kernel.attach valid_code Unauthorized Forbidden).
Abbreviation onConnect_settled :=
  (Kernel.onConnect_settled valid_code Unauthorized Forbidden).
Abbreviation onAuthenticate_settled :=
  (Kernel.onAuthenticate_settled Forbidden).
Abbreviation handleConnection := (Kernel.handleConnection extensions).
Abbreviation settle :=
  (Kernel.settle debounce_ms maxDebounce valid_code ResetConnection
     Unauthorized Forbidden).
Abbreviation step :=
  (Kernel.step extensions debounce_ms maxDebounce valid_code ResetConnection
     Unauthorized Forbidden).
Abbreviation run :=
  (Kernel.run extensions debounce_ms maxDebounce valid_code ResetConnection
     Unauthorized Forbidden).

(** X.  Whatever the state, when a step of the server calls [destroy()]
    on a Document, that Document has no Connection at the end of the
    step: [destroy()] is called only after the onDisconnect chain, or the
    afterStoreDocument chain that follows the last disconnect, has
    resolved and the Document was found without Connections. *)
Theorem destroy_only_without_connections (st : State) (i : Input)
    (doc : nat) (evs : list Event) :
  trace (step st i) = trace st ++ evs ->
  EvDestroy doc ∈ evs ->
  exists D,
    heap (step st i) !! doc = Some D
    /\ connections D = []
    /\ destroyed D = true.
Proof.
  intros Htr Hin.
  destruct (step_gone extensions debounce_ms maxDebounce valid_code
              ResetConnection Unauthorized Forbidden doc st i)
    as [(evs' & Htr' & Hq)|Hgone]; [|done].
  rewrite Htr in Htr'. apply app_inv_head in Htr' as <-.
  rewrite Forall_forall in Hq. specialize (Hq _ Hin). cbn in Hq.
  by rewrite Nat.eqb_refl in Hq.
Qed.

End Destroy.
End DestroyFacts.

Module DashboardFacts.
Import Strings.Ascii Parameters Dashboard.

Lemma prefix_app (p r : string) : String.prefix p (p +:+ r) = true.
Proof.
  induction p as [|c p IH]; [by destruct r|].
  change (String c p +:+ r) with (String c (p +:+ r)). cbn.
  destruct (Ascii.ascii_dec c c); [done|congruence].
Qed.

Lemma drop_app (p r : string) : drop (String.length p) (p +:+ r) = r.
Proof. induction p as [|c p IH]; [by destruct r|done]. Qed.

Lemma prefix_slash (p s : string) :
  p <> EmptyString -> occurs "/" p = false ->
  String.prefix p (String "/" s) = false.
Proof.
  destruct p as [|c p]; [done|]. intros _. cbn.
  intros [Hc _]%orb_false_elim.
  destruct (Ascii.ascii_dec c "/") as [->|]; [|done].
  by rewrite Ascii.eqb_refl in Hc.
Qed.

Lemma replace_unfold (pattern replacement s : string) :
  replace pattern replacement s
  = if String.prefix pattern s
    then replacement +:+ drop (String.length pattern) s
    else match s with
         | EmptyString => EmptyString
         | String c s' => String c (replace pattern replacement s')
         end.
Proof. by destruct s. Qed.

(** X.  [handleRequest] serves a request exactly when the second piece of
    its URL, split at the slashes, is the configured path.  For a URL that
    starts with a slash and the path, followed by nothing or by a slash and
    more, it hands the request to the static file server with the path
    taken out of the URL; for a request without URL, or with another second
    piece, it returns false, leaves the URL alone, and the server answers
    with 404. *)
Theorem handleRequest_strips_path (path rest : string) :
  occurs "/" path = false ->
  rest = EmptyString \/ (exists r, rest = String "/" r) ->
  handleRequest path (Some (String "/" (path +:+ rest)))
  = (true, Some (String "/" rest), true)
  /\ handleRequest path None = (false, None, false)
  /\ request_listener path None = Some 404
  /\ forall url,
       on_path path url = false ->
       handleRequest path url = (false, url, false)
       /\ request_listener path url = Some 404.
Proof.
  intros Hp Hrest.
  assert (Hsplit : split "/" (String "/" (path +:+ rest)) !! 1%nat = Some path).
  { unfold split.
    change (String "/" (path +:+ rest))
      with (EmptyString +:+ String "/" (path +:+ rest)).
    rewrite ParametersFacts.split_pieces_app by done. cbn.
    destruct Hrest as [->|[r ->]].
    - replace (path +:+ EmptyString) with path
        by (clear; induction path as [|c p IH]; [done|];
            change (String c p +:+ EmptyString) with (String c (p +:+ EmptyString));
            by rewrite <- IH).
      by rewrite ParametersFacts.split_pieces_plain.
    - by rewrite ParametersFacts.split_pieces_app. }
  split; [|split; [done|split; [done|]]].
  - unfold handleRequest, on_path. rewrite bool_decide_eq_true_2 by done.
    cbn [fmap option_fmap option_map]. do 3 f_equal.
    destruct (decide (path = EmptyString)) as [->|Hne].
    + by destruct rest.
    + cbn [replace]. rewrite prefix_slash by done.
      f_equal. by rewrite replace_unfold, prefix_app, drop_app.
  - intros url Hurl. unfold request_listener, handleRequest. by rewrite Hurl.
Qed.

Lemma filter_filter_andb {A} (f g : A -> bool) (l : list A) :
  List.filter f (List.filter g l) = List.filter (fun x => g x && f x) l.
Proof.
  induction l as [|x l IH]; [done|]. cbn.
  destruct (g x); cbn; [|done]. destruct (f x); by rewrite IH.
Qed.

Lemma filter_id {A} (f : A -> bool) (l : list A) :
  (forall x, x ∈ l -> f x = true) -> List.filter f l = l.
Proof.
  induction l as [|x l IH]; intros Hf; [done|]. cbn.
  rewrite Hf by (by left). f_equal. apply IH. intros y Hy. apply Hf. by right.
Qed.

Section SendFacts.
Variable readyState : nat -> Z.
Variable throws : nat -> bool.

Lemma send_fold (message : string) (l : list nat) :
  forall st,
    fold_left (send_to readyState throws message) l st
    = mkState
        (List.filter
           (fun c => negb (bool_decide (c ∈ l)) || kept readyState throws c)
           (connections st))
        (actions st ++ flat_map (outcome readyState throws message) l).
Proof.
  induction l as [|c l IH]; intros st.
  - cbn. rewrite app_nil_r, filter_id; [by destruct st|].
    intros x _. rewrite bool_decide_eq_false_2; [done|apply not_elem_of_nil].
  - cbn [fold_left flat_map]. rewrite IH. clear IH.
    assert (Hin : forall x, bool_decide (x ∈ c :: l)
                            = Nat.eqb x c || bool_decide (x ∈ l)).
    { intros x. destruct (Nat.eqb_spec x c) as [->|Hne]; cbn.
      - apply bool_decide_eq_true_2. by left.
      - apply bool_decide_ext. rewrite elem_of_cons.
        split; [by intros [?|?]|by right]. }
    unfold send_to, outcome, kept, close.
    destruct ((readyState c =? 2) || (readyState c =? 3)) eqn:Ec;
      [|destruct (throws c) eqn:Et]; cbn [connections actions app].
    + f_equal. apply List.filter_ext. intros x. rewrite Hin.
      destruct (Nat.eqb_spec x c) as [->|Hne]; cbn; [|done].
      rewrite Ec. cbn. by rewrite orb_true_r.
    + rewrite filter_filter_andb, <- app_assoc. f_equal.
      apply List.filter_ext. intros x. rewrite Hin.
      destruct (Nat.eqb_spec x c) as [->|Hne]; cbn.
      * by rewrite Ec, Et.
      * done.
    + rewrite <- app_assoc. f_equal.
      apply List.filter_ext. intros x. rewrite Hin.
      destruct (Nat.eqb_spec x c) as [->|Hne]; cbn; [|done].
      rewrite Ec, Et. cbn. by rewrite orb_true_r.
Qed.

(** X.  [send] goes through the sockets in the order they connected.  A
    socket that is closing or closed is passed over; the message is sent
    to every other socket, and the sockets whose [send] throws are closed
    and taken out of the Map while the loop runs.  Afterwards the Map
    holds, in the same order, the sockets that were passed over or whose
    [send] returned; no message is ever handed to a closing or closed
    socket. *)
Theorem send_skips_and_drops (message : string) (st : State) :
  send readyState throws message st
  = mkState
      (List.filter (kept readyState throws) (connections st))
      (actions st
       ++ flat_map (outcome readyState throws message) (connections st))
  /\ forall c m,
       Sent c m ∈ actions (send readyState throws message st) ->
       Sent c m ∈ actions st
       \/ (m = message /\ c ∈ connections st
           /\ readyState c <> 2 /\ readyState c <> 3 /\ throws c = false).
Proof.
  assert (Heq : send readyState throws message st
                = mkState
                    (List.filter (kept readyState throws) (connections st))
                    (actions st
                     ++ flat_map (outcome readyState throws message)
                          (connections st))).
  { unfold send. rewrite send_fold. f_equal.
    induction (connections st) as [|x xs IHx]; [done|].
    apply List.filter_ext_in. intros y Hy.
    rewrite bool_decide_eq_true_2 by (by apply list_elem_of_In). done. }
  split; [done|]. rewrite Heq. cbn. intros c m [Hin|Hin]%elem_of_app; [by left|].
  right. apply list_elem_of_In, in_flat_map in Hin as (x & Hx & Hin).
  apply list_elem_of_In in Hx. unfold outcome in Hin.
  destruct (readyState x =? 2) eqn:E2; [done|].
  destruct (readyState x =? 3) eqn:E3; [done|].
  destruct (throws x) eqn:Et; cbn in Hin.
  - by destruct Hin as [|[]].
  - destruct Hin as [[= <- <-]|[]]. repeat split; try done; lia.
Qed.

End SendFacts.

(** X.  The Map of the sockets: [handleConnection] adds a socket, at the
    end when it is new and in place when it is already there, and keeps
    the keys distinct; [close] takes the socket out and leaves the others
    in their order, so that a socket that connects and closes leaves the
    Map as it was; closing again changes nothing in the Map. *)
Theorem connections_round_trip (connection : nat) (st : State) :
  NoDup (connections st) ->
  NoDup (connections (handleConnection connection st))
  /\ (connection ∈ connections (handleConnection connection st))
  /\ (connection ∉ connections (close connection (handleConnection connection st)))
  /\ (connection ∉ connections st ->
      connections (close connection (handleConnection connection st))
      = connections st)
  /\ connections (close connection (close connection st))
     = connections (close connection st).
Proof.
  intros Hnd. unfold handleConnection, close, Map_set. cbn.
  assert (Hf : forall l,
             connection ∉ l ->
             List.filter (fun c => negb (Nat.eqb c connection)) l = l).
  { intros l Hl. apply filter_id. intros x Hx.
    destruct (Nat.eqb_spec x connection) as [->|]; done. }
  assert (Hout : forall l,
             connection ∉ List.filter (fun c => negb (Nat.eqb c connection)) l).
  { intros l Hin. apply list_elem_of_In, List.filter_In in Hin as [_ Hin].
    by rewrite Nat.eqb_refl in Hin. }
  destruct (decide (connection ∈ connections st)) as [Hin|Hnot].
  - rewrite bool_decide_eq_true_2 by done.
    split; [done|]. split; [done|]. split; [apply Hout|]. split; [done|].
    apply Hf, Hout.
  - rewrite bool_decide_eq_false_2 by done.
    split.
    { apply NoDup_app. split; [done|]. split; [|apply NoDup_singleton].
      intros x Hx Hx'. apply list_elem_of_singleton in Hx'. by subst. }
    split; [apply elem_of_app; right; by apply list_elem_of_singleton|].
    split; [apply Hout|]. split; [|apply Hf, Hout].
    intros _. rewrite List.filter_app, Hf by done. cbn.
    by rewrite Nat.eqb_refl, app_nil_r.
Qed.

End DashboardFacts.

